(** * libhif / hawkey: query evaluation, goal resolution, transaction commit
      and the yumdb reason store.

    A shallow embedding of the parts of [hy-query.c], [hy-goal.c],
    [hif-transaction.c] and [hif-db.c] that the specification talks about,
    followed by the properties that hold (or fail) on them.

    Conventions.
    - libsolv is an external library.  Its data (ids, queues, bitmaps, the
      pool) is modelled directly; what it computes (string interning, the
      provides index, EVR comparison, the SAT solver) is carried as function
      fields of the records below, so every theorem holds for any behaviour
      of the library.
    - A C [int]/[Id] is a [Z]; job words and comparison types are bit masks
      combined with [Z.lor] and tested with [Z.land].
    - A libsolv [Map] is a bitmap: its bits are an [N], and
      [map_and]/[map_or]/[map_subtract] are the bitwise operations.  The
      width of a bitmap in bytes is read in one place, the assertion of
      [hy_query_apply] on the result bitmap of a query, and is kept beside
      that bitmap.
    - A failed [assert] aborts the program: the functions concerned return
      [option], [None] standing for the abort. *)

From Stdlib Require Import ZArith NArith List String Ascii Bool Lia.
From Stdlib Require Import Permutation Sorted.
From stdpp Require Import base strings gmap.
Import ListNotations.

Local Open Scope Z_scope.

(* ===================================================================== *)
(** * libsolv data: ids, queues, bitmaps, the pool *)
(* ===================================================================== *)

Module Solv.

Definition Id := Z.

(** ** Queue: a growable array of ids. *)
Definition Queue := list Id.

Definition queue_push (q : Queue) (x : Id) : Queue := q ++ [x].

Definition queue_push2 (q : Queue) (a b : Id) : Queue := q ++ [a; b].

(** [queue_pop] takes the last element; libsolv returns 0 on an empty
    queue. *)
Definition queue_pop (q : Queue) : Id * Queue :=
  match rev q with
  | [] => (0, q)
  | x :: r => (x, rev r)
  end.

(** ** Map: a bitmap indexed by solvable id. *)
Definition Map := N.

Definition map_empty : Map := 0%N.
Definition MAPTST (m : Map) (i : Id) : bool := N.testbit m (Z.to_N i).
Definition MAPSET (m : Map) (i : Id) : Map := N.setbit m (Z.to_N i).
Definition MAPCLR (m : Map) (i : Id) : Map := N.clearbit m (Z.to_N i).
Definition map_and (t s : Map) : Map := N.land t s.
Definition map_or (t s : Map) : Map := N.lor t s.
Definition map_subtract (t s : Map) : Map := N.ldiff t s.

(** The width in bytes that [map_init (m, n)] gives a bitmap for [n]
    bits. *)
Definition map_size (n : Z) : Z := Z.shiftr (n + 7) 3.

(** ** Solvables and the pool. *)
Record Solvable := mkSolvable {
  s_name : Id;
  s_arch : Id;
  s_evr : Id;
  s_repo : Id;              (* 0: the solvable belongs to no repo *)
  s_requires : list Id;     (* solvable_lookup_idarray (SOLVABLE_REQUIRES) *)
  s_is_package : bool       (* see [is_package] *)
}.

Definition null_solvable : Solvable := mkSolvable 0 0 0 0 [] false.

Record Pool := mkPool {
  solvables : list Solvable;        (* pool->solvables, index = id *)
  installed : option Id;            (* pool->installed (a repo), or NULL *)
  considered : option Map;          (* pool->considered, or NULL *)
  pool_id2str : Id -> string;
  pool_evrcmp : Id -> Id -> Z;      (* pool_evrcmp (.., EVRCMP_COMPARE) *)
  whatprovides : Id -> list Id;     (* FOR_PROVIDES (p, pp, dep) *)
  what_upgrades : Id -> Id;
  what_downgrades : Id -> Id
}.

Definition nsolvables (pool : Pool) : Z := Z.of_nat (length (solvables pool)).

(** [pool->solvables + id]; ids handed around are below [nsolvables]. *)
Definition pool_id2solvable (pool : Pool) (id : Id) : Solvable :=
  nth (Z.to_nat id) (solvables pool) null_solvable.

(** Modelled from the spec: [is_package] (hy-iutil.c is not part of the
    sources at hand).  The spec speaks of "package-kind solvables"; the kind
    of a solvable is carried as a flag of the solvable. *)
Definition is_package (pool : Pool) (s : Solvable) : bool := s_is_package s.

(** Ids [lo, lo+1, ..., hi-1]. *)
Definition id_range (lo hi : Z) : list Id :=
  List.map (fun k => lo + Z.of_nat k) (seq 0 (Z.to_nat (hi - lo))).

(** Modelled from the spec: the iteration macro [FOR_PKG_SOLVABLES]
    (hy-iutil.h is not part of the sources at hand): the ids from 2 (id 0
    is "none", id 1 the reserved system solvable) below [nsolvables] whose
    solvable belongs to a repo and is of package kind. *)
Definition FOR_PKG_SOLVABLES (pool : Pool) : list Id :=
  List.filter
    (fun p => let s := pool_id2solvable pool p in
              negb (s_repo s =? 0) && is_package pool s)
    (id_range 2 (nsolvables pool)).

(** [FOR_PKG_PROVIDES]: the providers of [dep] that are packages. *)
Definition FOR_PKG_PROVIDES (pool : Pool) (dep : Id) : list Id :=
  List.filter (fun p => is_package pool (pool_id2solvable pool p))
              (whatprovides pool dep).

(** ** solv_sort.
    libsolv's [solv_sort] sorts an array of fewer than seven elements by
    insertion: each element in turn is swapped towards the front as long as
    the element before it compares greater, so that elements comparing equal
    keep their order.  That loop is what is modelled.  From seven elements on
    libsolv partitions the array around a pivot; it leaves the same array as
    the insertion loop whenever the comparator is a strict order on the
    elements, since a sorted arrangement is unique then.  The statements
    that depend on the sorted array say which of the two cases they
    cover. *)

(** The inner loop: [x] is moved in front of the elements of the sorted
    prefix that compare greater; [rl] is the prefix read from its end. *)
Fixpoint sort_insert (cmp : Id -> Id -> Z) (x : Id) (rl : list Id) : list Id :=
  match rl with
  | [] => [x]
  | y :: rl' => if 0 <? cmp y x then y :: sort_insert cmp x rl' else x :: rl
  end.

Definition solv_sort (cmp : Id -> Id -> Z) (l : list Id) : list Id :=
  rev (fold_left (fun rl x => sort_insert cmp x rl) l []).

(** [cmp] is a strict order on the elements of [l]: no element occurs
    twice, two different elements never compare equal, the comparison is
    antisymmetric and transitive. *)
Definition strict_order_on (cmp : Id -> Id -> Z) (l : list Id) : Prop :=
  List.NoDup l /\
  (forall a b : Id, In a l -> In b l -> a <> b ->
     cmp a b <> 0 /\ (cmp a b < 0 <-> 0 < cmp b a)) /\
  (forall a b c : Id, In a l -> In b l -> In c l ->
     cmp a b < 0 -> cmp b c < 0 -> cmp a c < 0).

(** The arrays on which the insertion loop is what [solv_sort] leaves. *)
Definition sort_settled (cmp : Id -> Id -> Z) (l : list Id) : Prop :=
  (length l < 7)%nat \/ strict_order_on cmp l.

(** [sub] occurs in [s]. *)
Fixpoint has_substring (sub s : string) : bool :=
  String.prefix sub s ||
  match s with
  | EmptyString => false
  | String _ s' => has_substring sub s'
  end.

End Solv.

(* ===================================================================== *)
(** * hy-query.c *)
(* ===================================================================== *)

Module Query.
Import Solv.

(** Modelled from the spec: the comparison-type bits of [hy-types.h] (the
    header is not part of the sources at hand): "bitmask of
    EQ|GT|LT|NEQ|SUBSTR|GLOB|ICASE|NOT". *)
Definition HY_ICASE : Z := Z.shiftl 1 0.
Definition HY_NOT : Z := Z.shiftl 1 1.
Definition HY_COMPARISON_FLAG_MASK : Z := Z.lor HY_ICASE HY_NOT.
Definition HY_EQ : Z := Z.shiftl 1 8.
Definition HY_LT : Z := Z.shiftl 1 9.
Definition HY_GT : Z := Z.shiftl 1 10.
Definition HY_SUBSTR : Z := Z.shiftl 1 11.
Definition HY_GLOB : Z := Z.shiftl 1 12.
Definition HY_NEQ : Z := Z.lor HY_EQ HY_NOT.

(** Query creation flags. *)
Definition HY_IGNORE_EXCLUDES : Z := Z.shiftl 1 0.

(** The key names of [hy-types.h], as an enumeration. *)
Inductive Keyname :=
| HY_PKG | HY_PKG_ALL | HY_PKG_ARCH | HY_PKG_CONFLICTS | HY_PKG_DESCRIPTION
| HY_PKG_EPOCH | HY_PKG_EVR | HY_PKG_FILE | HY_PKG_NAME | HY_PKG_NEVRA
| HY_PKG_OBSOLETES | HY_PKG_PROVIDES | HY_PKG_RELEASE | HY_PKG_REPONAME
| HY_PKG_REQUIRES | HY_PKG_SOURCERPM | HY_PKG_SUMMARY | HY_PKG_URL
| HY_PKG_VERSION | HY_PKG_LOCATION | HY_PKG_ENHANCES | HY_PKG_RECOMMENDS
| HY_PKG_SUGGESTS | HY_PKG_SUPPLEMENTS | HY_PKG_ADVISORY
| HY_PKG_ADVISORY_BUG | HY_PKG_ADVISORY_CVE | HY_PKG_ADVISORY_SEVERITY
| HY_PKG_ADVISORY_TYPE.

Inductive MatchType := _HY_VOID | _HY_NUM | _HY_PKG | _HY_RELDEP | _HY_STR.

Definition match_type_eqb (a b : MatchType) : bool :=
  match a, b with
  | _HY_VOID, _HY_VOID | _HY_NUM, _HY_NUM | _HY_PKG, _HY_PKG
  | _HY_RELDEP, _HY_RELDEP | _HY_STR, _HY_STR => true
  | _, _ => false
  end.

(** [union _Match]. *)
Inductive Match :=
| MNum (num : Z)
| MPset (pset : Map)
| MReldep (reldep : Id)
| MStr (str : string).

Record Filter := mkFilter {
  cmp_type : Z;
  keyname : Keyname;
  match_type : MatchType;
  matches : list Match          (* nmatches = length matches *)
}.

Record HyQuery := mkQuery {
  flags : Z;
  result : option Map;          (* NULL until first evaluated *)
  result_size : Z;              (* q->result->size, while there is a result *)
  filters : list Filter;        (* nfilters = length filters *)
  applied : bool;
  downgradable : bool;
  downgrades : bool;
  updatable : bool;
  updates : bool;
  latest : bool;
  latest_per_arch : bool
}.

Inductive DnfError := DNF_ERROR_BAD_QUERY.

(** ** Validity of a staged filter. *)
Definition match_type_pkg (k : Keyname) : bool :=
  match k with
  | HY_PKG | HY_PKG_OBSOLETES => true
  | _ => false
  end.

Definition valid_filter_pkg (k : Keyname) (cmp : Z) : bool :=
  if negb (match_type_pkg k) then false
  else (cmp =? HY_EQ) || (cmp =? HY_NEQ).

(** ** Per-filter bitmap producers.
    The producers that walk libsolv's data iterators, reldep arrays or the
    advisory metadata are carried as a record of functions
    [pool -> q->result -> filter -> m -> m'], [None] for a failed assertion
    inside them. *)
Definition Producer := Pool -> Map -> Filter -> Map -> option Map.

Record Producers := mkProducers {
  filter_rco_reldep : Producer;
  filter_epoch : Producer;
  filter_evr : Producer;
  filter_nevra : Producer;
  filter_version : Producer;
  filter_release : Producer;
  filter_sourcerpm : Producer;
  filter_obsoletes : Producer;
  filter_provides_reldep : Producer;
  filter_reponame : Producer;
  filter_location : Producer;
  filter_advisory : Producer;
  filter_dataiterator : Producer
}.

(** C [assert]: [None] is the abort. *)
Definition c_assert (b : bool) : option unit := if b then Some tt else None.

Definition filter_pkg : Producer := fun _ _ f _ =>
  match matches f with
  | [m0] =>
      match c_assert (match_type_eqb (match_type f) _HY_PKG), m0 with
      | Some _, MPset pset => Some pset       (* map_init_clone *)
      | _, _ => None
      end
  | _ => None
  end.

Definition filter_all : Producer := fun _ _ f m =>
  match matches f with
  | [MNum n] =>
      match c_assert (match_type_eqb (match_type f) _HY_NUM
                    && (cmp_type f =? HY_EQ) && (n =? -1)) with
      | Some _ => Some m                      (* just leaves m empty *)
      | None => None
      end
  | _ => None
  end.

(** The [switch (f->keyname)] of [hy_query_apply]. *)
Definition filter_dispatch (X : Producers) : Producer := fun pool res f m =>
  match keyname f with
  | HY_PKG => filter_pkg pool res f m
  | HY_PKG_ALL => filter_all pool res f m
  | HY_PKG_CONFLICTS => filter_rco_reldep X pool res f m
  | HY_PKG_EPOCH => filter_epoch X pool res f m
  | HY_PKG_EVR => filter_evr X pool res f m
  | HY_PKG_NEVRA => filter_nevra X pool res f m
  | HY_PKG_VERSION => filter_version X pool res f m
  | HY_PKG_RELEASE => filter_release X pool res f m
  | HY_PKG_SOURCERPM => filter_sourcerpm X pool res f m
  | HY_PKG_OBSOLETES =>
      if match_type_eqb (match_type f) _HY_RELDEP
      then filter_rco_reldep X pool res f m
      else match c_assert (match_type_eqb (match_type f) _HY_PKG) with
           | Some _ => filter_obsoletes X pool res f m
           | None => None
           end
  | HY_PKG_PROVIDES =>
      match c_assert (match_type_eqb (match_type f) _HY_RELDEP) with
      | Some _ => filter_provides_reldep X pool res f m
      | None => None
      end
  | HY_PKG_ENHANCES | HY_PKG_RECOMMENDS | HY_PKG_REQUIRES
  | HY_PKG_SUGGESTS | HY_PKG_SUPPLEMENTS =>
      match c_assert (match_type_eqb (match_type f) _HY_RELDEP) with
      | Some _ => filter_rco_reldep X pool res f m
      | None => None
      end
  | HY_PKG_REPONAME => filter_reponame X pool res f m
  | HY_PKG_LOCATION => filter_location X pool res f m
  | HY_PKG_ADVISORY | HY_PKG_ADVISORY_BUG | HY_PKG_ADVISORY_CVE
  | HY_PKG_ADVISORY_SEVERITY | HY_PKG_ADVISORY_TYPE =>
      filter_advisory X pool res f m
  | _ => filter_dataiterator X pool res f m
  end.

(** ** init_result *)
Definition init_result (pool : Pool) (q : HyQuery) : Map :=
  let r := fold_left MAPSET (FOR_PKG_SOLVABLES pool) map_empty in
  let r :=
    if Z.land (flags q) HY_IGNORE_EXCLUDES =? 0
    then match considered pool with     (* after dnf_sack_recompute_considered *)
         | Some c => map_and r c
         | None => r
         end
    else r in
  (* make sure the odd bits are cleared: the bits from nsolvables on *)
  N.land r (N.ones (Z.to_N (nsolvables pool))).

(** ** The modifiers. *)
Definition same_repo (r : Id) (inst : Id) : bool := r =? inst.

Definition filter_updown (pool : Pool) (downgrade : bool) (res : Map)
  : option Map :=
  match installed pool with
  | None => None                         (* assert(pool->installed) *)
  | Some inst =>
      let m :=
        fold_left
          (fun m i =>
             if negb (MAPTST res i) then m
             else if same_repo (s_repo (pool_id2solvable pool i)) inst then m
             else if downgrade && (0 <? what_downgrades pool i) then MAPSET m i
             else if negb downgrade && (0 <? what_upgrades pool i)
                  then MAPSET m i
             else m)
          (id_range 1 (nsolvables pool)) map_empty in
      Some (map_and res m)
  end.

Definition filter_updown_able (pool : Pool) (downgradable : bool) (res : Map)
  : option Map :=
  match installed pool with
  | None => None                         (* assert(pool->installed) *)
  | Some inst =>
      let m :=
        fold_left
          (fun m p =>
             if same_repo (s_repo (pool_id2solvable pool p)) inst then m
             else
               let what := if downgradable then what_downgrades pool p
                           else what_upgrades pool p in
               if negb (what =? 0) && MAPTST res what then MAPSET m what
               else m)
          (FOR_PKG_SOLVABLES pool) map_empty in
      Some (map_and res m)
  end.

(** The comparator of the non-per-arch case.  Both [sa] and [sb] are read
    through [ap] in the source, so the name difference is always 0. *)
Definition filter_latest_sortcmp (pool : Pool) (a b : Id) : Z :=
  let sa := pool_id2solvable pool a in
  let sb := pool_id2solvable pool a in
  let r := s_name sa - s_name sb in
  if negb (r =? 0) then r else a - b.

Definition filter_latest_sortcmp_byarch (pool : Pool) (a b : Id) : Z :=
  let sa := pool_id2solvable pool a in
  let sb := pool_id2solvable pool b in
  let r := s_name sa - s_name sb in
  if negb (r =? 0) then r
  else let r := s_arch sa - s_arch sb in
       if negb (r =? 0) then r else a - b.

(** The block loop of [filter_latest]; [hp] is the id of [highest]
    ([None]: [highest] is still the null pointer). *)
Fixpoint latest_blocks (pool : Pool) (per_arch : bool) (l : list Id)
  (hp : option Id) (res : Map) : Map :=
  match l with
  | [] => res
  | p :: l' =>
      let cons := pool_id2solvable pool p in
      match hp with
      | None => latest_blocks pool per_arch l' (Some p) res
      | Some h =>
          let highest := pool_id2solvable pool h in
          if negb (s_name highest =? s_name cons)
             || (per_arch && negb (s_arch highest =? s_arch cons))
          then (* start of a new block *)
            latest_blocks pool per_arch l' (Some p) res
          else if pool_evrcmp pool (s_evr highest) (s_evr cons) <? 0
          then (* new highest found *)
            latest_blocks pool per_arch l' (Some p) (MAPCLR res h)
          else (* also taken for the same version *)
            latest_blocks pool per_arch l' (Some h) (MAPCLR res p)
      end
  end.

Definition filter_latest (pool : Pool) (q : HyQuery) (res : Map) : Map :=
  let samename :=
    List.filter (fun i => MAPTST res i) (id_range 1 (nsolvables pool)) in
  if (length samename <? 2)%nat then res
  else
    let sorted :=
      if latest_per_arch q
      then solv_sort (filter_latest_sortcmp_byarch pool) samename
      else solv_sort (filter_latest_sortcmp pool) samename in
    latest_blocks pool (latest_per_arch q) sorted None res.

(** ** hy_query_apply *)

(** One round of the filter loop: compute [m] from an emptied map, then
    subtract it from, or intersect it with, the result. *)
Definition apply_filter (X : Producers) (pool : Pool) (res : Map) (f : Filter)
  : option Map :=
  match filter_dispatch X pool res f map_empty with
  | None => None
  | Some m =>
      if negb (Z.land (cmp_type f) HY_NOT =? 0)
      then Some (map_subtract res m)
      else Some (map_and res m)
  end.

Fixpoint apply_filters (X : Producers) (pool : Pool) (res : Map)
  (fs : list Filter) : option Map :=
  match fs with
  | [] => Some res
  | f :: fs' =>
      match apply_filter X pool res f with
      | None => None
      | Some res' => apply_filters X pool res' fs'
      end
  end.

(** [if (b) f (res);], unless an earlier step aborted. *)
Definition opt_step (b : bool) (f : Map -> option Map) (r : option Map)
  : option Map :=
  match r with
  | None => None
  | Some res => if b then f res else Some res
  end.

(** The modifiers, in the order of the source. *)
Definition apply_modifiers (pool : Pool) (q : HyQuery) (res : Map)
  : option Map :=
  let r := opt_step (downgradable q) (filter_updown_able pool true) (Some res) in
  let r := opt_step (downgrades q) (filter_updown pool true) r in
  let r := opt_step (updatable q) (filter_updown_able pool false) r in
  let r := opt_step (updates q) (filter_updown pool false) r in
  opt_step (latest q) (fun res => Some (filter_latest pool q res)) r.

(** [clear_filters]: the staged filters and all six modifiers go; the
    result and [applied] stay. *)
Definition clear_filters (q : HyQuery) : HyQuery :=
  mkQuery (flags q) (result q) (result_size q) [] (applied q) false false
          false false false false.

(** The query with the bits [res] in its result bitmap and [applied] set
    to [a]; the width of the bitmap stays. *)
Definition set_result (q : HyQuery) (res : Map) (a : bool) : HyQuery :=
  mkQuery (flags q) (Some res) (result_size q) (filters q) a (downgradable q)
          (downgrades q) (updatable q) (updates q) (latest q)
          (latest_per_arch q).

(** [if (!q->result) init_result (q)]: a query without result bitmap gets
    the initial one, as wide as [map_init] makes it for the pool. *)
Definition with_result (pool : Pool) (q : HyQuery) : HyQuery :=
  match result q with
  | Some _ => q
  | None =>
      mkQuery (flags q) (Some (init_result pool q))
              (map_size (nsolvables pool)) (filters q) (applied q)
              (downgradable q) (downgrades q) (updatable q) (updates q)
              (latest q) (latest_per_arch q)
  end.

Definition hy_query_apply (X : Producers) (pool : Pool) (q : HyQuery)
  : option HyQuery :=
  if applied q then Some q
  else
    let q := with_result pool q in
    (* map_init (&m, pool->nsolvables); assert (m.size == q->result->size) *)
    match result q, c_assert (map_size (nsolvables pool) =? result_size q) with
    | Some res0, Some _ =>
        match apply_filters X pool res0 (filters q) with
        | None => None
        | Some res1 =>
            match apply_modifiers pool q res1 with
            | None => None
            | Some res2 => Some (clear_filters (set_result q res2 true))
            end
        end
    | _, _ => None
    end.

(** ** Creating a query and staging filters. *)
Definition hy_query_create_flags (fl : Z) : HyQuery :=
  mkQuery fl None 0 [] false false false false false false false.

Definition hy_query_create : HyQuery := hy_query_create_flags 0.

(** [query_add_filter] followed by the field assignments of the caller. *)
Definition query_add_filter (q : HyQuery) (f : Filter) : HyQuery :=
  mkQuery (flags q) (result q) (result_size q) (filters q ++ [f]) (applied q)
          (downgradable q) (downgrades q) (updatable q) (updates q)
          (latest q) (latest_per_arch q).

Definition set_applied (q : HyQuery) (a : bool) : HyQuery :=
  mkQuery (flags q) (result q) (result_size q) (filters q) a (downgradable q)
          (downgrades q) (updatable q) (updates q) (latest q)
          (latest_per_arch q).

(** [hy_query_filter_empty] stages the filter and leaves [applied] as it
    is. *)
Definition hy_query_filter_empty (q : HyQuery) : HyQuery :=
  query_add_filter q (mkFilter HY_EQ HY_PKG_ALL _HY_NUM [MNum (-1)]).

Definition hy_query_filter_package_in (q : HyQuery) (k : Keyname) (cmp : Z)
  (pset : Map) : option DnfError * HyQuery :=
  if negb (valid_filter_pkg k cmp) then (Some DNF_ERROR_BAD_QUERY, q)
  else (None,
        query_add_filter (set_applied q false)
                         (mkFilter cmp k _HY_PKG [MPset pset])).

Definition hy_query_filter_latest_per_arch (q : HyQuery) (val : bool)
  : HyQuery :=
  mkQuery (flags q) (result q) (result_size q) (filters q) false
          (downgradable q) (downgrades q) (updatable q) (updates q) val true.

Definition hy_query_filter_latest (q : HyQuery) (val : bool) : HyQuery :=
  mkQuery (flags q) (result q) (result_size q) (filters q) false
          (downgradable q) (downgrades q) (updatable q) (updates q) val false.

(** ** Set algebra between queries.
    Both queries are applied, then the bitmap of the first is combined in
    place with that of the second; the pair returned is the two queries
    afterwards.  A query without result bitmap after [hy_query_apply] (only
    possible for a query cleared after it was applied) is a null
    dereference: [None]. *)
Definition combine (op : Map -> Map -> Map) (X : Producers) (pool : Pool)
  (q other : HyQuery) : option (HyQuery * HyQuery) :=
  match hy_query_apply X pool q, hy_query_apply X pool other with
  | Some q', Some other' =>
      match result q', result other' with
      | Some r, Some ro => Some (set_result q' (op r ro) (applied q'), other')
      | _, _ => None
      end
  | _, _ => None
  end.

Definition hy_query_union := combine map_or.
Definition hy_query_intersection := combine map_and.
Definition hy_query_difference := combine map_subtract.

(** [hy_query_run]: the ids of the result, ascending. *)
Definition hy_query_run (X : Producers) (pool : Pool) (q : HyQuery)
  : option (list Id * HyQuery) :=
  match hy_query_apply X pool q with
  | None => None
  | Some q' =>
      match result q' with
      | None => None
      | Some r =>
          Some (List.filter (fun i => MAPTST r i)
                            (id_range 1 (nsolvables pool)), q')
      end
  end.

(** ** The evaluation algorithm in the words of the specification.
    "[apply()] initializes the result to all package-kind solvables
    intersected with [considered] (unless [IGNORE_EXCLUDES]).  For each
    filter it computes a per-filter bitmap [m], then updates [result]:
    if [NOT] is set [result <- result - m], else [result <- result /\ m]". *)

Definition has_NOT (f : Filter) : bool := negb (Z.land (cmp_type f) HY_NOT =? 0).

(** Membership in the initial result, as the specification words it. *)
Definition spec_initial (pool : Pool) (q : HyQuery) (i : Id) : Prop :=
  In i (FOR_PKG_SOLVABLES pool) /\
  (Z.land (flags q) HY_IGNORE_EXCLUDES <> 0 \/
   match considered pool with
   | None => True
   | Some c => MAPTST c i = true
   end).

(** The filter rounds: [spec_rounds X pool r fs r'] when running the
    filters [fs] in order from the result [r] ends in [r'], each round
    removing the members of [m] (NOT set) or keeping only them. *)
Inductive spec_rounds (X : Producers) (pool : Pool)
  : Map -> list Filter -> Map -> Prop :=
| rounds_done r : spec_rounds X pool r [] r
| rounds_step r f fs m r' r'' :
    filter_dispatch X pool r f map_empty = Some m ->
    (forall i : Id, 0 <= i ->
       MAPTST r' i = if has_NOT f then MAPTST r i && negb (MAPTST m i)
                     else MAPTST r i && MAPTST m i) ->
    spec_rounds X pool r' fs r'' ->
    spec_rounds X pool r (f :: fs) r''.

(** The bitmap the filter loop of [hy_query_apply] starts from. *)
Definition starting_result (pool : Pool) (q : HyQuery) : Map :=
  match result q with
  | Some r => r
  | None => init_result pool q
  end.

(** The assertion of [hy_query_apply] holds: the result bitmap the filter
    loop starts from is as wide as a bitmap for the pool. *)
Definition width_asserted (pool : Pool) (q : HyQuery) : Prop :=
  result_size (with_result pool q) = map_size (nsolvables pool).

(** What [apply()] would leave in the result if it initialized the bitmap
    on every call. *)
Definition result_from_scratch (X : Producers) (pool : Pool) (q : HyQuery)
  : option Map :=
  match apply_filters X pool (init_result pool q) (filters q) with
  | None => None
  | Some r => apply_modifiers pool q r
  end.

(** The result bitmap of the first query after a set operation. *)
Definition result_of (o : option (HyQuery * HyQuery)) : option Map :=
  match o with
  | Some (q, _) => result q
  | None => None
  end.

(** Feeding the first query of a set operation into another one. *)
Definition and_then (o : option (HyQuery * HyQuery))
  (k : HyQuery -> option (HyQuery * HyQuery)) : option (HyQuery * HyQuery) :=
  match o with
  | Some (q, _) => k q
  | None => None
  end.

(** ** A small sack.
    Solvable 2 is foo-1, 3 is bar-1 and 4 is foo-2, all in repo 1; name
    ids: 10 is "foo", 11 is "bar"; an EVR id orders as its number. *)
Definition ex_cmp (a b : Id) : Z :=
  match a ?= b with
  | Lt => -1
  | Eq => 0
  | Gt => 1
  end.

Definition ex_str (i : Id) : string :=
  if i =? 10 then "foo"%string
  else if i =? 11 then "bar"%string
  else EmptyString.

Definition ex_pool : Pool :=
  mkPool [ null_solvable;
           mkSolvable 0 0 0 0 [] false;
           mkSolvable 10 1 1 1 [] true;
           mkSolvable 11 1 1 1 [] true;
           mkSolvable 10 1 2 1 [] true ]
         None None ex_str ex_cmp (fun _ => []) (fun _ => 0) (fun _ => 0).

(** No iterator-based producer is needed on the small sack. *)
Definition no_producer : Producer := fun _ _ _ _ => None.

Definition ex_producers : Producers :=
  mkProducers no_producer no_producer no_producer no_producer no_producer
              no_producer no_producer no_producer no_producer no_producer
              no_producer no_producer no_producer.

(** [{2, 3, 4}] and [{2}] as bitmaps. *)
Definition ex_all : Map := 28%N.
Definition ex_two : Map := 4%N.

(** A query that was narrowed to nothing, evaluated, and then given the
    filter "package in {2}". *)
Definition ex_restaged : option HyQuery :=
  match hy_query_apply ex_producers ex_pool
                       (hy_query_filter_empty hy_query_create) with
  | None => None
  | Some q1 => Some (snd (hy_query_filter_package_in q1 HY_PKG HY_EQ ex_two))
  end.

(** A query that was evaluated and then given [filter_empty()]. *)
Definition ex_emptied_late : option HyQuery :=
  match hy_query_apply ex_producers ex_pool hy_query_create with
  | None => None
  | Some q1 => Some (hy_query_filter_empty q1)
  end.

(** A query with the filters "package not in {3}" and "package in
    {2, 3, 4}" staged and the latest-per-arch modifier set. *)
Definition ex_staged : HyQuery :=
  hy_query_filter_latest_per_arch
    (snd (hy_query_filter_package_in
            (snd (hy_query_filter_package_in hy_query_create HY_PKG HY_NEQ 8%N))
            HY_PKG HY_EQ ex_all))
    true.

(** The filter staged by [hy_query_filter_empty]. *)
Definition empty_filter : Filter :=
  mkFilter HY_EQ HY_PKG_ALL _HY_NUM [MNum (-1)].

(** A query evaluated on the small sack whose result is [r]. *)
Definition ex_applied (r : Map) : HyQuery :=
  set_result (with_result ex_pool hy_query_create) r true.

(** The specification's sentence on [apply()], read for every query. *)
Definition apply_always_initializes : Prop :=
  forall (X : Producers) (pool : Pool) (q q' : HyQuery),
    hy_query_apply X pool q = Some q' ->
    result q' = result_from_scratch X pool q.

End Query.

(* ===================================================================== *)
(** * Packages and error codes *)
(* ===================================================================== *)

Module Package.
Import Solv.

(** The error codes of [hif-types.h] that the modelled code raises. *)
Inductive HifError :=
| HIF_ERROR_FAILED
| HIF_ERROR_INTERNAL_ERROR
| HIF_ERROR_NO_SOLUTION
| HIF_ERROR_REMOVAL_OF_PROTECTED_PKG
| HIF_ERROR_BAD_SELECTOR
| HIF_ERROR_INVALID_ARCHITECTURE
| HIF_ERROR_PACKAGE_NOT_FOUND
| HIF_ERROR_FAILED_CONFIG_PARSING
| HIF_ERROR_NO_SPACE
| HIF_ERROR_FILE_INVALID.

(** A C [int] status: 0, the literal 1, or an error code. *)
Inductive Status := Rc0 | Rc1 | RcErr (e : HifError).

Inductive HifPackageInfo :=
| HIF_PACKAGE_INFO_UNKNOWN | HIF_PACKAGE_INFO_UPDATE
| HIF_PACKAGE_INFO_INSTALL | HIF_PACKAGE_INFO_REMOVE
| HIF_PACKAGE_INFO_OBSOLETE | HIF_PACKAGE_INFO_REINSTALL
| HIF_PACKAGE_INFO_DOWNGRADE.

Inductive HifStateAction :=
| HIF_STATE_ACTION_UNKNOWN | HIF_STATE_ACTION_REMOVE
| HIF_STATE_ACTION_UPDATE | HIF_STATE_ACTION_INSTALL
| HIF_STATE_ACTION_CLEANUP | HIF_STATE_ACTION_OBSOLETE
| HIF_STATE_ACTION_REINSTALL | HIF_STATE_ACTION_DOWNGRADE.

Definition action_eqb (a b : HifStateAction) : bool :=
  match a, b with
  | HIF_STATE_ACTION_UNKNOWN, HIF_STATE_ACTION_UNKNOWN
  | HIF_STATE_ACTION_REMOVE, HIF_STATE_ACTION_REMOVE
  | HIF_STATE_ACTION_UPDATE, HIF_STATE_ACTION_UPDATE
  | HIF_STATE_ACTION_INSTALL, HIF_STATE_ACTION_INSTALL
  | HIF_STATE_ACTION_CLEANUP, HIF_STATE_ACTION_CLEANUP
  | HIF_STATE_ACTION_OBSOLETE, HIF_STATE_ACTION_OBSOLETE
  | HIF_STATE_ACTION_REINSTALL, HIF_STATE_ACTION_REINSTALL
  | HIF_STATE_ACTION_DOWNGRADE, HIF_STATE_ACTION_DOWNGRADE => true
  | _, _ => false
  end.

(** A [HifPackage]: the solvable id and the part of [HifPackagePrivate]
    the modelled code reads and writes. *)
Record HifPackage := mkPackage {
  pkg_id : Id;
  pkg_info : HifPackageInfo;
  pkg_action : HifStateAction
}.

Definition hif_package_new (id : Id) : HifPackage :=
  mkPackage id HIF_PACKAGE_INFO_UNKNOWN HIF_STATE_ACTION_UNKNOWN.

Definition hif_package_get_id (pkg : HifPackage) : Id := pkg_id pkg.

Definition hif_package_get_action (pkg : HifPackage) : HifStateAction :=
  pkg_action pkg.

Definition hif_package_set_action (pkg : HifPackage) (a : HifStateAction)
  : HifPackage :=
  mkPackage (pkg_id pkg) (pkg_info pkg) a.

Definition hif_package_get_name (pool : Pool) (pkg : HifPackage) : string :=
  pool_id2str pool (s_name (pool_id2solvable pool (pkg_id pkg))).

End Package.

(* ===================================================================== *)
(** * hy-goal.c *)
(* ===================================================================== *)

Module Goal.
Import Solv Query Package.

(** libsolv job words ([solv/solver.h]). *)
Definition SOLVER_SOLVABLE : Z := 0x01.
Definition SOLVER_SOLVABLE_NAME : Z := 0x02.
Definition SOLVER_SOLVABLE_PROVIDES : Z := 0x03.
Definition SOLVER_SOLVABLE_REPO : Z := 0x05.
Definition SOLVER_SOLVABLE_ALL : Z := 0x06.
Definition SOLVER_SELECTMASK : Z := 0xff.
Definition SOLVER_INSTALL : Z := 0x0100.
Definition SOLVER_ERASE : Z := 0x0200.
Definition SOLVER_UPDATE : Z := 0x0300.
Definition SOLVER_MULTIVERSION : Z := 0x0500.
Definition SOLVER_DISTUPGRADE : Z := 0x0700.
Definition SOLVER_VERIFY : Z := 0x0800.
Definition SOLVER_USERINSTALLED : Z := 0x0a00.
Definition SOLVER_ALLOWUNINSTALL : Z := 0x0b00.
Definition SOLVER_WEAK : Z := 0x010000.
Definition SOLVER_CLEANDEPS : Z := 0x040000.
Definition SOLVER_FORCEBEST : Z := 0x100000.
Definition SOLVER_SETEV : Z := 0x01000000.
Definition SOLVER_SETEVR : Z := 0x02000000.
Definition SOLVER_SETARCH : Z := 0x04000000.
Definition SOLVER_SETREPO : Z := 0x10000000.

(** libsolv known ids ([solv/knownid.h]) and relation flags. *)
Definition SOLVABLE_NAME : Z := 2.
Definition SOLVABLE_PROVIDES : Z := 6.
Definition REL_EQ : Z := 2.
Definition REL_ARCH : Z := 20.

(** libsolv selection flags ([solv/selection.h]). *)
Definition SELECTION_FILELIST : Z := Z.shiftl 1 4.
Definition SELECTION_GLOB : Z := Z.shiftl 1 9.
Definition SELECTION_NOCASE : Z := Z.shiftl 1 11.

(** libsolv transaction step types and modes ([solv/transaction.h]). *)
Definition SOLVER_TRANSACTION_ERASE : Z := 0x10.
Definition SOLVER_TRANSACTION_OBSOLETED : Z := 0x15.
Definition SOLVER_TRANSACTION_INSTALL : Z := 0x20.
Definition SOLVER_TRANSACTION_REINSTALL : Z := 0x21.
Definition SOLVER_TRANSACTION_DOWNGRADE : Z := 0x22.
Definition SOLVER_TRANSACTION_UPGRADE : Z := 0x24.
Definition SOLVER_TRANSACTION_OBSOLETES : Z := 0x25.
Definition SOLVER_TRANSACTION_SHOW_ACTIVE : Z := Z.shiftl 1 0.
Definition SOLVER_TRANSACTION_SHOW_ALL : Z := Z.shiftl 1 1.
Definition SOLVER_TRANSACTION_SHOW_OBSOLETES : Z := Z.shiftl 1 2.
Definition SOLVER_TRANSACTION_CHANGE_IS_REINSTALL : Z := Z.shiftl 1 4.

(** libsolv solver flags ([solv/solver.h]). *)
Definition SOLVER_FLAG_ALLOW_VENDORCHANGE : Z := 4.
Definition SOLVER_FLAG_IGNORE_RECOMMENDED : Z := 7.
Definition SOLVER_FLAG_KEEP_ORPHANS : Z := 12.
Definition SOLVER_FLAG_BEST_OBEY_POLICY : Z := 11.
Definition SOLVER_FLAG_YUM_OBSOLETES : Z := 13.

(** Modelled from the spec: the goal action and run flags of [hy-goal.h]
    (the header is not part of the sources at hand): "an actions bitmask
    recording what kinds of operations have been staged", and the run flags
    ALLOW_UNINSTALL, FORCE_BEST, VERIFY, IGNORE_WEAK_DEPS. *)
Definition HIF_ERASE : Z := Z.shiftl 1 0.
Definition HIF_DISTUPGRADE : Z := Z.shiftl 1 1.
Definition HIF_DISTUPGRADE_ALL : Z := Z.shiftl 1 2.
Definition HIF_DOWNGRADE : Z := Z.shiftl 1 3.
Definition HIF_INSTALL : Z := Z.shiftl 1 4.
Definition HIF_UPGRADE : Z := Z.shiftl 1 5.
Definition HIF_UPGRADE_ALL : Z := Z.shiftl 1 6.
Definition HIF_ALLOW_UNINSTALL : Z := Z.shiftl 1 10.
Definition HIF_FORCE_BEST : Z := Z.shiftl 1 11.
Definition HIF_VERIFY : Z := Z.shiftl 1 12.
Definition HIF_IGNORE_WEAK_DEPS : Z := Z.shiftl 1 13.
Definition HY_CLEAN_DEPS : Z := Z.shiftl 1 1.

Definition has_flag (flags bit : Z) : bool := negb (Z.land flags bit =? 0).

(** ** The solver, seen from the goal. *)
Record Transaction := mkTransaction {
  steps : list Id;                       (* trans->steps *)
  transaction_type : Id -> Z -> Z;       (* transaction_type (trans, p, mode) *)
  transaction_all_obs_pkgs : Id -> list Id
}.

(** What one run of [solver_solve] leaves in the solver. *)
Record Solution := mkSolution {
  problem_count : Z;                     (* solver_problem_count *)
  problem_str : Z -> string;             (* findproblemrule .. ruleinfo2str *)
  decisionlevel : Id -> Z;               (* solver_get_decisionlevel *)
  created_transaction : Transaction      (* solver_create_transaction *)
}.

(** The SAT solver itself: from the flags set and the job to a solution. *)
Definition SatSolver := list (Z * Z) -> Queue -> Solution.

Record Solver := mkSolver {
  solver_flags : list (Z * Z);           (* solver_set_flag, in order *)
  solution : option Solution;            (* None: not solved yet *)
  solve_log : list Queue                 (* the jobs given to solver_solve *)
}.

Definition solver_create : Solver := mkSolver [] None [].

Definition solver_set_flag (s : Solver) (flag v : Z) : Solver :=
  mkSolver (solver_flags s ++ [(flag, v)]) (solution s) (solve_log s).

Definition solver_solve (sat : SatSolver) (s : Solver) (job : Queue)
  : Z * Solver :=
  let sol := sat (solver_flags s) job in
  (problem_count sol,
   mkSolver (solver_flags s) (Some sol) (solve_log s ++ [job])).

Definition empty_transaction : Transaction :=
  mkTransaction [] (fun _ _ => 0) (fun _ => []).

Definition unsolved : Solution :=
  mkSolution 0 (fun _ => EmptyString) (fun _ => 0) empty_transaction.

Definition the_solution (s : Solver) : Solution :=
  match solution s with
  | Some sol => sol
  | None => unsolved
  end.

Definition solver_problem_count (s : Solver) : Z := problem_count (the_solution s).

Definition solver_get_decisionlevel (s : Solver) (p : Id) : Z :=
  decisionlevel (the_solution s) p.

Definition solver_create_transaction (s : Solver) : Transaction :=
  created_transaction (the_solution s).

(** ** The sack, seen from the goal. *)
Record HifSack := mkSack {
  hif_sack_get_pool : Pool;
  hif_sack_get_installonly : Queue;
  hif_sack_get_installonly_limit : Z;
  hif_sack_running_kernel : Id           (* a negative id: none *)
}.

Record HyGoal := mkGoal {
  staging : Queue;
  protected : option Map;                    (* NULL until set *)
  solv : option Solver;
  trans : option Transaction;
  removal_of_protected : option (list HifPackage);  (* None: freed *)
  actions : Z
}.

Definition hy_goal_create : HyGoal := mkGoal [] None None None (Some []) 0.

Definition erase_flags2libsolv (flags : Z) : Z :=
  if has_flag flags HY_CLEAN_DEPS then Z.lor 0 SOLVER_CLEANDEPS else 0.

(** ** list_results *)
Inductive Outcome (A : Type) :=
| Ok (a : A)
| Error (e : HifError) (msg : string).
Arguments Ok {A} a.
Arguments Error {A} e msg.

Definition list_results (goal : HyGoal) (type_filter1 type_filter2 : Id)
  : Outcome (list HifPackage) :=
  match trans goal with
  | None =>
      match solv goal with
      | None => Error HIF_ERROR_INTERNAL_ERROR "no solv in the goal"
      | Some _ =>
          if negb (length (default [] (removal_of_protected goal)) =? 0)%nat
          then Error HIF_ERROR_REMOVAL_OF_PROTECTED_PKG
                     "no solution, cannot remove protected package"
          else Error HIF_ERROR_NO_SOLUTION "no solution possible"
      end
  | Some t =>
      let common_mode := Z.lor SOLVER_TRANSACTION_SHOW_OBSOLETES
                               SOLVER_TRANSACTION_CHANGE_IS_REINSTALL in
      let mode :=
        if type_filter1 =? SOLVER_TRANSACTION_OBSOLETED then common_mode
        else Z.lor (Z.lor common_mode SOLVER_TRANSACTION_SHOW_ACTIVE)
                   SOLVER_TRANSACTION_SHOW_ALL in
      Ok (List.map hif_package_new
            (List.filter
               (fun p => let type := transaction_type t p mode in
                         (type =? type_filter1)
                         || (negb (type_filter2 =? 0) && (type =? type_filter2)))
               (steps t)))
  end.

Definition hy_goal_list_erasures (goal : HyGoal) :=
  list_results goal SOLVER_TRANSACTION_ERASE 0.
Definition hy_goal_list_installs (goal : HyGoal) :=
  list_results goal SOLVER_TRANSACTION_INSTALL SOLVER_TRANSACTION_OBSOLETES.
Definition hy_goal_list_obsoleted (goal : HyGoal) :=
  list_results goal SOLVER_TRANSACTION_OBSOLETED 0.
Definition hy_goal_list_reinstalls (goal : HyGoal) :=
  list_results goal SOLVER_TRANSACTION_REINSTALL 0.
Definition hy_goal_list_upgrades (goal : HyGoal) :=
  list_results goal SOLVER_TRANSACTION_UPGRADE 0.
Definition hy_goal_list_downgrades (goal : HyGoal) :=
  list_results goal SOLVER_TRANSACTION_DOWNGRADE 0.

(** [hy_goal_list_obsoleted_by_package]; [assert(trans)]. *)
Definition hy_goal_list_obsoleted_by_package (goal : HyGoal) (pkg : HifPackage)
  : option (list HifPackage) :=
  match trans goal with
  | None => None
  | Some t =>
      Some (List.map hif_package_new
                     (transaction_all_obs_pkgs t (hif_package_get_id pkg)))
  end.

(** Modelled from the spec: [hif_goal_get_packages] (hif-goal.c is not part
    of the sources at hand).  "Walk the transaction's removals/obsoletes":
    for each requested kind, in the order of the arguments, the packages of
    the matching [hy_goal_list_*] accessor, labelled with the kind and its
    action.  A listing that fails leaves a null list behind: [None]. *)
Definition listing_of (goal : HyGoal) (info : HifPackageInfo)
  : Outcome (list HifPackage) * HifStateAction :=
  match info with
  | HIF_PACKAGE_INFO_REMOVE => (hy_goal_list_erasures goal, HIF_STATE_ACTION_REMOVE)
  | HIF_PACKAGE_INFO_INSTALL => (hy_goal_list_installs goal, HIF_STATE_ACTION_INSTALL)
  | HIF_PACKAGE_INFO_OBSOLETE => (hy_goal_list_obsoleted goal, HIF_STATE_ACTION_OBSOLETE)
  | HIF_PACKAGE_INFO_REINSTALL => (hy_goal_list_reinstalls goal, HIF_STATE_ACTION_REINSTALL)
  | HIF_PACKAGE_INFO_UPDATE => (hy_goal_list_upgrades goal, HIF_STATE_ACTION_UPDATE)
  | HIF_PACKAGE_INFO_DOWNGRADE => (hy_goal_list_downgrades goal, HIF_STATE_ACTION_DOWNGRADE)
  | HIF_PACKAGE_INFO_UNKNOWN => (Error HIF_ERROR_INTERNAL_ERROR EmptyString, HIF_STATE_ACTION_UNKNOWN)
  end.

Fixpoint hif_goal_get_packages (goal : HyGoal) (infos : list HifPackageInfo)
  : option (list HifPackage) :=
  match infos with
  | [] => Some []
  | info :: rest =>
      match listing_of goal info, hif_goal_get_packages goal rest with
      | (Ok l, a), Some more =>
          Some (List.map (fun pkg => mkPackage (pkg_id pkg) info a) l ++ more)
      | _, _ => None
      end
  end.

(** ** Protected packages in the removals.
    The array is freed first, and stays freed when there is no protected
    map; otherwise it is rebuilt from the removed and obsoleted packages and
    every package outside the protected map is taken out again. *)
Definition protected_in_removals (goal : HyGoal) : option (bool * HyGoal) :=
  match protected goal with
  | None =>
      Some (false, mkGoal (staging goal) None (solv goal) (trans goal) None
                          (actions goal))
  | Some prot =>
      match hif_goal_get_packages goal
              [HIF_PACKAGE_INFO_REMOVE; HIF_PACKAGE_INFO_OBSOLETE] with
      | None => None
      | Some pkgs =>
          let kept := List.filter
                        (fun pkg => MAPTST prot (hif_package_get_id pkg)) pkgs in
          Some (negb (length kept =? 0)%nat,
                mkGoal (staging goal) (protected goal) (solv goal) (trans goal)
                       (Some kept) (actions goal))
      end
  end.

(** ** Install-only limit. *)

(** The [while] of [same_name_subqueue], on the queue read from its end:
    [rin] is the input queue reversed. *)
Fixpoint pop_same_name (pool : Pool) (name : Id) (rin : list Id) (out : Queue)
  : list Id * Queue :=
  match rin with
  | x :: rin' =>
      if s_name (pool_id2solvable pool x) =? name
      then pop_same_name pool name rin' (queue_push out x)
      else (rin, out)
  | [] => ([], out)
  end.

(** Returns the remaining input queue and the output queue. *)
Definition same_name_subqueue (pool : Pool) (inq : Queue) : Queue * Queue :=
  let (el, in1) := queue_pop inq in
  let name := s_name (pool_id2solvable pool el) in
  let (rin, out) := pop_same_name pool name (rev in1) (queue_push [] el) in
  (rev rin, out).

Definition can_depend_on (pool : Pool) (sa : Solvable) (b : Id) : bool :=
  existsb (fun req_dep => existsb (fun p => p =? b) (whatprovides pool req_dep))
          (s_requires sa).

Definition sort_packages (pool : Pool) (kernel : Id) (a b : Id) : Z :=
  let sa := pool_id2solvable pool a in
  let sb := pool_id2solvable pool b in
  let name_diff := s_name sa - s_name sb in
  if negb (name_diff =? 0) then name_diff
  else if (0 <=? kernel) && ((a =? kernel) || can_depend_on pool sa kernel)
  then 1
  else if (0 <=? kernel) && ((b =? kernel) || can_depend_on pool sb kernel)
  then -1
  else pool_evrcmp pool (s_evr sa) (s_evr sb).

(** The [for (j ...)] over one subqueue, from index [j] on. *)
Fixpoint push_limit_jobs (limit : Z) (j : Z) (same_names : list Id)
  (job : Queue) : Queue :=
  match same_names with
  | [] => job
  | id :: rest =>
      let action := if j <? limit then SOLVER_INSTALL else SOLVER_ERASE in
      push_limit_jobs limit (j + 1) rest
                      (queue_push2 job (Z.lor action SOLVER_SOLVABLE) id)
  end.

(** The [while (q.count > 0)] loop; every round takes at least one element
    off [q], so [length q] rounds are enough ([None]: out of fuel). *)
Fixpoint subqueue_loop (fuel : nat) (pool : Pool) (limit : Z) (q : Queue)
  (job : Queue) (reresolve : bool) : option (Queue * bool) :=
  match q with
  | [] => Some (job, reresolve)
  | _ :: _ =>
      match fuel with
      | O => None
      | S fuel' =>
          let (q', same_names) := same_name_subqueue pool q in
          if Z.of_nat (length same_names) <=? limit
          then subqueue_loop fuel' pool limit q' job reresolve
          else subqueue_loop fuel' pool limit q'
                             (push_limit_jobs limit 0 same_names job) true
      end
  end.

(** The body of the [for] over the install-only names, for one name. *)
Definition limit_one_name (sack : HifSack) (solv : Solver)
  (acc : option (Queue * bool)) (name : Id) : option (Queue * bool) :=
  match acc with
  | None => None
  | Some (job, reresolve) =>
      let pool := hif_sack_get_pool sack in
      let q := List.filter (fun p => 0 <? solver_get_decisionlevel solv p)
                           (FOR_PKG_PROVIDES pool name) in
      if Z.of_nat (length q) <=? hif_sack_get_installonly_limit sack
      then Some (job, reresolve)
      else
        let sorted := solv_sort (sort_packages pool (hif_sack_running_kernel sack)) q in
        subqueue_loop (length sorted) pool (hif_sack_get_installonly_limit sack)
                      sorted job reresolve
  end.

Definition limit_installonly_packages (sack : HifSack) (solv : Solver)
  (job : Queue) : option (Queue * bool) :=
  if hif_sack_get_installonly_limit sack =? 0 then Some (job, false)
  else fold_left (limit_one_name sack solv) (hif_sack_get_installonly sack)
                 (Some (job, false)).

(** ** Solving. *)
Definition init_solver (goal : HyGoal) : Solver * HyGoal :=
  let solv := solver_create in
  let solv := solver_set_flag solv SOLVER_FLAG_ALLOW_VENDORCHANGE 1 in
  let solv := solver_set_flag solv SOLVER_FLAG_KEEP_ORPHANS 1 in
  let solv := solver_set_flag solv SOLVER_FLAG_BEST_OBEY_POLICY 1 in
  let solv := solver_set_flag solv SOLVER_FLAG_YUM_OBSOLETES 1 in
  (solv, mkGoal (staging goal) (protected goal) (Some solv) (trans goal)
                (removal_of_protected goal) (actions goal)).

(** [pool->installed == s->repo], a comparison of two pointers either of
    which may be null. *)
Definition in_installed_repo (pool : Pool) (s : Solvable) : bool :=
  match installed pool with
  | Some r => s_repo s =? r
  | None => s_repo s =? 0
  end.

Definition allow_uninstall_all_but_protected (sack : HifSack) (goal : HyGoal)
  (job : Queue) (flags : Z) : HyGoal * Queue :=
  let pool := hif_sack_get_pool sack in
  let prot := match protected goal with
              | None => map_empty       (* map_init *)
              | Some m => m             (* map_grow *)
              end in
  let kernel := hif_sack_running_kernel sack in
  let prot := if 0 <? kernel then MAPSET prot kernel else prot in
  let job :=
    if has_flag HIF_ALLOW_UNINSTALL flags
    then fold_left
           (fun job id =>
              if in_installed_repo pool (pool_id2solvable pool id)
                 && negb (MAPTST prot id)
              then queue_push2 job (Z.lor SOLVER_ALLOWUNINSTALL SOLVER_SOLVABLE) id
              else job)
           (id_range 1 (nsolvables pool)) job
    else job in
  (mkGoal (staging goal) (Some prot) (solv goal) (trans goal)
          (removal_of_protected goal) (actions goal), job).

Definition set_solv (goal : HyGoal) (s : Solver) : HyGoal :=
  mkGoal (staging goal) (protected goal) (Some s) (trans goal)
         (removal_of_protected goal) (actions goal).

Definition set_trans (goal : HyGoal) (t : option Transaction) : HyGoal :=
  mkGoal (staging goal) (protected goal) (solv goal) t
         (removal_of_protected goal) (actions goal).

(** [solve]; [user_cb] tells whether a solution callback was given.  The
    result is the return value and the goal afterwards. *)
Definition solve (sat : SatSolver) (sack : HifSack) (goal : HyGoal)
  (job : Queue) (flags : Z) (user_cb : bool) : option (Z * HyGoal) :=
  let goal := set_trans goal None in
  let (sv, goal) := init_solver goal in
  let sv := if has_flag HIF_IGNORE_WEAK_DEPS flags
            then solver_set_flag sv SOLVER_FLAG_IGNORE_RECOMMENDED 1
            else sv in
  let (rc, sv) := solver_solve sat sv job in
  let goal := set_solv goal sv in
  if negb (rc =? 0) then Some (1, goal)
  else
    let after_limit :=
      if user_cb then Some (false, goal)
      else
        match limit_installonly_packages sack sv job with
        | None => None
        | Some (job, false) => Some (false, goal)
        | Some (job, true) =>
            let (goal, job) :=
              allow_uninstall_all_but_protected sack goal job HIF_ALLOW_UNINSTALL in
            let (rc, sv) := solver_solve sat sv job in
            Some (negb (rc =? 0), set_solv goal sv)
        end in
    match after_limit with
    | None => None
    | Some (true, goal) => Some (1, goal)
    | Some (false, goal) =>
        let goal :=
          set_trans goal
            (option_map solver_create_transaction (solv goal)) in
        match protected_in_removals goal with
        | None => None
        | Some (true, goal) => Some (1, goal)
        | Some (false, goal) => Some (0, goal)
        end
    end.

(** [elements[i] |= bits] for every even [i]. *)
Fixpoint or_into_flags (bits : Z) (job : Queue) : Queue :=
  match job with
  | how :: what :: rest => Z.lor how bits :: what :: or_into_flags bits rest
  | _ => job
  end.

Definition construct_job (sack : HifSack) (goal : HyGoal) (flags : Z)
  : HyGoal * Queue :=
  let job := staging goal in
  let job := if has_flag flags HIF_FORCE_BEST
             then or_into_flags SOLVER_FORCEBEST job else job in
  let job := fold_left
               (fun job name =>
                  queue_push2 job (Z.lor SOLVER_MULTIVERSION SOLVER_SOLVABLE_PROVIDES)
                              name)
               (hif_sack_get_installonly sack) job in
  let (goal, job) := allow_uninstall_all_but_protected sack goal job flags in
  let job := if has_flag flags HIF_VERIFY
             then queue_push2 job (Z.lor SOLVER_VERIFY SOLVER_SOLVABLE_ALL) 0
             else job in
  (goal, job).

Definition set_actions (goal : HyGoal) (a : Z) : HyGoal :=
  mkGoal (staging goal) (protected goal) (solv goal) (trans goal)
         (removal_of_protected goal) a.

Definition hy_goal_run_all_flags (sat : SatSolver) (sack : HifSack)
  (goal : HyGoal) (user_cb : bool) (flags : Z) : option (Z * HyGoal) :=
  let (goal, job) := construct_job sack goal flags in
  let goal := set_actions goal (Z.lor (actions goal) flags) in
  solve sat sack goal job flags user_cb.

Definition hy_goal_run_flags (sat : SatSolver) (sack : HifSack) (goal : HyGoal)
  (flags : Z) : option (Z * HyGoal) :=
  hy_goal_run_all_flags sat sack goal false flags.

Definition hy_goal_run (sat : SatSolver) (sack : HifSack) (goal : HyGoal)
  : option (Z * HyGoal) :=
  hy_goal_run_flags sat sack goal 0.

(** ** Problems. *)

(** [assert(goal->solv)]; a freed array is not to be read. *)
Definition hy_goal_count_problems (goal : HyGoal) : option Z :=
  match solv goal, removal_of_protected goal with
  | Some s, Some rp =>
      Some (solver_problem_count s + Z.min 1 (Z.of_nat (length rp)))
  | _, _ => None
  end.

(** The loop over [j] of [hy_goal_describe_problem], from [j] on, with
    [todo] rounds to go; the array is indexed with the problem index [i].
    [None]: a read past the end of the array. *)
Fixpoint describe_protected (pool : Pool) (rp : list HifPackage) (i : nat)
  (j : nat) (todo : nat) (str : string) : option string :=
  match todo with
  | O => Some str
  | S todo' =>
      match nth_error rp i with
      | None => None
      | Some pkg =>
          let name := hif_package_get_name pool pkg in
          let str := if (j =? 0)%nat then (str ++ name)%string
                     else (str ++ ", " ++ name)%string in
          describe_protected pool rp i (S j) todo' str
      end
  end.

(** The inner [Some s] is the string returned, the inner [None] the null
    pointer returned for an index out of range. *)
Definition hy_goal_describe_problem (pool : Pool) (goal : HyGoal) (i : nat)
  : option (option string) :=
  match hy_goal_count_problems goal, solv goal, removal_of_protected goal with
  | Some n, Some s, Some rp =>
      if n <=? Z.of_nat i then Some None
      else if solver_problem_count s <=? Z.of_nat i
      then
        match describe_protected pool rp i 0 (length rp)
                "The operation would result in removing the following protected packages: " with
        | None => None
        | Some str => Some (Some str)
        end
      else Some (Some (problem_str (the_solution s) (Z.of_nat i + 1)))
  | _, _, _ => None
  end.

(** ** Selectors and their translation into jobs. *)
Record HySelector := mkSelector {
  f_arch : option Filter;
  f_evr : option Filter;
  f_file : option Filter;
  f_name : option Filter;
  f_provides : option Filter;
  f_reponame : option Filter
}.

(** What [sltr2job] asks of libsolv: string interning, the data iterator
    over names and provides, selections and relations. *)
Record SelectionLib := mkSelectionLib {
  pool_str2id : string -> bool -> Id;            (* (str, create) *)
  glob_names : string -> list (Id * Id);         (* (solvid, *di.idp) *)
  glob_provides : string -> list (Id * Id);
  selection_make : Queue -> string -> Z -> Queue * Z;
  selection_filter : Queue -> Queue -> Queue;
  str2archid : string -> Id;
  pool_rel2id : Id -> Id -> Z -> Id;
  repos : list (string * Id)                     (* FOR_REPOS: name, repoid *)
}.

Definition job_has (job : Queue) (what id : Id) : bool :=
  (fix go (l : list Id) : bool :=
     match l with
     | how :: w :: rest => ((how =? what) && (w =? id)) || go rest
     | _ => false
     end) job.

(** The single string match of a selector filter. *)
Definition the_str (f : Filter) : option string :=
  match matches f with
  | [MStr str] => Some str
  | _ => None
  end.

(** Rewrites every job element [(how, what)] into
    [(how | bits, rel (what))]; [assert]s that each one selects by name. *)
Fixpoint constrain_jobs (bits : Z) (rel : Id -> Id) (job : Queue)
  : option Queue :=
  match job with
  | [] => Some []
  | how :: what :: rest =>
      if Z.land how SOLVER_SELECTMASK =? SOLVER_SOLVABLE_NAME
      then match constrain_jobs bits rel rest with
           | Some rest' => Some (Z.lor how bits :: rel what :: rest')
           | None => None
           end
      else None
  | [_] => None
  end.

Definition filter_arch2job (L : SelectionLib) (f : option Filter) (job : Queue)
  : option (Status * Queue) :=
  match f with
  | None => Some (Rc0, job)
  | Some f =>
      match c_assert (cmp_type f =? HY_EQ), the_str f with
      | Some _, Some arch =>
          let archid := str2archid L arch in
          if archid =? 0 then Some (RcErr HIF_ERROR_INVALID_ARCHITECTURE, job)
          else match constrain_jobs SOLVER_SETARCH
                       (fun what => pool_rel2id L what archid REL_ARCH) job with
               | Some job' => Some (Rc0, job')
               | None => None
               end
      | _, _ => None
      end
  end.

Definition filter_evr2job (L : SelectionLib) (f : option Filter) (job : Queue)
  : option (Status * Queue) :=
  match f with
  | None => Some (Rc0, job)
  | Some f =>
      match c_assert (cmp_type f =? HY_EQ), the_str f with
      | Some _, Some str =>
          let evr := pool_str2id L str true in
          let constr := match keyname f with
                        | HY_PKG_VERSION => SOLVER_SETEV
                        | _ => SOLVER_SETEVR
                        end in
          match constrain_jobs constr
                  (fun what => pool_rel2id L what evr REL_EQ) job with
          | Some job' => Some (Rc0, job')
          | None => None
          end
      | _, _ => None
      end
  end.

Definition filter_file2job (L : SelectionLib) (f : option Filter) (job : Queue)
  : option (Status * Queue) :=
  match f with
  | None => Some (Rc0, job)
  | Some f =>
      match the_str f with
      | None => None
      | Some file =>
          let flags := if has_flag (cmp_type f) HY_GLOB then SELECTION_GLOB else 0 in
          let flags := if has_flag (cmp_type f) HY_GLOB
                       then Z.lor flags SELECTION_NOCASE else flags in
          let (job', n) := selection_make L job file (Z.lor flags SELECTION_FILELIST) in
          if n =? 0 then Some (Rc1, job') else Some (Rc0, job')
      end
  end.

Definition filter_name2job (L : SelectionLib) (pool : Pool) (f : option Filter)
  (job : Queue) : option (Status * Queue) :=
  match f with
  | None => Some (Rc0, job)
  | Some f =>
      match the_str f with
      | None => None
      | Some name =>
          if cmp_type f =? HY_EQ then
            let id := pool_str2id L name false in
            Some (Rc0, if negb (id =? 0)
                       then queue_push2 job SOLVER_SOLVABLE_NAME id else job)
          else if cmp_type f =? HY_GLOB then
            Some (Rc0,
                  fold_left
                    (fun job hit =>
                       if negb (is_package pool (pool_id2solvable pool (fst hit)))
                       then job
                       else if job_has job SOLVABLE_NAME (snd hit) then job
                       else queue_push2 job SOLVER_SOLVABLE_NAME (snd hit))
                    (glob_names L name) job)
          else None                                  (* assert(0) *)
      end
  end.

Definition filter_provides2job (L : SelectionLib) (pool : Pool)
  (f : option Filter) (job : Queue) : option (Status * Queue) :=
  match f with
  | None => Some (Rc0, job)
  | Some f =>
      match matches f with
      | [m0] =>
          if cmp_type f =? HY_EQ then
            match m0 with
            | MReldep id => Some (Rc0, queue_push2 job SOLVER_SOLVABLE_PROVIDES id)
            | _ => None
            end
          else if cmp_type f =? HY_GLOB then
            match m0 with
            | MStr name =>
                match List.find
                        (fun hit => is_package pool (pool_id2solvable pool (fst hit)))
                        (glob_provides L name) with
                | None => None                       (* assert(di.idp) *)
                | Some hit =>
                    Some (Rc0,
                          if negb (job_has job SOLVABLE_PROVIDES (snd hit))
                          then queue_push2 job SOLVER_SOLVABLE_PROVIDES (snd hit)
                          else job)
                end
            | _ => None
            end
          else None                                  (* assert(0) *)
      | _ => None
      end
  end.

Definition filter_reponame2job (L : SelectionLib) (f : option Filter)
  (job : Queue) : option (Status * Queue) :=
  match f with
  | None => Some (Rc0, job)
  | Some f =>
      match c_assert (cmp_type f =? HY_EQ), the_str f with
      | Some _, Some name =>
          let repo_sel :=
            fold_left
              (fun sel r =>
                 if String.eqb name (fst r)
                 then queue_push2 sel (Z.lor SOLVER_SOLVABLE_REPO SOLVER_SETREPO)
                                  (snd r)
                 else sel)
              (repos L) [] in
          Some (Rc0, selection_filter L job repo_sel)
      | _, _ => None
      end
  end.

Definition is_set (f : option Filter) : bool :=
  match f with
  | Some _ => true
  | None => false
  end.

(** The final loop of [sltr2job]: every selector job, with the solver
    action or-ed in, goes onto [job]. *)
Fixpoint push_with_action (solver_action : Z) (job_sltr job : Queue) : Queue :=
  match job_sltr with
  | how :: what :: rest =>
      push_with_action solver_action rest
                       (queue_push2 job (Z.lor how solver_action) what)
  | _ => job
  end.

(** One [ret = filter_..2job (..); if (ret) goto finish;] step. *)
Definition and_next (r : option (Status * Queue))
  (k : Queue -> option (Status * Queue)) : option (Status * Queue) :=
  match r with
  | Some (Rc0, job_sltr) => k job_sltr
  | other => other
  end.

(** [sltr2job]: the status returned and the job queue afterwards. *)
Definition sltr2job (L : SelectionLib) (pool : Pool) (sltr : HySelector)
  (job : Queue) (solver_action : Z) : option (Status * Queue) :=
  let any_opt_filter :=
    is_set (f_arch sltr) || is_set (f_evr sltr) || is_set (f_reponame sltr) in
  let any_req_filter :=
    is_set (f_name sltr) || is_set (f_provides sltr) || is_set (f_file sltr) in
  if negb any_req_filter then
    (* no name or provides or file in the selector is an error *)
    Some (if any_opt_filter then RcErr HIF_ERROR_BAD_SELECTOR else Rc0, job)
  else
    match
      and_next (filter_name2job L pool (f_name sltr) []) (fun j =>
      and_next (filter_file2job L (f_file sltr) j) (fun j =>
      and_next (filter_provides2job L pool (f_provides sltr) j) (fun j =>
      and_next (filter_arch2job L (f_arch sltr) j) (fun j =>
      and_next (filter_evr2job L (f_evr sltr) j) (fun j =>
      filter_reponame2job L (f_reponame sltr) j)))))
    with
    | None => None
    | Some (Rc0, job_sltr) =>
        Some (Rc0, push_with_action solver_action job_sltr job)
    | Some (ret, _) => Some (ret, job)
    end.

(** ** Staging. *)
Definition stage (goal : HyGoal) (action : Z) (q : Queue) : HyGoal :=
  mkGoal q (protected goal) (solv goal) (trans goal)
         (removal_of_protected goal) (Z.lor (actions goal) action).

Definition hy_goal_install (goal : HyGoal) (new_pkg : HifPackage) : Z * HyGoal :=
  (0, stage goal HIF_INSTALL
        (queue_push2 (staging goal) (Z.lor SOLVER_SOLVABLE SOLVER_INSTALL)
                     (hif_package_get_id new_pkg))).

Definition hy_goal_install_optional (goal : HyGoal) (new_pkg : HifPackage)
  : Z * HyGoal :=
  (0, stage goal HIF_INSTALL
        (queue_push2 (staging goal)
                     (Z.lor (Z.lor SOLVER_SOLVABLE SOLVER_INSTALL) SOLVER_WEAK)
                     (hif_package_get_id new_pkg))).

(** The [assert] of [hy_goal_erase_flags] is compiled in unless [NDEBUG]
    is defined: the package must be an installed one. *)
Definition hy_goal_erase_flags (pool : Pool) (goal : HyGoal) (pkg : HifPackage)
  (flags : Z) : option (Z * HyGoal) :=
  match installed pool with
  | None => None
  | Some inst =>
      if s_repo (pool_id2solvable pool (hif_package_get_id pkg)) =? inst
      then
        let additional := erase_flags2libsolv flags in
        Some (0, stage goal HIF_ERASE
                   (queue_push2 (staging goal)
                      (Z.lor (Z.lor SOLVER_SOLVABLE SOLVER_ERASE) additional)
                      (hif_package_get_id pkg)))
      else None
  end.

Definition hy_goal_erase (pool : Pool) (goal : HyGoal) (pkg : HifPackage)
  : option (Z * HyGoal) :=
  hy_goal_erase_flags pool (stage goal HIF_ERASE (staging goal)) pkg 0.

Definition stage_selector (L : SelectionLib) (pool : Pool) (goal : HyGoal)
  (action : Z) (sltr : HySelector) (solver_action : Z)
  : option (Status * HyGoal) :=
  match sltr2job L pool sltr (staging goal) solver_action with
  | None => None
  | Some (rc, q) => Some (rc, stage goal action q)
  end.

(** [hy_goal_install_selector]: TRUE, or FALSE with the error set to the
    status of [sltr2job]. *)
Definition hy_goal_install_selector (L : SelectionLib) (pool : Pool)
  (goal : HyGoal) (sltr : HySelector)
  : option (bool * option (Status * string) * HyGoal) :=
  match stage_selector L pool goal HIF_INSTALL sltr SOLVER_INSTALL with
  | None => None
  | Some (Rc0, goal') => Some (true, None, goal')
  | Some (rc, goal') => Some (false, Some (rc, "failed to install selector"%string), goal')
  end.

Definition hy_goal_erase_selector_flags (L : SelectionLib) (pool : Pool)
  (goal : HyGoal) (sltr : HySelector) (flags : Z) : option (Status * HyGoal) :=
  let additional := erase_flags2libsolv flags in
  stage_selector L pool goal HIF_ERASE sltr (Z.lor SOLVER_ERASE additional).

Definition hy_goal_erase_selector (L : SelectionLib) (pool : Pool)
  (goal : HyGoal) (sltr : HySelector) : option (Status * HyGoal) :=
  hy_goal_erase_selector_flags L pool goal sltr 0.

Definition hy_goal_upgrade_selector (L : SelectionLib) (pool : Pool)
  (goal : HyGoal) (sltr : HySelector) : option (Status * HyGoal) :=
  stage_selector L pool goal HIF_UPGRADE sltr SOLVER_UPDATE.

Definition hy_goal_distupgrade_selector (L : SelectionLib) (pool : Pool)
  (goal : HyGoal) (sltr : HySelector) : option (Status * HyGoal) :=
  stage_selector L pool goal HIF_DISTUPGRADE sltr SOLVER_DISTUPGRADE.

Definition hy_goal_upgrade_all (goal : HyGoal) : Z * HyGoal :=
  (0, stage goal HIF_UPGRADE_ALL
        (queue_push2 (staging goal) (Z.lor SOLVER_UPDATE SOLVER_SOLVABLE_ALL) 0)).

Definition hy_goal_distupgrade_all (goal : HyGoal) : Z * HyGoal :=
  (0, stage goal HIF_DISTUPGRADE_ALL
        (queue_push2 (staging goal) (Z.lor SOLVER_DISTUPGRADE SOLVER_SOLVABLE_ALL) 0)).

(** ** The install-only limit in the words of the specification. *)

(** The leading elements of [l] named [name], and what follows them. *)
Fixpoint take_same (pool : Pool) (name : Id) (l : list Id) : list Id :=
  match l with
  | x :: l' => if s_name (pool_id2solvable pool x) =? name
               then x :: take_same pool name l' else []
  | [] => []
  end.

Fixpoint drop_same (pool : Pool) (name : Id) (l : list Id) : list Id :=
  match l with
  | x :: l' => if s_name (pool_id2solvable pool x) =? name
               then drop_same pool name l' else l
  | [] => []
  end.

(** "Partition into name-subqueues": the maximal runs of equally named
    neighbours of [l], in order. *)
Fixpoint name_runs (pool : Pool) (l : list Id) : list (list Id) :=
  match l with
  | [] => []
  | x :: l' =>
      match name_runs pool l' with
      | (y :: g) :: gs =>
          if s_name (pool_id2solvable pool y) =? s_name (pool_id2solvable pool x)
          then (x :: y :: g) :: gs
          else [x] :: (y :: g) :: gs
      | _ => [[x]]
      end
  end.

(** "Within each subqueue longer than the limit, push INSTALL for the first
    limit entries and ERASE for the remainder". *)
Definition job_for (action : Z) (id : Id) : list Id :=
  [Z.lor action SOLVER_SOLVABLE; id].

Definition subqueue_jobs (limit : Z) (g : list Id) : Queue :=
  if Z.of_nat (length g) <=? limit then []
  else flat_map (job_for SOLVER_INSTALL) (firstn (Z.to_nat limit) g)
       ++ flat_map (job_for SOLVER_ERASE) (skipn (Z.to_nat limit) g).

Definition over_limit (limit : Z) (g : list Id) : bool :=
  negb (Z.of_nat (length g) <=? limit).

(** "Collect all provider ids the solver decided to keep or install". *)
Definition decided_providers (sack : HifSack) (sv : Solver) (name : Id)
  : list Id :=
  List.filter (fun p => 0 <? solver_get_decisionlevel sv p)
              (FOR_PKG_PROVIDES (hif_sack_get_pool sack) name).

(** The subqueues of one install-only name: none when the providers do not
    exceed the limit; otherwise the name runs of the sorted providers read
    from the end of the queue backwards. *)
Definition name_subqueues (sack : HifSack) (sv : Solver) (name : Id)
  : list (list Id) :=
  let pool := hif_sack_get_pool sack in
  let q := decided_providers sack sv name in
  if Z.of_nat (length q) <=? hif_sack_get_installonly_limit sack then []
  else name_runs pool
         (rev (solv_sort (sort_packages pool (hif_sack_running_kernel sack)) q)).

Definition all_subqueues (sack : HifSack) (sv : Solver) : list (list Id) :=
  if hif_sack_get_installonly_limit sack =? 0 then []
  else flat_map (name_subqueues sack sv) (hif_sack_get_installonly sack).

(** The order the specification states: "first by name, then (given a
    running kernel) push the kernel or any package that can depend on it to
    the end, then by descending EVR". *)
Definition stated_order (pool : Pool) (kernel : Id) (a b : Id) : Z :=
  let sa := pool_id2solvable pool a in
  let sb := pool_id2solvable pool b in
  let name_diff := s_name sa - s_name sb in
  if negb (name_diff =? 0) then name_diff
  else if (0 <=? kernel) && ((a =? kernel) || can_depend_on pool sa kernel)
  then 1
  else if (0 <=? kernel) && ((b =? kernel) || can_depend_on pool sb kernel)
  then -1
  else pool_evrcmp pool (s_evr sb) (s_evr sa).

(** The jobs of the specification as stated: the subqueues are the name
    runs of the queue sorted in the stated order ([backwards]: read from the
    end, as the source reads them). *)
Definition stated_jobs (backwards : bool) (sack : HifSack) (sv : Solver)
  : Queue :=
  let pool := hif_sack_get_pool sack in
  let limit := hif_sack_get_installonly_limit sack in
  if limit =? 0 then []
  else
    flat_map
      (fun name =>
         let q := decided_providers sack sv name in
         if Z.of_nat (length q) <=? limit then []
         else
           let sorted :=
             solv_sort (stated_order pool (hif_sack_running_kernel sack)) q in
           flat_map (subqueue_jobs limit)
                    (name_runs pool (if backwards then rev sorted else sorted)))
      (hif_sack_get_installonly sack).

(** The specification's sentence on selectors, read for every selector
    without a required axis. *)
Definition any_req_filter (sltr : HySelector) : bool :=
  is_set (f_name sltr) || is_set (f_provides sltr) || is_set (f_file sltr).

Definition any_opt_filter (sltr : HySelector) : bool :=
  is_set (f_arch sltr) || is_set (f_evr sltr) || is_set (f_reponame sltr).

Definition missing_axes_always_rejected : Prop :=
  forall (L : SelectionLib) (pool : Pool) (sltr : HySelector) (job : Queue)
         (solver_action : Z),
    any_req_filter sltr = false ->
    sltr2job L pool sltr job solver_action
    = Some (RcErr HIF_ERROR_BAD_SELECTOR, job).

(** ** A small system.
    Solvables 2 "flying" and 3 "walrus" are installed (repo 1); 4, 5 and 6
    are kernel-1, kernel-2 and kernel-3 (name id 30). *)
Definition ex_names (i : Id) : string :=
  if i =? 20 then "flying"%string
  else if i =? 21 then "walrus"%string
  else if i =? 30 then "kernel"%string
  else EmptyString.

Definition ex_system : Pool :=
  mkPool [ null_solvable;
           mkSolvable 0 0 0 0 [] false;
           mkSolvable 20 1 1 1 [] true;
           mkSolvable 21 1 1 1 [] true;
           mkSolvable 30 1 1 1 [] true;
           mkSolvable 30 1 2 1 [] true;
           mkSolvable 30 1 3 2 [] true ]
         (Some 1) None ex_names ex_cmp
         (fun dep => if dep =? 30 then [4; 5; 6] else [])
         (fun _ => 0) (fun _ => 0).

(** No install-only names, no running kernel. *)
Definition ex_sack : HifSack := mkSack ex_system [] 0 (-1).

(** "kernel" is install-only with limit 2; kernel-1 is running. *)
Definition ex_kernel_sack : HifSack := mkSack ex_system [30] 2 4.

(** A solver that does what the job asks: it erases the two installed
    packages. *)
Definition ex_erase_both : SatSolver := fun _ _ =>
  mkSolution 0 (fun _ => EmptyString) (fun _ => 1)
    (mkTransaction [2; 3] (fun _ _ => SOLVER_TRANSACTION_ERASE) (fun _ => [])).

(** A solver that keeps or installs every solvable. *)
Definition ex_keep_all : SatSolver := fun _ _ =>
  mkSolution 0 (fun _ => EmptyString) (fun _ => 1) empty_transaction.

(** A goal protecting {2, 3} on which the erasure of both is staged. *)
Definition ex_protecting : HyGoal :=
  mkGoal [Z.lor SOLVER_SOLVABLE SOLVER_ERASE; 2;
          Z.lor SOLVER_SOLVABLE SOLVER_ERASE; 3]
         (Some 12%N) None None (Some []) HIF_ERASE.

Definition ex_solved : Solver := snd (solver_solve ex_keep_all solver_create []).

(** A selector with no axis set, and one with only the arch axis. *)
Definition ex_no_axis : HySelector := mkSelector None None None None None None.

Definition ex_arch_only : HySelector :=
  mkSelector (Some (mkFilter HY_EQ HY_PKG_ARCH _HY_STR [MStr "x86_64"]))
             None None None None None.

Definition ex_lib : SelectionLib :=
  mkSelectionLib (fun _ _ => 0) (fun _ => []) (fun _ => [])
                 (fun job _ _ => (job, 0)) (fun job _ => job) (fun _ => 0)
                 (fun _ _ _ => 0) [].

(** [x] is the running kernel or can depend on it (and there is one). *)
Definition kernel_related (pool : Pool) (kernel : Id) (x : Id) : bool :=
  (0 <=? kernel)
  && ((x =? kernel) || can_depend_on pool (pool_id2solvable pool x) kernel).

(** A status other than [HIF_ERROR_BAD_SELECTOR]. *)
Definition not_bad_selector (r : option (Status * Queue)) : Prop :=
  forall job, r <> Some (RcErr HIF_ERROR_BAD_SELECTOR, job).

(** The specification's sentence on the install-only limit, read with the
    order it states. *)
Definition jobs_follow_stated_order (backwards : bool) : Prop :=
  forall (sack : HifSack) (sv : Solver) (job : Queue),
  exists reresolve : bool,
    limit_installonly_packages sack sv job
    = Some (job ++ stated_jobs backwards sack sv, reresolve).

(** The providers of every install-only name that exceed the limit, and
    so are sorted, are an array on which the insertion loop is what
    [solv_sort] leaves. *)
Definition sorts_settled (sack : HifSack) (sv : Solver) : Prop :=
  forall name : Id,
    In name (hif_sack_get_installonly sack) ->
    hif_sack_get_installonly_limit sack
    < Z.of_nat (length (decided_providers sack sv name)) ->
    sort_settled (sort_packages (hif_sack_get_pool sack)
                                (hif_sack_running_kernel sack))
                 (decided_providers sack sv name).

(** The first solver call of [solve]: its return value and the solver
    afterwards. *)
Definition first_solve (sat : SatSolver) (job : Queue) (flags : Z)
  : Z * Solver :=
  let sv := fst (init_solver hy_goal_create) in
  let sv := if has_flag HIF_IGNORE_WEAK_DEPS flags
            then solver_set_flag sv SOLVER_FLAG_IGNORE_RECOMMENDED 1
            else sv in
  solver_solve sat sv job.

(** The INSTALL and ERASE jobs that enforce the limit on what the solver
    [sv] decided. *)
Definition limit_jobs (sack : HifSack) (sv : Solver) : Queue :=
  flat_map (subqueue_jobs (hif_sack_get_installonly_limit sack))
           (all_subqueues sack sv).

(** The job of the second solver call: the job of the first, the limit
    jobs, and allow-uninstall for the installed packages that are not
    protected. *)
Definition resolve_job (sack : HifSack) (goal : HyGoal) (job : Queue)
  (sv : Solver) : Queue :=
  snd (allow_uninstall_all_but_protected sack goal (job ++ limit_jobs sack sv)
                                         HIF_ALLOW_UNINSTALL).

(** The jobs [solve] hands to the solver: the solver is called again only
    after a first call without problems, without solution callback, and
    with a subqueue over the limit. *)
Definition solver_jobs (sat : SatSolver) (sack : HifSack) (goal : HyGoal)
  (job : Queue) (flags : Z) (user_cb : bool) : list Queue :=
  let rc1 := fst (first_solve sat job flags) in
  let sv1 := snd (first_solve sat job flags) in
  if negb (rc1 =? 0) || user_cb
     || negb (existsb (over_limit (hif_sack_get_installonly_limit sack))
                      (all_subqueues sack sv1))
  then [job]
  else [job; resolve_job sack goal job sv1].

(** The removed and obsoleted packages of the goal's transaction that lie
    in the protected map [prot]. *)
Definition protected_removals (prot : Map) (goal : HyGoal) : list HifPackage :=
  List.filter (fun pkg => MAPTST prot (hif_package_get_id pkg))
    (default [] (hif_goal_get_packages goal
                   [HIF_PACKAGE_INFO_REMOVE; HIF_PACKAGE_INFO_OBSOLETE])).

(** The fixed head of the description of a protected removal. *)
Definition removal_prefix : string :=
  "The operation would result in removing the following protected packages: ".

(** What [solve] leaves behind when the last solver run had no problem. *)
Definition solved_goal (rc : Z) (goal' : HyGoal) (s : Solver) (prot : Map)
  : Prop :=
  trans goal' = Some (solver_create_transaction s) /\
  removal_of_protected goal' = Some (protected_removals prot goal') /\
  rc = (if (length (protected_removals prot goal') =? 0)%nat then 0 else 1) /\
  hy_goal_count_problems goal'
  = Some (solver_problem_count s
          + Z.min 1 (Z.of_nat (length (protected_removals prot goal')))).

End Goal.

(* ===================================================================== *)
(** * hif-transaction.c *)
(* ===================================================================== *)

Module Transaction.
Import Solv Package Goal.

(** [HifTransactionFlag] ([hif-transaction.h]). *)
Definition HIF_TRANSACTION_FLAG_NONE : Z := 0.
Definition HIF_TRANSACTION_FLAG_ONLY_TRUSTED : Z := Z.shiftl 1 0.


Inductive HifTransactionStep :=
| HIF_TRANSACTION_STEP_STARTED
| HIF_TRANSACTION_STEP_PREPARING
| HIF_TRANSACTION_STEP_WRITING
| HIF_TRANSACTION_STEP_IGNORE.


(** An error as set in a [GError]: code and message. *)
Definition GError := (HifError * string)%type.

(** A call that either succeeds or sets an error. *)
Definition Check := option GError.

(** What is handed to the rpm runtime and to the downloader, in order. *)
Inductive Call :=
| AddInstallFilename (filename : string) (allow_untrusted is_update : bool)
| AddRemovePkg (pkg : Id)
| TsOrder
| TsCheck
| TsRun (rpmts_flags problems_filter : Z)
| FileDelete (filename : string)
| DownloadPackages (repo : Id) (pkgs : list Id).

(** The places where [hif_state_done] is called. *)
Inductive Checkpoint :=
| DoneInstallItem | DoneInstall | DoneRemove | DoneTestCommit | DoneTestRun
| DoneCommit | DoneYumdb | DoneDeleteItem | DoneDelete | DoneDownload.

(** The collaborators of the transaction driver: the context, the state
    object, the keyring, the rpm runtime, the filesystem and the package
    attributes. *)
Record Env := mkEnv {
  take_lock : Check;
  set_steps : Check;
  add_public_keys : Check;
  check_untrusted : Check;
  set_root_dir : Z;                                 (* rpmtsSetRootDir *)
  ensure_repo : Id -> Check;
  package_filename : Id -> string;
  package_id : Id -> string;                        (* hif_package_get_package_id *)
  package_repo : Id -> option Id;                   (* hif_package_get_repo *)
  package_downloadsize : Id -> Z;
  add_install_filename : string -> bool -> bool -> Check;
  add_remove_pkg : Id -> Check;
  state_done : Checkpoint -> Check;
  check_transaction : bool;
  check_disk_space : bool;
  keep_cache : bool;
  look_for_problems : Check;
  run_transaction : Z -> Z -> Z * HifTransactionStep;  (* rc and the step reached *)
  write_yumdb : Check;
  file_delete : string -> Check;                    (* g_file_delete *)
  repo_download_packages : Id -> list Id -> Check;
  cache_dir : option string;                        (* hif_context_get_cache_dir *)
  query_filesystem_info : string -> Outcome (option Z);
  g_format_size : Z -> string;
  show_int : Z -> string                            (* "%i" *)
}.

(** [HifTransactionPrivate], with the calls made so far. *)
Record Priv := mkPriv {
  flags : Z;
  install : option (list HifPackage);
  remove : option (list HifPackage);
  remove_helper : option (list HifPackage);
  pkgs_to_download : list HifPackage;
  erased_by_package_hash : option (gmap string HifPackage);
  step : HifTransactionStep;
  calls : list Call
}.

Definition log (priv : Priv) (c : Call) : Priv :=
  mkPriv (flags priv) (install priv) (remove priv) (remove_helper priv)
         (pkgs_to_download priv) (erased_by_package_hash priv) (step priv)
         (calls priv ++ [c]).

Definition set_install (priv : Priv) (l : list HifPackage) : Priv :=
  mkPriv (flags priv) (Some l) (remove priv) (remove_helper priv)
         (pkgs_to_download priv) (erased_by_package_hash priv) (step priv)
         (calls priv).

Definition set_remove (priv : Priv) (l : list HifPackage) : Priv :=
  mkPriv (flags priv) (install priv) (Some l) (remove_helper priv)
         (pkgs_to_download priv) (erased_by_package_hash priv) (step priv)
         (calls priv).

Definition set_remove_helper (priv : Priv) (l : list HifPackage) : Priv :=
  mkPriv (flags priv) (install priv) (remove priv) (Some l)
         (pkgs_to_download priv) (erased_by_package_hash priv) (step priv)
         (calls priv).




(** The result of a phase: [Stop e] is [ret = FALSE; goto out], [None] a
    read outside an array or a failed assertion. *)
Inductive Phase :=
| Go (priv : Priv)
| Stop (e : GError) (priv : Priv).

Definition checked (c : Check) (priv : Priv) : Phase :=
  match c with
  | None => Go priv
  | Some e => Stop e priv
  end.

Definition then_phase (r : option Phase) (k : Priv -> option Phase)
  : option Phase :=
  match r with
  | Some (Go priv) => k priv
  | other => other
  end.

Definition is_update_action (pkg : HifPackage) : bool :=
  action_eqb (hif_package_get_action pkg) HIF_STATE_ACTION_UPDATE
  || action_eqb (hif_package_get_action pkg) HIF_STATE_ACTION_DOWNGRADE.

Definition hif_find_pkg_from_name (pool : Pool) (array : list HifPackage)
  (pkgname : string) : option HifPackage :=
  List.find (fun pkg => String.eqb (hif_package_get_name pool pkg) pkgname) array.

(** ** The phases of hif_transaction_commit. *)

(** "add things to install": one round of the loop. *)
Definition add_install_item (env : Env) (priv : Priv) (pkg : HifPackage)
  : Phase :=
  match ensure_repo env (pkg_id pkg) with
  | Some e => Stop e priv
  | None =>
      let filename := package_filename env (pkg_id pkg) in
      let allow_untrusted :=
        Z.land (flags priv) HIF_TRANSACTION_FLAG_ONLY_TRUSTED =? 0 in
      let is_update := is_update_action pkg in
      let priv := log priv (AddInstallFilename filename allow_untrusted is_update) in
      match add_install_filename env filename allow_untrusted is_update with
      | Some e => Stop e priv
      | None => checked (state_done env DoneInstallItem) priv
      end
  end.

Fixpoint add_install_items (env : Env) (priv : Priv) (l : list HifPackage)
  : Phase :=
  match l with
  | [] => Go priv
  | pkg :: rest =>
      match add_install_item env priv pkg with
      | Go priv' => add_install_items env priv' rest
      | stop => stop
      end
  end.

Definition commit_add_installs (env : Env) (goal : HyGoal) (priv : Priv)
  : option Phase :=
  match hif_goal_get_packages goal
          [HIF_PACKAGE_INFO_INSTALL; HIF_PACKAGE_INFO_REINSTALL;
           HIF_PACKAGE_INFO_DOWNGRADE; HIF_PACKAGE_INFO_UPDATE] with
  | None => None
  | Some l =>
      then_phase (Some (add_install_items env (set_install priv l) l))
                 (fun priv => Some (checked (state_done env DoneInstall) priv))
  end.

(** "add things to remove": the packages removed so far are in [done]. *)
Fixpoint add_remove_items (env : Env) (pool : Pool) (priv : Priv)
  (done todo : list HifPackage) : Phase :=
  match todo with
  | [] => Go (set_remove priv done)
  | pkg :: rest =>
      let priv := log priv (AddRemovePkg (pkg_id pkg)) in
      match add_remove_pkg env (pkg_id pkg) with
      | Some e => Stop e (set_remove priv (done ++ todo))
      | None =>
          (* are the things being removed actually being upgraded *)
          let pkg :=
            match hif_find_pkg_from_name pool (default [] (install priv))
                    (hif_package_get_name pool pkg) with
            | Some _ => hif_package_set_action pkg HIF_STATE_ACTION_CLEANUP
            | None => pkg
            end in
          add_remove_items env pool priv (done ++ [pkg]) rest
      end
  end.

Definition commit_add_removes (env : Env) (pool : Pool) (goal : HyGoal)
  (priv : Priv) : option Phase :=
  match hif_goal_get_packages goal
          [HIF_PACKAGE_INFO_OBSOLETE; HIF_PACKAGE_INFO_REMOVE] with
  | None => None
  | Some l => Some (add_remove_items env pool priv [] l)
  end.

(** The inner loop of the helper construction for the install at index
    [i]: one round per element of [pkglist], each reading
    [g_ptr_array_index (pkglist, i)]. *)
Fixpoint obsoleted_into_helper (pkglist : list HifPackage) (i : nat)
  (rounds : nat) (helper : list HifPackage) : option (list HifPackage) :=
  match rounds with
  | O => Some helper
  | S rounds' =>
      match nth_error pkglist i with
      | None => None
      | Some pkg_tmp =>
          obsoleted_into_helper pkglist i rounds'
            (helper ++ [hif_package_set_action pkg_tmp HIF_STATE_ACTION_CLEANUP])
      end
  end.

(** The outer loop, from the install at index [i] on. *)
Fixpoint remove_helper_loop (goal : HyGoal) (installs : list HifPackage)
  (i : nat) (helper : list HifPackage) : option (list HifPackage) :=
  match installs with
  | [] => Some helper
  | pkg :: rest =>
      if negb (is_update_action pkg)
      then remove_helper_loop goal rest (S i) helper
      else
        match hy_goal_list_obsoleted_by_package goal pkg with
        | None => None
        | Some pkglist =>
            match obsoleted_into_helper pkglist i (length pkglist) helper with
            | None => None
            | Some helper' => remove_helper_loop goal rest (S i) helper'
            end
        end
  end.

(** "add anything that gets obsoleted to a helper array". *)
Definition commit_remove_helper (env : Env) (goal : HyGoal) (priv : Priv)
  : option Phase :=
  match remove_helper_loop goal (default [] (install priv)) 0 [] with
  | None => None
  | Some helper =>
      Some (checked (state_done env DoneRemove) (set_remove_helper priv helper))
  end.






(** [hif_transaction_delete_packages]: only files below the cache
    directory are deleted. *)
Fixpoint delete_items (env : Env) (cachedir : string) (priv : Priv)
  (l : list HifPackage) : Phase :=
  match l with
  | [] => Go priv
  | pkg :: rest =>
      let filename := package_filename env (pkg_id pkg) in
      let deleted :=
        if String.prefix cachedir filename
        then (log priv (FileDelete filename), file_delete env filename)
        else (priv, None) in
      match deleted with
      | (priv, Some e) => Stop e priv
      | (priv, None) =>
          match state_done env DoneDeleteItem with
          | Some e => Stop e priv
          | None => delete_items env cachedir priv rest
          end
      end
  end.

Definition hif_transaction_delete_packages (env : Env) (priv : Priv) : Phase :=
  match default [] (install priv) with
  | [] => Go priv                               (* nothing to delete? *)
  | l =>
      match cache_dir env with
      | None => Stop (HIF_ERROR_FAILED_CONFIG_PARSING,
                      "Failed to get value for CacheDir"%string) priv
      | Some cachedir => delete_items env cachedir priv l
      end
  end.




(** The phases of [hif_transaction_commit] up to and including the
    construction of the helper array. *)
Definition commit_prepare (env : Env) (pool : Pool) (goal : HyGoal)
  (priv : Priv) : option Phase :=
  then_phase (Some (checked (take_lock env) priv)) (fun priv =>
  then_phase (Some (checked (set_steps env) priv)) (fun priv =>
  then_phase (Some (checked (add_public_keys env) priv)) (fun priv =>
  then_phase (Some (checked (check_untrusted env) priv)) (fun priv =>
  then_phase (if set_root_dir env <? 0
              then Some (Stop (HIF_ERROR_INTERNAL_ERROR, "failed to set root"%string) priv)
              else Some (Go priv)) (fun priv =>
  then_phase (commit_add_installs env goal priv) (fun priv =>
  then_phase (commit_add_removes env pool goal priv) (fun priv =>
  commit_remove_helper env goal priv))))))).


(** ** Downloading. *)



(** The packages of [packages] grouped by repo, the repos in the order of
    their first package (the source walks a hash table keyed by repo). *)
Fixpoint add_to_repo (repo : Id) (pkg : Id) (groups : list (Id * list Id))
  : list (Id * list Id) :=
  match groups with
  | [] => [(repo, [pkg])]
  | (r, ps) :: rest =>
      if r =? repo then (r, ps ++ [pkg]) :: rest
      else (r, ps) :: add_to_repo repo pkg rest
  end.

Fixpoint map_packages_to_repos (env : Env) (packages : list HifPackage)
  (groups : list (Id * list Id)) : Outcome (list (Id * list Id)) :=
  match packages with
  | [] => Ok groups
  | pkg :: rest =>
      match package_repo env (pkg_id pkg) with
      | None => Error HIF_ERROR_INTERNAL_ERROR "package repo is unset"
      | Some repo =>
          map_packages_to_repos env rest (add_to_repo repo (pkg_id pkg) groups)
      end
  end.

Fixpoint download_repos (env : Env) (priv : Priv) (groups : list (Id * list Id))
  : Phase :=
  match groups with
  | [] => Go priv
  | (repo, pkgs) :: rest =>
      let priv := log priv (DownloadPackages repo pkgs) in
      match repo_download_packages env repo pkgs with
      | Some e => Stop e priv
      | None =>
          match state_done env DoneDownload with
          | Some e => Stop e priv
          | None => download_repos env priv rest
          end
      end
  end.

Definition hif_package_array_download (env : Env) (priv : Priv)
  (packages : list HifPackage) : Phase :=
  match map_packages_to_repos env packages [] with
  | Error e msg => Stop (e, msg) priv
  | Ok groups => download_repos env priv groups
  end.


(** ** The statements of the specification on commit. *)



(** ** A small upgrade.
    On the small system, the solver upgrades to kernel-2 (solvable 5),
    which obsoletes the installed packages 2 and 3. *)
Definition ex_upgrade : Transaction :=
  mkTransaction [5]
    (fun p _ => if p =? 5 then SOLVER_TRANSACTION_UPGRADE else 0)
    (fun p => if p =? 5 then [2; 3] else []).

Definition ex_upgrade_goal : HyGoal :=
  mkGoal [] (Some map_empty) (Some ex_solved) (Some ex_upgrade) (Some []) 0.

(** Every collaborator succeeds; the cache directory has no free byte and
    the package to download has 100. *)
Definition ex_env : Env :=
  mkEnv None None None None 0 (fun _ => None)
        (fun _ => "/var/cache/kernel-2.rpm"%string) (fun _ => "kernel;2;x86_64;fedora"%string)
        (fun _ => Some 2) (fun _ => 100)
        (fun _ _ _ => None) (fun _ => None) (fun _ => None)
        true true true None
        (fun _ _ => (0, HIF_TRANSACTION_STEP_WRITING)) None
        (fun _ => None) (fun _ _ => None) (Some "/var/cache"%string)
        (fun _ => Ok (Some 0))
        (fun n => if n =? 0 then "0 bytes"%string else "100 bytes"%string)
        (fun _ => "?"%string).

Definition ex_priv : Priv :=
  mkPriv HIF_TRANSACTION_FLAG_NONE None None None [hif_package_new 5] None
         HIF_TRANSACTION_STEP_STARTED [].

End Transaction.

(* ===================================================================== *)
(** * hif-db.c *)
(* ===================================================================== *)

Module Db.
Import Solv Package.

(** ** The filesystem under the yumdb.
    A map from absolute paths to nodes; the entries of a directory are the
    paths one component below it. *)
Inductive Node :=
| File (contents : string)
| Dir.

Definition is_dir (fs : gmap string Node) (path : string) : bool :=
  match fs !! path with
  | Some Dir => true
  | _ => false
  end.

Definition file_exists (fs : gmap string Node) (path : string) : bool :=
  match fs !! path with
  | Some _ => true
  | None => false
  end.

Definition g_build_filename (dir name : string) : string :=
  (dir ++ "/" ++ name)%string.

(** The name of [path] as an entry of the directory [dir], if it is one. *)
Definition entry_name (dir path : string) : option string :=
  let pre := (dir ++ "/")%string in
  if String.prefix pre path then
    let name := String.substring (String.length pre)
                                 (String.length path - String.length pre) path in
    if (String.length name =? 0)%nat then None
    else if has_substring "/" name then None
    else Some name
  else None.

(** [g_dir_read_name] until it returns NULL. *)
Definition dir_entries (fs : gmap string Node) (dir : string) : list string :=
  omap (fun kv => entry_name dir (fst kv)) (map_to_list fs).

Definition below (dir path : string) : bool :=
  String.prefix (dir ++ "/")%string path.

Definition has_entries (fs : gmap string Node) (dir : string) : bool :=
  existsb (fun kv => below dir (fst kv)) (map_to_list fs).

(** An error of the yumdb ([HIF_ERROR_FAILED] with its message) or one set
    by GLib. *)
Inductive DbError :=
| DbFailed (msg : string)
| GLibError (what : string).

(** [g_file_delete]: a file, or an empty directory. *)
Definition g_file_delete (fs : gmap string Node) (path : string)
  : option DbError * gmap string Node :=
  match fs !! path with
  | None => (Some (GLibError "No such file or directory"), fs)
  | Some (File _) => (None, delete path fs)
  | Some Dir =>
      if has_entries fs path then (Some (GLibError "Directory not empty"), fs)
      else (None, delete path fs)
  end.

(** The directories above [path]: the prefixes of [path] that end before
    a "/" which neither starts the path nor follows another "/".  Those of
    "/var/lib/yum" are "/var" and "/var/lib"; the root and the current
    directory are always there and are not listed. *)
Fixpoint dirs_above (prev : ascii) (pre rest : string) : list string :=
  match rest with
  | EmptyString => []
  | String c rest' =>
      let more := dirs_above c (pre ++ String c EmptyString) rest' in
      if Ascii.eqb c "/" && negb (Ascii.eqb prev "/") then pre :: more
      else more
  end.

Definition ancestors (path : string) : list string :=
  dirs_above "/" EmptyString path.

Definition is_file (fs : gmap string Node) (path : string) : bool :=
  match fs !! path with
  | Some (File _) => true
  | _ => false
  end.

(** [g_file_make_directory_with_parents]: the directory is made, after the
    directories above it that are missing.  Nothing is made when the path
    is taken already or when a path above it is a regular file. *)
Definition g_file_make_directory_with_parents (fs : gmap string Node)
  (path : string) : option DbError * gmap string Node :=
  match fs !! path with
  | Some _ => (Some (GLibError "File exists"), fs)
  | None =>
      if existsb (is_file fs) (ancestors path)
      then (Some (GLibError "Not a directory"), fs)
      else (None,
            <[path := Dir]>
              (fold_left (fun fs d => <[d := Dir]> fs) (ancestors path) fs))
  end.

(** [g_file_set_contents]: the directory of the file has to be there, and
    the path must not be a directory. *)
Definition g_file_set_contents (fs : gmap string Node) (path value : string)
  : option DbError * gmap string Node :=
  match last (ancestors path) with
  | Some d =>
      if negb (is_dir fs d)
      then (Some (GLibError "No such file or directory"), fs)
      else match fs !! path with
           | Some Dir => (Some (GLibError "Is a directory"), fs)
           | _ => (None, <[path := File value]> fs)
           end
  | None =>
      match fs !! path with
      | Some Dir => (Some (GLibError "Is a directory"), fs)
      | _ => (None, <[path := File value]> fs)
      end
  end.

(** ** The database object and the package attributes it reads. *)
Record HifDb := mkDb {
  enabled : bool;
  install_root : string;          (* hif_context_get_install_root *)
  use_dnf_yumdb : bool            (* BUILDOPT_USE_DNF_YUMDB *)
}.

Record DbPackage := mkDbPackage {
  pkgid : option string;          (* hif_package_get_pkgid, may be NULL *)
  name : string;
  version : string;
  release : string;
  arch : string;
  package_id : string             (* hif_package_get_package_id *)
}.

Definition hif_db_new (root : string) (dnf : bool) : HifDb := mkDb false root dnf.

Definition hif_db_set_enabled (db : HifDb) (e : bool) : HifDb :=
  mkDb e (install_root db) (use_dnf_yumdb db).

Definition hif_db_create_dir (fs : gmap string Node) (dir : string)
  : option DbError * gmap string Node :=
  if is_dir fs dir then (None, fs)           (* already exists *)
  else g_file_make_directory_with_parents fs dir.

(** ["%s%s/%c/%s-%s-%s-%s-%s"]: a package with an empty name has the NUL
    byte as first character, where the C string ends. *)
Definition hif_db_get_dir_for_package (db : HifDb) (package : DbPackage)
  : option string :=
  match pkgid package with
  | None => None
  | Some id =>
      let instroot := if String.eqb (install_root db) "/"
                      then EmptyString else install_root db in
      let yumdb_dir := if use_dnf_yumdb db then "/var/lib/dnf/yumdb"%string
                       else "/var/lib/yum/yumdb"%string in
      match name package with
      | EmptyString => Some (instroot ++ yumdb_dir ++ "/")%string
      | String c _ =>
          Some (instroot ++ yumdb_dir ++ "/" ++ String c EmptyString ++ "/"
                ++ id ++ "-" ++ name package ++ "-" ++ version package ++ "-"
                ++ release package ++ "-" ++ arch package)%string
      end
  end.

(** The value returned and the error set.  A NULL argument fails the
    [g_return_val_if_fail] guard: the failure value, no error. *)
Definition hif_db_get_string (db : HifDb) (fs : gmap string Node)
  (package : option DbPackage) (key : option string)
  : option string * option DbError :=
  match package, key with
  | Some package, Some key =>
      match hif_db_get_dir_for_package db package with
      | None =>
          (None, Some (DbFailed ("cannot read index for " ++ package_id package)))
      | Some index_dir =>
          let filename := g_build_filename index_dir key in
          match fs !! filename with
          | None => (None, Some (DbFailed (filename ++ " key not found")))
          | Some (File value) => (Some value, None)
          | Some Dir => (None, Some (GLibError "Is a directory"))
          end
      end
  | _, _ => (None, None)
  end.

Definition hif_db_set_string (db : HifDb) (fs : gmap string Node)
  (package : option DbPackage) (key value : option string)
  : bool * option DbError * gmap string Node :=
  match package, key, value with
  | Some package, Some key, Some value =>
      if negb (enabled db) then (true, None, fs)
      else
        match hif_db_get_dir_for_package db package with
        | None =>
            (false,
             Some (DbFailed ("cannot create index for " ++ package_id package)),
             fs)
        | Some index_dir =>
            match hif_db_create_dir fs index_dir with
            | (Some e, fs') => (false, Some e, fs')
            | (None, fs') =>
                match g_file_set_contents fs' (g_build_filename index_dir key)
                                          value with
                | (Some e, fs'') => (false, Some e, fs'')
                | (None, fs'') => (true, None, fs'')
                end
            end
        end
  | _, _, _ => (false, None, fs)
  end.

Definition hif_db_remove (db : HifDb) (fs : gmap string Node)
  (package : option DbPackage) (key : option string)
  : bool * option DbError * gmap string Node :=
  match package, key with
  | Some package, Some key =>
      if negb (enabled db) then (true, None, fs)
      else
        match hif_db_get_dir_for_package db package with
        | None =>
            (false,
             Some (DbFailed ("cannot create index for " ++ package_id package)),
             fs)
        | Some index_dir =>
            match g_file_delete fs (g_build_filename index_dir key) with
            | (Some e, fs') => (false, Some e, fs')
            | (None, fs') => (true, None, fs')
            end
        end
  | _, _ => (false, None, fs)
  end.

Definition hif_db_remove_all (db : HifDb) (fs : gmap string Node)
  (package : option DbPackage)
  : bool * option DbError * gmap string Node :=
  match package with
  | Some package =>
      if negb (enabled db) then (true, None, fs)
      else
        match hif_db_get_dir_for_package db package with
        | None =>
            (false,
             Some (DbFailed ("cannot create index for " ++ package_id package)),
             fs)
        | Some index_dir =>
            if negb (is_dir fs index_dir) then (true, None, fs)
            else
              (* delete each one, ignoring error *)
              let fs' :=
                fold_left
                  (fun fs filename =>
                     snd (g_file_delete fs (g_build_filename index_dir filename)))
                  (dir_entries fs index_dir) fs in
              (* now delete the directory *)
              match g_file_delete fs' index_dir with
              | (Some e, fs'') => (false, Some e, fs'')
              | (None, fs'') => (true, None, fs'')
              end
        end
  | None => (false, None, fs)
  end.

(** ** A small store. *)
Definition ex_package : DbPackage :=
  mkDbPackage (Some "abc123") "hal" "0.3.4" "1" "i386" "hal;0.3.4-1;i386;installed".

Definition ex_db : HifDb := hif_db_new "/" false.

Definition ex_store : gmap string Node :=
  <["/var/lib/yum/yumdb/h/abc123-hal-0.3.4-1-i386/reason" := File "user"]>
  (<["/var/lib/yum/yumdb/h/abc123-hal-0.3.4-1-i386" := Dir]> ∅).

(** A package without entry in the small store. *)
Definition ex_new_package : DbPackage :=
  mkDbPackage (Some "def456") "iso-codes" "3.6" "2" "noarch"
              "iso-codes;3.6-2;noarch;fedora".

(** A store in which "/var/lib/yum" is a regular file. *)
Definition ex_blocked_store : gmap string Node :=
  <["/var/lib/yum" := File "x"]> (<["/var/lib" := Dir]> (<["/var" := Dir]> ∅)).

End Db.

(* ===================================================================== *)
(** * hif-package.c: the private area of a package *)
(* ===================================================================== *)

Module PackageState.
Import Solv Package.

(** Modelled from the spec: the names of the two distinguished repos
    ([hy-types.h] is not part of the sources at hand): "the distinguished
    repo [@System] holds installed packages", and the repo of the packages
    given on the command line. *)
Definition HY_SYSTEM_REPO_NAME : string := "@System".
Definition HY_CMDLINE_REPO_NAME : string := "@commandline".

(** What hawkey reports for the solvable of a package. *)
Record HyAttrs := mkAttrs {
  a_name : string;                 (* hif_package_get_name *)
  a_evr : option string;           (* hif_package_get_evr *)
  a_arch : option string;          (* hif_package_get_arch *)
  a_reponame : string;             (* hif_package_get_reponame *)
  a_location : option string;      (* hif_package_get_location *)
  a_installed : bool               (* hif_package_installed *)
}.

Record HifRepo := mkRepo {
  repo_id : string;                (* hif_repo_get_id *)
  repo_gpgcheck : bool             (* hif_repo_get_gpgcheck *)
}.

(** [HifPackagePrivate]: the fields the modelled functions touch. *)
Record HifPackagePrivate := mkPrivate {
  priv_filename : option string;
  priv_origin : option string;
  priv_package_id : option string;
  priv_repo : option HifRepo
}.

(** The private area as [hif_package_get_priv] creates it
    ([g_slice_new0]). *)
Definition hif_package_get_priv : HifPackagePrivate :=
  mkPrivate None None None None.

Definition hif_package_get_origin (a : HyAttrs) (priv : HifPackagePrivate)
  : option string :=
  if negb (a_installed a) then None else priv_origin priv.

Definition hif_package_set_origin (priv : HifPackagePrivate)
  (origin : option string) : HifPackagePrivate :=
  mkPrivate (priv_filename priv) origin (priv_package_id priv) (priv_repo priv).

Definition hif_package_set_filename (priv : HifPackagePrivate)
  (filename : option string) : HifPackagePrivate :=
  mkPrivate filename (priv_origin priv) (priv_package_id priv) (priv_repo priv).

Definition hif_package_set_repo (priv : HifPackagePrivate) (repo : HifRepo)
  : HifPackagePrivate :=
  mkPrivate (priv_filename priv) (priv_origin priv) (priv_package_id priv)
            (Some repo).

Definition hif_package_get_repo (priv : HifPackagePrivate) : option HifRepo :=
  priv_repo priv.

(** [g_strjoin (";", ...)] over the four fields, a NULL one replaced by the
    empty string. *)
Definition hif_package_id_build (name : string) (version arch data : option string)
  : string :=
  (name ++ ";" ++ default EmptyString version ++ ";"
        ++ default EmptyString arch ++ ";" ++ default EmptyString data)%string.

(** The package-id and the private area afterwards: the id is calculated
    once and cached. *)
Definition hif_package_get_package_id (a : HyAttrs) (priv : HifPackagePrivate)
  : string * HifPackagePrivate :=
  match priv_package_id priv with
  | Some id => (id, priv)
  | None =>
      let reponame :=
        if String.eqb (a_reponame a) HY_SYSTEM_REPO_NAME then
          (* origin data to munge into the package_id data field *)
          match priv_origin priv with
          | Some origin => ("installed:" ++ origin)%string
          | None => "installed"%string
          end
        else if String.eqb (a_reponame a) HY_CMDLINE_REPO_NAME then "local"%string
        else a_reponame a in
      let id := hif_package_id_build (a_name a) (a_evr a) (a_arch a)
                                     (Some reponame) in
      (id, mkPrivate (priv_filename priv) (priv_origin priv) (Some id)
                     (priv_repo priv))
  end.

(** [hif_transaction_ensure_repo]: the error set and the private area
    afterwards; [repos] is [priv->repos] of the transaction. *)
Definition hif_transaction_ensure_repo (show_uint : nat -> string)
  (repos : option (list HifRepo)) (a : HyAttrs) (priv : HifPackagePrivate)
  : option (HifError * string) * HifPackagePrivate :=
  match repos with
  | None =>
      (* not set yet *)
      (Some (HIF_ERROR_INTERNAL_ERROR,
             ("Sources not set when trying to ensure package " ++ a_name a)%string),
       priv)
  | Some repos =>
      if String.eqb (a_reponame a) HY_CMDLINE_REPO_NAME then
        (* this is a local file *)
        (None, hif_package_set_filename priv (a_location a))
      else if a_installed a then (None, priv)
      else
        match List.find (fun repo => String.eqb (a_reponame a) (repo_id repo))
                        repos with
        | Some repo => (None, hif_package_set_repo priv repo)
        | None =>
            (Some (HIF_ERROR_INTERNAL_ERROR,
                   ("Failed to ensure " ++ a_name a ++ " as repo "
                    ++ a_reponame a ++ " not found("
                    ++ show_uint (length repos) ++ " repos loaded)")%string),
             priv)
        end
  end.

(** [hif_transaction_ensure_repo_list] over the packages with their
    private areas: the first failure stops the walk. *)
Fixpoint hif_transaction_ensure_repo_list (show_uint : nat -> string)
  (repos : option (list HifRepo)) (pkglist : list (HyAttrs * HifPackagePrivate))
  : option (HifError * string) * list (HyAttrs * HifPackagePrivate) :=
  match pkglist with
  | [] => (None, [])
  | (a, priv) :: rest =>
      match hif_transaction_ensure_repo show_uint repos a priv with
      | (Some e, priv') => (Some e, (a, priv') :: rest)
      | (None, priv') =>
          let (e, rest') :=
            hif_transaction_ensure_repo_list show_uint repos rest in
          (e, (a, priv') :: rest')
      end
  end.

(** ** Two packages: hal, installed, and hal-devel from the repo fedora. *)
Definition ex_installed : HyAttrs :=
  mkAttrs "hal" (Some "0.3.4-1"%string) (Some "i386"%string) HY_SYSTEM_REPO_NAME
          None true.

Definition ex_available : HyAttrs :=
  mkAttrs "hal-devel" (Some "0.3.4-1"%string) (Some "i386"%string) "fedora"
          (Some "Packages/hal-devel-0.3.4-1.i386.rpm"%string) false.

Definition ex_repos : list HifRepo :=
  [mkRepo "updates" true; mkRepo "fedora" true].

Definition ex_show_uint (n : nat) : string :=
  match n with
  | O => "0"
  | 1%nat => "1"
  | 2%nat => "2"
  | _ => "many"
  end.

End PackageState.

(* ===================================================================== *)
(** * The yumdb entries of a transaction (hif-db.c, hif-transaction.c) *)
(* ===================================================================== *)

Module Yumdb.
Import Solv Package Db PackageState.

(** [hif_db_ensure_origin_pkg]: the private area afterwards.  [package]
    carries what the database reads of the package of [a] and [priv];
    the debug message of the failure branch evaluates the package-id. *)
Definition hif_db_ensure_origin_pkg (db : HifDb) (fs : gmap string Node)
  (package : DbPackage) (a : HyAttrs) (priv : HifPackagePrivate)
  : HifPackagePrivate :=
  match hif_package_get_origin a priv with
  | Some _ => priv                              (* already set *)
  | None =>
      if negb (a_installed a) then priv
      else
        (* set from the database if available *)
        match fst (hif_db_get_string db fs (Some package) (Some "from_repo"%string)) with
        | None => snd (hif_package_get_package_id a priv)
        | Some tmp => hif_package_set_origin priv (Some tmp)
        end
  end.

(** [HyReason] of [hy-goal.h]. *)
Inductive HyReason :=
| HY_REASON_DEP | HY_REASON_USER | HY_REASON_CLEAN | HY_REASON_WEAKDEP.

(** [hif_transaction_get_propagated_reason].  [installonly] is
    [hif_package_is_installonly (pkg)], [package_id] the package-id of
    [pkg], [hash] is [priv->erased_by_package_hash] (a lookup in a NULL
    table gives NULL) and [goal_reason] what [hy_goal_get_reason] answers,
    [None] for its failed assertion. *)
Definition hif_transaction_get_propagated_reason (db : HifDb)
  (fs : gmap string Node) (installonly : bool) (action : HifStateAction)
  (package_id : string) (hash : option (gmap string DbPackage))
  (goal_reason : option HyReason) : option string :=
  (* kernel is always marked as "user" *)
  if installonly then Some "user"%string
  else if action_eqb action HIF_STATE_ACTION_DOWNGRADE
          || action_eqb action HIF_STATE_ACTION_REINSTALL
          || action_eqb action HIF_STATE_ACTION_UPDATE then
    (* for updates, propagate updated package's reason from existing yumdb
       entry *)
    match default ∅ hash !! package_id with
    | Some erased_package =>
        match fst (hif_db_get_string db fs (Some erased_package)
                                     (Some "reason"%string)) with
        | Some reason => Some reason
        | None => Some "dep"%string
        end
    | None => Some "dep"%string
    end
  else
    match goal_reason with
    | None => None
    | Some HY_REASON_USER => Some "user"%string
    | Some _ => Some "dep"%string
    end.

(** An error of [hif_transaction_write_yumdb_install_item]: its own, or
    the one of the database. *)
Inductive YumdbError :=
| NoPkgid (code : HifError) (msg : string)
| OfDb (e : DbError).

(** [hif_transaction_write_yumdb_install_item]: the value returned, the
    error set and the store afterwards; [None] is the failed assertion of
    [hy_goal_get_reason].  [uid] is [priv->uid], a [guint] printed
    with ["%i"]. *)
Definition hif_transaction_write_yumdb_install_item (db : HifDb)
  (fs : gmap string Node) (show_int : Z -> string) (pkg : DbPackage)
  (reponame : option string) (uid : Z) (installonly : bool)
  (action : HifStateAction) (hash : option (gmap string DbPackage))
  (goal_reason : option HyReason) (release_ver : option string)
  : option (bool * option YumdbError * gmap string Node) :=
  match pkgid pkg with
  | None =>
      Some (false,
            Some (NoPkgid HIF_ERROR_INTERNAL_ERROR
                    ("no yumdb entry for " ++ package_id pkg ++ " as no pkgid")),
            fs)
  | Some _ =>
      (* set the repo this came from *)
      match hif_db_set_string db fs (Some pkg) (Some "from_repo"%string) reponame with
      | (false, e, fs) => Some (false, option_map OfDb e, fs)
      | (true, _, fs) =>
          (* write euid *)
          let euid := show_int (if uid <? 2 ^ 31 then uid else uid - 2 ^ 32) in
          match hif_db_set_string db fs (Some pkg) (Some "installed_by"%string)
                                  (Some euid) with
          | (false, e, fs) => Some (false, option_map OfDb e, fs)
          | (true, _, fs) =>
              (* set the correct reason *)
              match hif_transaction_get_propagated_reason db fs installonly
                      action (package_id pkg) hash goal_reason with
              | None => None
              | Some reason =>
                  match hif_db_set_string db fs (Some pkg) (Some "reason"%string)
                                          (Some reason) with
                  | (false, e, fs) => Some (false, option_map OfDb e, fs)
                  | (true, _, fs) =>
                      (* set the correct release *)
                      match hif_db_set_string db fs (Some pkg)
                              (Some "releasever"%string) release_ver with
                      | (ok, e, fs) => Some (ok, option_map OfDb e, fs)
                      end
                  end
              end
          end
      end
  end.

(** ** On the small store: entries are written for uid 0 on a release
    23. *)
Definition ex_show_int (n : Z) : string :=
  if n =? 0 then "0"%string else "1000"%string.

(** An update of hal: hal-0.3.5 replaces the hal-0.3.4 of the small
    store, whose reason is "user"; the solver pulled it in as a
    dependency. *)
Definition ex_hal_update : DbPackage :=
  mkDbPackage (Some "fff999") "hal" "0.3.5" "1" "i386" "hal;0.3.5-1;i386;fedora".

Definition ex_erased_by : gmap string DbPackage :=
  <["hal;0.3.5-1;i386;fedora"%string := ex_package]> ∅.

Definition ex_updated : option (bool * option YumdbError * gmap string Node) :=
  hif_transaction_write_yumdb_install_item (hif_db_set_enabled ex_db true)
    ex_store ex_show_int ex_hal_update (Some "fedora"%string) 0 false
    HIF_STATE_ACTION_UPDATE (Some ex_erased_by) (Some HY_REASON_DEP)
    (Some "23"%string).

Definition ex_updated_store : gmap string Node :=
  match ex_updated with
  | Some (_, _, fs) => fs
  | None => ∅
  end.

End Yumdb.

(* ===================================================================== *)
(** * hy-query.c: staging by string and reldep; three producers *)
(* ===================================================================== *)

Module QueryFilters.
Import Solv Query.

(** ** Which keys take which kind of match. *)
Definition match_type_reldep (k : Keyname) : bool :=
  match k with
  | HY_PKG_CONFLICTS | HY_PKG_ENHANCES | HY_PKG_OBSOLETES | HY_PKG_PROVIDES
  | HY_PKG_RECOMMENDS | HY_PKG_REQUIRES | HY_PKG_SUGGESTS
  | HY_PKG_SUPPLEMENTS => true
  | _ => false
  end.

Definition match_type_str (k : Keyname) : bool :=
  match k with
  | HY_PKG_ADVISORY | HY_PKG_ADVISORY_BUG | HY_PKG_ADVISORY_CVE
  | HY_PKG_ADVISORY_SEVERITY | HY_PKG_ADVISORY_TYPE | HY_PKG_ARCH
  | HY_PKG_DESCRIPTION | HY_PKG_ENHANCES | HY_PKG_EVR | HY_PKG_FILE
  | HY_PKG_LOCATION | HY_PKG_NAME | HY_PKG_NEVRA | HY_PKG_PROVIDES
  | HY_PKG_RECOMMENDS | HY_PKG_RELEASE | HY_PKG_REPONAME | HY_PKG_REQUIRES
  | HY_PKG_SOURCERPM | HY_PKG_SUGGESTS | HY_PKG_SUMMARY | HY_PKG_SUPPLEMENTS
  | HY_PKG_OBSOLETES | HY_PKG_CONFLICTS | HY_PKG_URL | HY_PKG_VERSION => true
  | _ => false
  end.

(** [cmp_type &= ~HY_NOT]. *)
Definition without_NOT (cmp_type : Z) : Z := Z.land cmp_type (Z.lnot HY_NOT).

Definition valid_filter_str (k : Keyname) (cmp_type : Z) : bool :=
  if negb (match_type_str k) then false
  else
    let cmp_type := without_NOT cmp_type in   (* hy_query_run always handles NOT *)
    match k with
    | HY_PKG_LOCATION | HY_PKG_SOURCERPM => cmp_type =? HY_EQ
    | _ => true
    end.

Definition valid_filter_reldep (k : Keyname) : bool := match_type_reldep k.

(** ** Staging.
    Each function gives the status returned and the query afterwards. *)
Definition stage_filter (q : HyQuery) (f : Filter) : option DnfError * HyQuery :=
  (None, query_add_filter (set_applied q false) f).

Definition hy_query_filter_reldep (q : HyQuery) (k : Keyname) (reldep : Id)
  : option DnfError * HyQuery :=
  if negb (valid_filter_reldep k) then (Some DNF_ERROR_BAD_QUERY, q)
  else stage_filter q (mkFilter HY_EQ k _HY_RELDEP [MReldep reldep]).

Definition hy_query_filter_reldep_in (q : HyQuery) (k : Keyname)
  (reldeplist : list Id) : option DnfError * HyQuery :=
  if negb (valid_filter_reldep k) then (Some DNF_ERROR_BAD_QUERY, q)
  else stage_filter q (mkFilter HY_EQ k _HY_RELDEP (List.map MReldep reldeplist)).

(** Parsing a reldep out of a string is the sack's business. *)
Record ReldepParser := mkReldepParser {
  reldep_from_str : string -> option Id;
  reldeplist_from_str : string -> list Id
}.

Definition hy_query_filter (P : ReldepParser) (q : HyQuery) (k : Keyname)
  (cmp_type : Z) (mtch : string) : option DnfError * HyQuery :=
  if negb (valid_filter_str k cmp_type) then (Some DNF_ERROR_BAD_QUERY, q)
  else
    let q := set_applied q false in
    match k with
    | HY_PKG_CONFLICTS | HY_PKG_ENHANCES | HY_PKG_OBSOLETES | HY_PKG_PROVIDES
    | HY_PKG_RECOMMENDS | HY_PKG_REQUIRES | HY_PKG_SUGGESTS
    | HY_PKG_SUPPLEMENTS =>
        if cmp_type =? HY_GLOB then
          (None, snd (hy_query_filter_reldep_in q k (reldeplist_from_str P mtch)))
        else
          match reldep_from_str P mtch with
          | None => (None, hy_query_filter_empty q)
          | Some reldep => hy_query_filter_reldep q k reldep
          end
    | _ =>
        (None, query_add_filter q (mkFilter cmp_type k _HY_STR [MStr mtch]))
    end.

Definition hy_query_filter_in (q : HyQuery) (k : Keyname) (cmp_type : Z)
  (mtchs : list string) : option DnfError * HyQuery :=
  if negb (valid_filter_str k cmp_type) then (Some DNF_ERROR_BAD_QUERY, q)
  else stage_filter q (mkFilter cmp_type k _HY_STR (List.map MStr mtchs)).

(** No modifier is set on the query. *)
Definition no_modifiers (q : HyQuery) : bool :=
  negb (downgradable q || downgrades q || updatable q || updates q || latest q).

(** Nothing stale is left on the query: when it is marked applied, no
    filter is staged on it ([hy_query_filter_empty] is the one function
    that stages a filter and leaves the mark), no modifier is set, and its
    result bitmap is as wide as a bitmap for the pool.  A query that is not
    marked applied is up to date. *)
Definition up_to_date (pool : Pool) (q : HyQuery) : Prop :=
  applied q = true ->
  filters q = [] /\ no_modifiers q = true /\
  result_size q = map_size (nsolvables pool).

(** [hy_query_clear]: the result and the staged filters go, [applied]
    stays. *)
Definition hy_query_clear (q : HyQuery) : HyQuery :=
  clear_filters (mkQuery (flags q) None 0 (filters q) (applied q)
                         (downgradable q) (downgrades q) (updatable q)
                         (updates q) (latest q) (latest_per_arch q)).


(** ** Producers.
    A filter of the keys below is staged with string (or reldep) matches;
    reading another member of the match union is not modelled: [None]. *)
Fixpoint strs_of (ms : list Match) : option (list string) :=
  match ms with
  | [] => Some []
  | MStr s :: rest =>
      match strs_of rest with
      | Some l => Some (s :: l)
      | None => None
      end
  | _ :: _ => None
  end.

Fixpoint reldeps_of (ms : list Match) : option (list Id) :=
  match ms with
  | [] => Some []
  | MReldep r :: rest =>
      match reldeps_of rest with
      | Some l => Some (r :: l)
      | None => None
      end
  | _ :: _ => None
  end.

(** The test [(cmp > 0 && cmp_type & HY_GT) || (cmp < 0 && cmp_type & HY_LT)
    || (cmp == 0 && cmp_type & HY_EQ)]. *)
Definition cmp_selects (cmp_type cmp : Z) : bool :=
  ((0 <? cmp) && negb (Z.land cmp_type HY_GT =? 0))
  || ((cmp <? 0) && negb (Z.land cmp_type HY_LT =? 0))
  || ((cmp =? 0) && negb (Z.land cmp_type HY_EQ =? 0)).

(** [filter_evr]; [pool_str2id] interns the match (with [create] set). *)
Definition filter_evr (pool_str2id : string -> Id) : Producer :=
  fun pool res f m =>
    match strs_of (matches f) with
    | None => None
    | Some strs =>
        Some (fold_left
                (fun m str =>
                   let match_evr := pool_str2id str in
                   fold_left
                     (fun m id =>
                        if negb (MAPTST res id) then m
                        else
                          let s := pool_id2solvable pool id in
                          let cmp := pool_evrcmp pool (s_evr s) match_evr in
                          if cmp_selects (cmp_type f) cmp then MAPSET m id
                          else m)
                     (id_range 1 (nsolvables pool)) m)
                strs m)
    end.

(** [filter_reponame]; [repo_name] gives the name of the repo with an id,
    [ourids] marks the repos named by a match.  The walk over the solvables
    stops at a failed assertion. *)
Definition filter_reponame (repo_name : Id -> option string) : Producer :=
  fun pool res f m =>
    match strs_of (matches f) with
    | None => None
    | Some strs =>
        let ourids (id : Id) : bool :=
          match repo_name id with
          | Some name => existsb (String.eqb name) strs
          | None => false
          end in
        fold_left
          (fun om i =>
             match om with
             | None => None
             | Some m =>
                 if negb (MAPTST res i) then Some m
                 else
                   let s := pool_id2solvable pool i in
                   if Z.land (cmp_type f) (Z.lnot HY_COMPARISON_FLAG_MASK)
                      =? HY_EQ
                   then
                     if negb (s_repo s =? 0) && ourids (s_repo s)
                     then Some (MAPSET m i)
                     else Some m
                   else None                          (* assert(0) *)
             end)
          (id_range 1 (nsolvables pool)) (Some m)
    end.

(** [filter_provides_reldep]. *)
Definition filter_provides_reldep : Producer :=
  fun pool res f m =>
    match reldeps_of (matches f) with
    | None => None
    | Some reldeps =>
        Some (fold_left
                (fun m r_id => fold_left MAPSET (whatprovides pool r_id) m)
                reldeps m)
    end.

(** The producers [X] with the three above in place. *)
Definition with_filters (X : Producers) (pool_str2id : string -> Id)
  (repo_name : Id -> option string) : Producers :=
  mkProducers (Query.filter_rco_reldep X) (Query.filter_epoch X)
              (filter_evr pool_str2id) (Query.filter_nevra X)
              (Query.filter_version X) (Query.filter_release X)
              (Query.filter_sourcerpm X) (Query.filter_obsoletes X)
              filter_provides_reldep (filter_reponame repo_name)
              (Query.filter_location X) (Query.filter_advisory X)
              (Query.filter_dataiterator X).

(** The list the block loop of [filter_latest] has in hand: [highest], if
    any, then the ids still to come. *)
Definition in_hand (hp : option Id) (l : list Id) : list Id :=
  match hp with
  | Some h => h :: l
  | None => l
  end.

(** ** On the small sack: the EVR "1" is the id 1, "2" the id 2; repo 1 is
    named "main". *)
Definition ex_str2id (s : string) : Id :=
  if String.eqb s "1" then 1 else if String.eqb s "2" then 2 else 3.

Definition ex_repo_name (id : Id) : option string :=
  if id =? 1 then Some "main"%string else None.

Definition ex_parser : ReldepParser :=
  mkReldepParser (fun _ => None) (fun _ => []).

Definition ex_filters : Producers :=
  with_filters ex_producers ex_str2id ex_repo_name.

(** The query "package not in {3}" after it was run on the small sack: it
    lists 2 and 4. *)
Definition ex_listed : HyQuery :=
  clear_filters
    (set_result
       (with_result ex_pool
          (snd (hy_query_filter_package_in hy_query_create HY_PKG HY_NEQ 8%N)))
       20%N true).

(** The query for everything after it was run on the small system: it
    lists the five packages. *)
Definition ex_listed_system : HyQuery :=
  clear_filters
    (set_result (with_result Goal.ex_system hy_query_create) 124%N true).

End QueryFilters.

(* ===================================================================== *)
(** * hy-goal.c: the rest of the staging interface *)
(* ===================================================================== *)

Module GoalStaging.
Import Solv Query Package Goal.

Definition hy_goal_has_actions (goal : HyGoal) (action : Z) : Z :=
  Z.land (actions goal) action.

(** [goal->staging.count / 2]. *)
Definition hy_goal_req_length (goal : HyGoal) : Z :=
  Z.of_nat (length (staging goal)) / 2.

Definition hy_goal_distupgrade (goal : HyGoal) (new_pkg : HifPackage)
  : Z * HyGoal :=
  (0, stage goal HIF_DISTUPGRADE
        (queue_push2 (staging goal) (Z.lor SOLVER_SOLVABLE SOLVER_DISTUPGRADE)
                     (hif_package_get_id new_pkg))).

Definition hy_goal_downgrade_to (goal : HyGoal) (new_pkg : HifPackage)
  : Z * HyGoal :=
  hy_goal_install (stage goal HIF_DOWNGRADE (staging goal)) new_pkg.

(** [hy_goal_upgrade_to_flags]; [installed_named] is [None] when
    [HY_CHECK_INSTALLED] is not among the flags, and otherwise the list the
    query for the installed packages of that name returned. *)
Definition hy_goal_upgrade_to_flags (goal : HyGoal) (new_pkg : HifPackage)
  (installed_named : option (list Id)) : Status * HyGoal :=
  let stopped :=
    match installed_named with
    | Some installed => (length installed =? 0)%nat
    | None => false
    end in
  if stopped then (RcErr HIF_ERROR_PACKAGE_NOT_FOUND, goal)
  else (Rc0, snd (hy_goal_install (stage goal HIF_UPGRADE (staging goal)) new_pkg)).

Definition hy_goal_upgrade_to (goal : HyGoal) (new_pkg : HifPackage)
  : Status * HyGoal :=
  hy_goal_upgrade_to_flags (stage goal HIF_UPGRADE (staging goal)) new_pkg None.

Definition hy_goal_upgrade_to_selector (L : SelectionLib) (pool : Pool)
  (goal : HyGoal) (sltr : HySelector) : option (Status * HyGoal) :=
  match f_evr sltr with
  | None => stage_selector L pool goal HIF_UPGRADE sltr SOLVER_UPDATE
  | Some _ => stage_selector L pool goal HIF_UPGRADE sltr SOLVER_INSTALL
  end.

Definition hy_goal_install_selector_optional (L : SelectionLib) (pool : Pool)
  (goal : HyGoal) (sltr : HySelector)
  : option (bool * option (Status * string) * HyGoal) :=
  match stage_selector L pool goal HIF_INSTALL sltr
                       (Z.lor SOLVER_INSTALL SOLVER_WEAK) with
  | None => None
  | Some (Rc0, goal') => Some (true, None, goal')
  | Some (rc, goal') =>
      Some (false, Some (rc, "failed to install optional selector"%string), goal')
  end.

Definition hy_goal_userinstalled (goal : HyGoal) (pkg : HifPackage)
  : Z * HyGoal :=
  (0, stage goal 0
        (queue_push2 (staging goal) (Z.lor SOLVER_SOLVABLE SOLVER_USERINSTALLED)
                     (hif_package_get_id pkg))).

(** ** A call of the staging interface, and the goal it leaves.
    [None] is a failed assertion. *)
Inductive StagingCall :=
| CallInstall (pkg : HifPackage)
| CallInstallOptional (pkg : HifPackage)
| CallErase (pkg : HifPackage)
| CallEraseFlags (pkg : HifPackage) (flags : Z)
| CallDistupgrade (pkg : HifPackage)
| CallDistupgradeAll
| CallDowngradeTo (pkg : HifPackage)
| CallUpgradeAll
| CallUpgradeTo (pkg : HifPackage)
| CallUpgradeToFlags (pkg : HifPackage) (installed_named : option (list Id))
| CallUserinstalled (pkg : HifPackage)
| CallInstallSelector (sltr : HySelector)
| CallInstallSelectorOptional (sltr : HySelector)
| CallEraseSelector (sltr : HySelector)
| CallEraseSelectorFlags (sltr : HySelector) (flags : Z)
| CallUpgradeSelector (sltr : HySelector)
| CallUpgradeToSelector (sltr : HySelector)
| CallDistupgradeSelector (sltr : HySelector).

Definition staging_call (L : SelectionLib) (pool : Pool) (c : StagingCall)
  (goal : HyGoal) : option HyGoal :=
  match c with
  | CallInstall pkg => Some (snd (hy_goal_install goal pkg))
  | CallInstallOptional pkg => Some (snd (hy_goal_install_optional goal pkg))
  | CallErase pkg => option_map snd (hy_goal_erase pool goal pkg)
  | CallEraseFlags pkg flags =>
      option_map snd (hy_goal_erase_flags pool goal pkg flags)
  | CallDistupgrade pkg => Some (snd (hy_goal_distupgrade goal pkg))
  | CallDistupgradeAll => Some (snd (hy_goal_distupgrade_all goal))
  | CallDowngradeTo pkg => Some (snd (hy_goal_downgrade_to goal pkg))
  | CallUpgradeAll => Some (snd (hy_goal_upgrade_all goal))
  | CallUpgradeTo pkg => Some (snd (hy_goal_upgrade_to goal pkg))
  | CallUpgradeToFlags pkg installed_named =>
      Some (snd (hy_goal_upgrade_to_flags goal pkg installed_named))
  | CallUserinstalled pkg => Some (snd (hy_goal_userinstalled goal pkg))
  | CallInstallSelector sltr =>
      option_map snd (hy_goal_install_selector L pool goal sltr)
  | CallInstallSelectorOptional sltr =>
      option_map snd (hy_goal_install_selector_optional L pool goal sltr)
  | CallEraseSelector sltr =>
      option_map snd (hy_goal_erase_selector L pool goal sltr)
  | CallEraseSelectorFlags sltr flags =>
      option_map snd (hy_goal_erase_selector_flags L pool goal sltr flags)
  | CallUpgradeSelector sltr =>
      option_map snd (hy_goal_upgrade_selector L pool goal sltr)
  | CallUpgradeToSelector sltr =>
      option_map snd (hy_goal_upgrade_to_selector L pool goal sltr)
  | CallDistupgradeSelector sltr =>
      option_map snd (hy_goal_distupgrade_selector L pool goal sltr)
  end.

(** The calls of [cs] made one after the other. *)
Fixpoint staging_calls (L : SelectionLib) (pool : Pool) (cs : list StagingCall)
  (goal : HyGoal) : option HyGoal :=
  match cs with
  | [] => Some goal
  | c :: rest =>
      match staging_call L pool c goal with
      | None => None
      | Some goal' => staging_calls L pool rest goal'
      end
  end.

End GoalStaging.

(* ===================================================================== *)
(** * hif-transaction.c: what a commit hands to rpm and to the filesystem *)
(* ===================================================================== *)

Module TransactionLog.
Import Solv Package Goal Transaction.

(** The transaction a phase leaves, whether it went on or stopped. *)
Definition phase_priv (p : Phase) : Priv :=
  match p with
  | Go priv => priv
  | Stop _ priv => priv
  end.



(** The file names of the packages of [l] that start with the cache
    directory, in the order of [l]. *)
Definition cached_files (env : Env) (cachedir : string) (l : list HifPackage)
  : list string :=
  List.filter (String.prefix cachedir)
              (List.map (fun pkg => package_filename env (pkg_id pkg)) l).

(** The small transaction after kernel-2 (solvable 5) and kernel-1
    (solvable 4) were installed. *)
Definition ex_installed_priv : Priv :=
  set_install ex_priv [hif_package_new 5; hif_package_new 4].

(** The package ids handed to the downloader, repo by repo. *)
Definition downloads (groups : list (Id * list Id)) : list Call :=
  List.map (fun g => DownloadPackages (fst g) (snd g)) groups.

(** An environment in which every download and every step succeeds. *)
Definition downloads_succeed (env : Env) : Prop :=
  (forall repo pkgs, repo_download_packages env repo pkgs = None) /\
  state_done env DoneDownload = None.


(** The small environment, where the repo of package 5 was never set. *)
Definition ex_env_unset : Env :=
  mkEnv (take_lock ex_env) (set_steps ex_env) (add_public_keys ex_env)
        (check_untrusted ex_env) (set_root_dir ex_env) (ensure_repo ex_env)
        (package_filename ex_env) (package_id ex_env)
        (fun p => if p =? 5 then None else Some 2)
        (package_downloadsize ex_env) (add_install_filename ex_env)
        (add_remove_pkg ex_env) (state_done ex_env) (check_transaction ex_env)
        (check_disk_space ex_env) (keep_cache ex_env) (look_for_problems ex_env)
        (run_transaction ex_env) (write_yumdb ex_env) (file_delete ex_env)
        (repo_download_packages ex_env) (cache_dir ex_env)
        (query_filesystem_info ex_env) (g_format_size ex_env) (show_int ex_env).

(** The small environment with a cache that is not to be kept, where the
    file of kernel-1 (solvable 4) is outside the cache. *)
Definition ex_env_local : Env :=
  mkEnv (take_lock ex_env) (set_steps ex_env) (add_public_keys ex_env)
        (check_untrusted ex_env) (set_root_dir ex_env) (ensure_repo ex_env)
        (fun p => if p =? 4 then "/home/me/kernel-1.rpm"%string
                  else "/var/cache/kernel-2.rpm"%string)
        (package_id ex_env) (package_repo ex_env)
        (package_downloadsize ex_env) (add_install_filename ex_env)
        (add_remove_pkg ex_env) (state_done ex_env) (check_transaction ex_env)
        (check_disk_space ex_env) false (look_for_problems ex_env)
        (run_transaction ex_env) (write_yumdb ex_env) (file_delete ex_env)
        (repo_download_packages ex_env) (cache_dir ex_env)
        (query_filesystem_info ex_env) (g_format_size ex_env) (show_int ex_env).

End TransactionLog.

(* ===================================================================== *)
(** * Properties of the query engine *)
(* ===================================================================== *)

Module QueryFacts.
Import Solv Query.

Lemma MAPTST_and (t s : Map) (i : Id) :
  MAPTST (map_and t s) i = MAPTST t i && MAPTST s i.
Proof. apply N.land_spec. Qed.

Lemma MAPTST_or (t s : Map) (i : Id) :
  MAPTST (map_or t s) i = MAPTST t i || MAPTST s i.
Proof. apply N.lor_spec. Qed.

Lemma MAPTST_subtract (t s : Map) (i : Id) :
  MAPTST (map_subtract t s) i = MAPTST t i && negb (MAPTST s i).
Proof. apply N.ldiff_spec. Qed.

Lemma MAPTST_empty (i : Id) : MAPTST map_empty i = false.
Proof. apply N.bits_0. Qed.

(** Two bitmaps with the same members are the same bitmap. *)
Lemma map_ext (a b : Map) :
  (forall i : Id, 0 <= i -> MAPTST a i = MAPTST b i) -> a = b.
Proof.
  intros H. apply N.bits_inj. intros n.
  specialize (H (Z.of_N n) (N2Z.is_nonneg n)).
  unfold MAPTST in H. now rewrite N2Z.id in H.
Qed.

Lemma MAPTST_MAPSET (m : Map) (i j : Id) :
  0 <= i -> 0 <= j ->
  MAPTST (MAPSET m i) j = (i =? j) || MAPTST m j.
Proof.
  intros Hi Hj. unfold MAPTST, MAPSET.
  rewrite N.setbit_eqb.
  f_equal.
  destruct (Z.eqb_spec i j) as [->|Hne].
  - apply N.eqb_refl.
  - apply N.eqb_neq. intros E. apply Hne.
    rewrite <- (Z2N.id i), <- (Z2N.id j) by assumption. now rewrite E.
Qed.

Lemma in_id_range (lo hi i : Z) : In i (id_range lo hi) <-> lo <= i < hi.
Proof.
  unfold id_range. rewrite in_map_iff. split.
  - intros [k [<- Hk]]. apply in_seq in Hk. lia.
  - intros H. exists (Z.to_nat (i - lo)). split; [lia|].
    apply in_seq. lia.
Qed.

Lemma MAPTST_fold_MAPSET (l : list Id) (m : Map) (i : Id) :
  Forall (fun x => 0 <= x) l -> 0 <= i ->
  MAPTST (fold_left MAPSET l m) i = existsb (Z.eqb i) l || MAPTST m i.
Proof.
  intros Hl Hi. revert m. induction Hl as [|x l Hx Hl IH]; intros m; simpl.
  - reflexivity.
  - rewrite IH, MAPTST_MAPSET by assumption.
    rewrite (Z.eqb_sym i x). 
    destruct (x =? i), (existsb (Z.eqb i) l), (MAPTST m i); reflexivity.
Qed.

Lemma FOR_PKG_SOLVABLES_range (pool : Pool) (i : Id) :
  In i (FOR_PKG_SOLVABLES pool) -> 2 <= i < nsolvables pool.
Proof.
  unfold FOR_PKG_SOLVABLES. intros H. apply filter_In in H.
  destruct H as [H _]. now apply in_id_range in H.
Qed.

Lemma existsb_eqb_In (i : Z) (l : list Z) : existsb (Z.eqb i) l = true <-> In i l.
Proof.
  rewrite existsb_exists. split.
  - intros [x [Hx E]]. apply Z.eqb_eq in E. now subst.
  - intros H. exists i. split; [assumption | apply Z.eqb_refl].
Qed.

Lemma MAPTST_ones (n i : Z) : 0 <= i -> MAPTST (N.ones (Z.to_N n)) i = (i <? n).
Proof.
  intros Hi. unfold MAPTST.
  destruct (Z.ltb_spec i n).
  - apply N.ones_spec_low. lia.
  - apply N.ones_spec_high. lia.
Qed.

Lemma init_result_spec (pool : Pool) (q : HyQuery) (i : Id) :
  0 <= i -> (MAPTST (init_result pool q) i = true <-> spec_initial pool q i).
Proof.
  intros Hi. unfold init_result, spec_initial.
  assert (Hpos : Forall (fun x => 0 <= x) (FOR_PKG_SOLVABLES pool)).
  { apply List.Forall_forall. intros x Hx. apply FOR_PKG_SOLVABLES_range in Hx. lia. }
  assert (Hset : MAPTST (fold_left MAPSET (FOR_PKG_SOLVABLES pool) map_empty) i = true
                 <-> In i (FOR_PKG_SOLVABLES pool)).
  { rewrite MAPTST_fold_MAPSET, MAPTST_empty, orb_false_r by assumption.
    apply existsb_eqb_In. }
  change (N.land ?a ?b) with (map_and a b).
  rewrite MAPTST_and, MAPTST_ones, andb_true_iff by assumption.
  rewrite Z.ltb_lt.
  destruct (Z.eqb_spec (Z.land (flags q) HY_IGNORE_EXCLUDES) 0) as [E|E].
  - destruct (considered pool) as [c|].
    + rewrite MAPTST_and, andb_true_iff, Hset. split.
      * intros [[H1 H2] _]. split; [assumption | now right].
      * intros [H1 [H2|H2]]; [congruence|].
        split; [now split | apply FOR_PKG_SOLVABLES_range in H1; lia].
    + rewrite Hset. split.
      * intros [H1 _]. split; [assumption | now right].
      * intros [H1 _]. split; [assumption | apply FOR_PKG_SOLVABLES_range in H1; lia].
  - rewrite Hset. split.
    + intros [H1 _]. split; [assumption | now left].
    + intros [H1 _]. split; [assumption | apply FOR_PKG_SOLVABLES_range in H1; lia].
Qed.

Lemma apply_filter_round (X : Producers) (pool : Pool) (r r' : Map) (f : Filter) :
  apply_filter X pool r f = Some r' <->
  exists m, filter_dispatch X pool r f map_empty = Some m /\
            forall i : Id, 0 <= i ->
              MAPTST r' i = if has_NOT f then MAPTST r i && negb (MAPTST m i)
                            else MAPTST r i && MAPTST m i.
Proof.
  unfold apply_filter, has_NOT. split.
  - destruct (filter_dispatch X pool r f map_empty) as [m|]; [|discriminate].
    intros H. exists m. split; [reflexivity|]. intros i _.
    destruct (negb (Z.land (cmp_type f) HY_NOT =? 0));
      injection H as <-; [apply MAPTST_subtract | apply MAPTST_and].
  - intros [m [-> H]].
    destruct (negb (Z.land (cmp_type f) HY_NOT =? 0)); f_equal;
      symmetry; apply map_ext; intros i Hi; rewrite (H i Hi);
      [symmetry; apply MAPTST_subtract | symmetry; apply MAPTST_and].
Qed.

Lemma apply_filters_rounds (X : Producers) (pool : Pool) (fs : list Filter) :
  forall r r', apply_filters X pool r fs = Some r' <-> spec_rounds X pool r fs r'.
Proof.
  induction fs as [|f fs IH]; intros r r'; simpl.
  - split.
    + intros H. injection H as <-. constructor.
    + intros H. inversion H. reflexivity.
  - split.
    + destruct (apply_filter X pool r f) as [r1|] eqn:E; [|discriminate].
      intros H. apply apply_filter_round in E. destruct E as [m [Hm Hb]].
      apply IH in H. econstructor; eassumption.
    + intros H. inversion H as [|r0 f0 fs0 m r1 r2 Hm Hb Hr]; subst.
      assert (E : apply_filter X pool r f = Some r1).
      { apply apply_filter_round. exists m. now split. }
      rewrite E. now apply IH.
Qed.

(** An applied query is left as it is. *)
Lemma apply_applied (X : Producers) (pool : Pool) (q : HyQuery) :
  applied q = true -> hy_query_apply X pool q = Some q.
Proof. intros H. unfold hy_query_apply. now rewrite H. Qed.

(** [hy_query_apply] on a query that is not marked applied. *)
Lemma apply_unapplied (X : Producers) (pool : Pool) (q : HyQuery) :
  applied q = false ->
  hy_query_apply X pool q
  = if map_size (nsolvables pool) =? result_size (with_result pool q)
    then match apply_filters X pool (starting_result pool q) (filters q) with
         | None => None
         | Some r1 =>
             match apply_modifiers pool q r1 with
             | None => None
             | Some r2 =>
                 Some (clear_filters (set_result (with_result pool q) r2 true))
             end
         end
    else None.
Proof.
  intros Ha. unfold hy_query_apply. rewrite Ha.
  unfold starting_result, with_result, c_assert.
  destruct (result q) as [r|] eqn:R.
  - rewrite R. destruct (_ =? _); reflexivity.
  - cbn [result result_size filters]. destruct (_ =? _); reflexivity.
Qed.

(** Whatever [hy_query_apply] returns is marked applied. *)
Lemma apply_marks_applied (X : Producers) (pool : Pool) (q q' : HyQuery) :
  hy_query_apply X pool q = Some q' -> applied q' = true.
Proof.
  destruct (applied q) eqn:Ha.
  - rewrite (apply_applied X pool q Ha). intros H. now injection H as <-.
  - rewrite (apply_unapplied X pool q Ha).
    destruct (_ =? _); [|discriminate].
    destruct (apply_filters _ _ _ _); [|discriminate].
    destruct (apply_modifiers _ _ _); [|discriminate].
    intros H. now injection H as <-.
Qed.

(** C3 (as amended).  [hy_query_apply] leaves a query that is marked
    applied as it is.  For a query that is not, it starts from the result
    bitmap the query already holds or, when it holds none, from the
    package-kind solvables that are considered (all of them under
    [HY_IGNORE_EXCLUDES]); it asserts that this bitmap is as wide as a
    bitmap for the pool; it then runs the staged filters in insertion
    order, each round subtracting the filter's bitmap when the comparison
    type has the NOT bit and intersecting with it otherwise, applies the
    modifiers, marks the query applied and drops the staged filters.  It
    returns exactly when the assertion holds and every round and modifier
    returns. *)
Theorem apply_evaluates_staged_filters (X : Producers) (pool : Pool) (q : HyQuery) :
  (applied q = true -> hy_query_apply X pool q = Some q) /\
  (applied q = false ->
   (result q = None ->
    width_asserted pool q /\
    forall i : Id, 0 <= i ->
      (MAPTST (starting_result pool q) i = true <-> spec_initial pool q i)) /\
   (forall q' : HyQuery,
      hy_query_apply X pool q = Some q' <->
      width_asserted pool q /\
      exists r1 r2 : Map,
        spec_rounds X pool (starting_result pool q) (filters q) r1 /\
        apply_modifiers pool q r1 = Some r2 /\
        q' = clear_filters (set_result (with_result pool q) r2 true))).
Proof.
  split; [apply apply_applied|].
  intros Ha. split.
  - intros Hr. split.
    + unfold width_asserted, with_result. now rewrite Hr.
    + intros i Hi. unfold starting_result. rewrite Hr. now apply init_result_spec.
  - intros q'. rewrite (apply_unapplied X pool q Ha). unfold width_asserted.
    destruct (Z.eqb_spec (map_size (nsolvables pool))
                         (result_size (with_result pool q))) as [E|E].
    + split.
      * destruct (apply_filters X pool (starting_result pool q) (filters q))
          as [r1|] eqn:E1; [|discriminate].
        destruct (apply_modifiers pool q r1) as [r2|] eqn:E2; [|discriminate].
        intros H. injection H as <-. split; [now symmetry|]. exists r1, r2.
        split; [now apply apply_filters_rounds | now split].
      * intros [_ [r1 [r2 [H1 [H2 ->]]]]].
        apply apply_filters_rounds in H1. now rewrite H1, H2.
    + split; [discriminate|]. intros [H _]. now symmetry in H.
Qed.

Lemma apply_evaluates_witness :
  applied ex_staged = false /\
  hy_query_apply ex_producers ex_pool ex_staged
  = Some (clear_filters (set_result (with_result ex_pool ex_staged) 16%N true)) /\
  width_asserted ex_pool ex_staged /\
  exists r1 r2 : Map,
    spec_rounds ex_producers ex_pool (starting_result ex_pool ex_staged)
                (filters ex_staged) r1 /\
    apply_modifiers ex_pool ex_staged r1 = Some r2 /\
    clear_filters (set_result (with_result ex_pool ex_staged) 16%N true)
    = clear_filters (set_result (with_result ex_pool ex_staged) r2 true).
Proof.
  split; [reflexivity|].
  assert (E : hy_query_apply ex_producers ex_pool ex_staged
              = Some (clear_filters
                        (set_result (with_result ex_pool ex_staged) 16%N true)))
    by (vm_compute; reflexivity).
  split; [exact E|].
  exact (proj1 (proj2 (proj2 (apply_evaluates_staged_filters ex_producers ex_pool
                                ex_staged) eq_refl) _) E).
Defined.

(** C3 as stated fails: a query that already holds a result is not
    initialized again.  On the small sack, the query narrowed to nothing and
    then given the filter "package in {2}" evaluates to the empty set,
    where an evaluation from scratch would give {2}. *)
Lemma apply_always_initializes_fails : ~ apply_always_initializes.
Proof.
  intros H.
  destruct ex_restaged as [q|] eqn:Eq; [|discriminate].
  destruct (hy_query_apply ex_producers ex_pool q) as [q'|] eqn:Ea;
    [|vm_compute in Eq; injection Eq as <-; discriminate].
  specialize (H ex_producers ex_pool q q' Ea).
  vm_compute in Eq. injection Eq as <-.
  vm_compute in Ea. injection Ea as <-.
  discriminate.
Qed.

Lemma land_via_ldiff (a b : Map) : map_and a b = map_subtract a (map_subtract a b).
Proof.
  apply map_ext. intros i _.
  rewrite MAPTST_and, !MAPTST_subtract.
  destruct (MAPTST a i), (MAPTST b i); reflexivity.
Qed.

Lemma combine_applied (op : Map -> Map -> Map) (X : Producers) (pool : Pool)
  (a b : HyQuery) (ra rb : Map) :
  applied a = true -> applied b = true ->
  result a = Some ra -> result b = Some rb ->
  combine op X pool a b = Some (set_result a (op ra rb) true, b).
Proof.
  intros Ha Hb Hra Hrb. unfold combine.
  rewrite (apply_applied X pool a Ha), (apply_applied X pool b Hb).
  now rewrite Hra, Hrb, Ha.
Qed.

(** C8.  For applied queries [a], [b], [c] over one sack: union is
    commutative and associative, [a /\ b] is [a - (a - b)] (the inner
    difference taken on a copy of [a], since the operations work in place),
    and [a - a] is empty; each combination is defined and leaves the stated
    bitmap in the first query. *)
Theorem query_set_algebra (X : Producers) (pool : Pool) (a b c : HyQuery)
  (ra rb rc : Map) :
  applied a = true -> applied b = true -> applied c = true ->
  result a = Some ra -> result b = Some rb -> result c = Some rc ->
  (result_of (hy_query_union X pool a b) = Some (map_or ra rb) /\
   result_of (hy_query_union X pool a b)
   = result_of (hy_query_union X pool b a)) /\
  (result_of (and_then (hy_query_union X pool a b)
                       (fun ab => hy_query_union X pool ab c))
   = Some (map_or (map_or ra rb) rc) /\
   result_of (and_then (hy_query_union X pool a b)
                       (fun ab => hy_query_union X pool ab c))
   = result_of (and_then (hy_query_union X pool b c)
                         (fun bc => hy_query_union X pool a bc))) /\
  (result_of (hy_query_intersection X pool a b) = Some (map_and ra rb) /\
   result_of (hy_query_intersection X pool a b)
   = result_of (and_then (hy_query_difference X pool a b)
                         (fun d => hy_query_difference X pool a d))) /\
  result_of (hy_query_difference X pool a a) = Some map_empty.
Proof.
  intros Ha Hb Hc Hra Hrb Hrc.
  unfold hy_query_union, hy_query_intersection, hy_query_difference.
  rewrite !(combine_applied _ X pool a b ra rb Ha Hb Hra Hrb).
  rewrite (combine_applied _ X pool b a rb ra Hb Ha Hrb Hra).
  rewrite (combine_applied _ X pool b c rb rc Hb Hc Hrb Hrc).
  rewrite (combine_applied _ X pool a a ra ra Ha Ha Hra Hra).
  cbn [and_then result_of].
  rewrite (combine_applied map_or X pool (set_result a (map_or ra rb) true) c
             (map_or ra rb) rc eq_refl Hc eq_refl Hrc).
  rewrite (combine_applied map_or X pool a (set_result b (map_or rb rc) true)
             ra (map_or rb rc) Ha eq_refl Hra eq_refl).
  rewrite (combine_applied map_subtract X pool a
             (set_result a (map_subtract ra rb) true)
             ra (map_subtract ra rb) Ha eq_refl Hra eq_refl).
  cbn [result_of result set_result].
  unfold map_or, map_subtract, map_empty.
  repeat split.
  - f_equal. apply N.lor_comm.
  - f_equal. symmetry. apply N.lor_assoc.
  - f_equal. apply land_via_ldiff.
  - f_equal. apply N.ldiff_diag.
Qed.

Lemma query_set_algebra_witness :
  result_of (hy_query_difference ex_producers ex_pool (ex_applied ex_all)
                                 (ex_applied ex_all)) = Some map_empty.
Proof.
  exact (proj2 (proj2 (proj2
    (query_set_algebra ex_producers ex_pool (ex_applied ex_all)
       (ex_applied ex_two) (ex_applied ex_two) ex_all ex_two ex_two
       eq_refl eq_refl eq_refl eq_refl eq_refl eq_refl)))).
Defined.

Lemma apply_filter_empty_filter (X : Producers) (pool : Pool) (r : Map) :
  apply_filter X pool r empty_filter = Some map_empty.
Proof.
  unfold apply_filter. cbn. f_equal. apply N.land_0_r.
Qed.

Lemma apply_filter_from_empty (X : Producers) (pool : Pool) (f : Filter) (r : Map) :
  apply_filter X pool map_empty f = Some r -> r = map_empty.
Proof.
  unfold apply_filter.
  destruct (filter_dispatch X pool map_empty f map_empty) as [m|]; [|discriminate].
  destruct (negb (Z.land (cmp_type f) HY_NOT =? 0)); intros H; injection H as <-.
  - apply (N.ldiff_0_l m).
  - apply (N.land_0_l m).
Qed.

Lemma apply_filters_from_empty (X : Producers) (pool : Pool) (fs : list Filter) (r : Map) :
  apply_filters X pool map_empty fs = Some r -> r = map_empty.
Proof.
  induction fs as [|f fs IH]; simpl.
  - intros H. now injection H as <-.
  - destruct (apply_filter X pool map_empty f) as [r1|] eqn:E; [|discriminate].
    apply apply_filter_from_empty in E. subst r1. exact IH.
Qed.

Lemma apply_filters_with_empty (X : Producers) (pool : Pool) (fs : list Filter) :
  forall r r', In empty_filter fs ->
    apply_filters X pool r fs = Some r' -> r' = map_empty.
Proof.
  induction fs as [|f fs IH]; intros r r' Hin; simpl.
  - destruct Hin.
  - destruct Hin as [->|Hin].
    + rewrite apply_filter_empty_filter. apply apply_filters_from_empty.
    + destruct (apply_filter X pool r f) as [r1|]; [|discriminate].
      now apply IH.
Qed.

Lemma filter_updown_empty (pool : Pool) (d : bool) (r : Map) :
  filter_updown pool d map_empty = Some r -> r = map_empty.
Proof.
  unfold filter_updown. destruct (installed pool); [|discriminate].
  intros H. injection H as <-. unfold map_and, map_empty. now rewrite N.land_0_l.
Qed.

Lemma filter_updown_able_empty (pool : Pool) (d : bool) (r : Map) :
  filter_updown_able pool d map_empty = Some r -> r = map_empty.
Proof.
  unfold filter_updown_able. destruct (installed pool); [|discriminate].
  intros H. injection H as <-. unfold map_and, map_empty. now rewrite N.land_0_l.
Qed.

Lemma filter_latest_empty (pool : Pool) (q : HyQuery) :
  filter_latest pool q map_empty = map_empty.
Proof.
  unfold filter_latest.
  assert (E : List.filter (fun i => MAPTST map_empty i) (id_range 1 (nsolvables pool)) = []).
  { induction (id_range 1 (nsolvables pool)) as [|x l IH]; [reflexivity|].
    cbn [List.filter]. now rewrite MAPTST_empty. }
  now rewrite E.
Qed.

Lemma apply_modifiers_empty (pool : Pool) (q : HyQuery) (r : Map) :
  apply_modifiers pool q map_empty = Some r -> r = map_empty.
Proof.
  unfold apply_modifiers.
  assert (S1 : forall b f o r',
             (forall r0, f map_empty = Some r0 -> r0 = map_empty) ->
             (forall r0, o = Some r0 -> r0 = map_empty) ->
             opt_step b f o = Some r' -> r' = map_empty).
  { intros b f o r' Hf Ho. unfold opt_step. destruct o as [r0|]; [|discriminate].
    rewrite (Ho r0 eq_refl). destruct b.
    - apply Hf.
    - intros H. now injection H as <-. }
  apply S1.
  - intros r0 H. injection H as <-. apply filter_latest_empty.
  - intros r0. apply S1; [apply filter_updown_empty|].
    intros r1. apply S1; [apply filter_updown_able_empty|].
    intros r2. apply S1; [apply filter_updown_empty|].
    intros r3. apply S1; [apply filter_updown_able_empty|].
    intros r4 H. now injection H as <-.
Qed.

(** On a query that is not marked applied, a staged [filter_empty()]
    empties the result, whatever else is staged around it. *)
Lemma filter_empty_unapplied (X : Producers) (pool : Pool) (q q' : HyQuery) :
  applied q = false -> In empty_filter (filters q) ->
  hy_query_apply X pool q = Some q' -> result q' = Some map_empty.
Proof.
  intros Ha Hin. rewrite (apply_unapplied X pool q Ha).
  destruct (_ =? _); [|discriminate].
  destruct (apply_filters X pool _ (filters q)) as [r1|] eqn:E1; [|discriminate].
  apply apply_filters_with_empty in E1; [|assumption]. subst r1.
  destruct (apply_modifiers pool q map_empty) as [r2|] eqn:E2; [|discriminate].
  apply apply_modifiers_empty in E2. subst r2.
  intros H. now injection H as <-.
Qed.

(** C9 at its failing input.  [hy_query_filter_empty] is the one staging
    function that does not reset [applied]: staged on a query that was
    already evaluated, the filter is never run, and the result stays
    {2, 3, 4}. *)
Theorem filter_empty_after_apply_is_ignored :
  exists q1 q2 : HyQuery,
    hy_query_apply ex_producers ex_pool hy_query_create = Some q1 /\
    In empty_filter (filters (hy_query_filter_empty q1)) /\
    hy_query_apply ex_producers ex_pool (hy_query_filter_empty q1) = Some q2 /\
    result q2 = Some ex_all /\
    ex_all <> map_empty.
Proof.
  eexists. eexists. split; [vm_compute; reflexivity|].
  split; [left; reflexivity|].
  split; [vm_compute; reflexivity|].
  split; [reflexivity | discriminate].
Qed.

(** C4 at its failing input.  With [latest] set and [latest_per_arch] not,
    the comparator compares a solvable's name with itself, the candidates
    stay in id order, and foo-1 (id 2) and foo-2 (id 4), separated by bar
    (id 3), both survive. *)
Theorem latest_keeps_two_of_a_name :
  exists q' : HyQuery,
    hy_query_apply ex_producers ex_pool (hy_query_filter_latest hy_query_create true)
    = Some q' /\
    result q' = Some ex_all /\
    MAPTST ex_all 2 = true /\ MAPTST ex_all 4 = true /\
    s_name (pool_id2solvable ex_pool 2) = s_name (pool_id2solvable ex_pool 4) /\
    pool_evrcmp ex_pool (s_evr (pool_id2solvable ex_pool 2))
                        (s_evr (pool_id2solvable ex_pool 4)) < 0.
Proof.
  eexists. split; [vm_compute; reflexivity|].
  repeat split.
Qed.

End QueryFacts.

(* ===================================================================== *)
(** * Properties of the goal *)
(* ===================================================================== *)

Module GoalFacts.
Import Solv Query Package Goal.

Lemma pop_same_name_spec (pool : Pool) (name : Id) (rin : list Id) :
  forall out,
    pop_same_name pool name rin out
    = (drop_same pool name rin, out ++ take_same pool name rin).
Proof.
  induction rin as [|x rin IH]; intros out; simpl.
  - now rewrite app_nil_r.
  - destruct (s_name (pool_id2solvable pool x) =? name).
    + rewrite IH. unfold queue_push. now rewrite <- app_assoc.
    + now rewrite app_nil_r.
Qed.

Lemma same_name_subqueue_rev (pool : Pool) (el : Id) (r : list Id) :
  same_name_subqueue pool (rev (el :: r))
  = (rev (drop_same pool (s_name (pool_id2solvable pool el)) r),
     el :: take_same pool (s_name (pool_id2solvable pool el)) r).
Proof.
  unfold same_name_subqueue, queue_pop.
  rewrite rev_involutive. rewrite rev_involutive.
  now rewrite pop_same_name_spec.
Qed.

Lemma name_runs_cons (pool : Pool) (l : list Id) :
  forall x,
    name_runs pool (x :: l)
    = (x :: take_same pool (s_name (pool_id2solvable pool x)) l)
      :: name_runs pool (drop_same pool (s_name (pool_id2solvable pool x)) l).
Proof.
  induction l as [|y l IH]; intros x.
  - reflexivity.
  - change (name_runs pool (x :: y :: l))
      with (match name_runs pool (y :: l) with
            | (y0 :: g) :: gs =>
                if s_name (pool_id2solvable pool y0) =? s_name (pool_id2solvable pool x)
                then (x :: y0 :: g) :: gs
                else [x] :: (y0 :: g) :: gs
            | _ => [[x]]
            end).
    rewrite (IH y). cbn [take_same drop_same].
    destruct (Z.eqb_spec (s_name (pool_id2solvable pool y))
                         (s_name (pool_id2solvable pool x))) as [E|E].
    + now rewrite E.
    + now rewrite (IH y).
Qed.

Lemma drop_same_length (pool : Pool) (name : Id) (l : list Id) :
  (length (drop_same pool name l) <= length l)%nat.
Proof.
  induction l as [|x l IH]; simpl; [lia|].
  destruct (s_name (pool_id2solvable pool x) =? name); simpl; lia.
Qed.

Lemma push_limit_jobs_spec (limit : Z) (g : list Id) :
  forall j job,
    push_limit_jobs limit j g job
    = job ++ flat_map (job_for SOLVER_INSTALL) (firstn (Z.to_nat (limit - j)) g)
          ++ flat_map (job_for SOLVER_ERASE) (skipn (Z.to_nat (limit - j)) g).
Proof.
  induction g as [|id g IH]; intros j job; simpl.
  - rewrite firstn_nil, skipn_nil. simpl. now rewrite app_nil_r.
  - rewrite IH. unfold queue_push2. rewrite <- app_assoc.
    destruct (Z.ltb_spec j limit) as [Hlt|Hge].
    + replace (Z.to_nat (limit - j)) with (S (Z.to_nat (limit - (j + 1)))) by lia.
      reflexivity.
    + replace (Z.to_nat (limit - j)) with 0%nat by lia.
      replace (Z.to_nat (limit - (j + 1))) with 0%nat by lia.
      reflexivity.
Qed.

Lemma subqueue_loop_spec (pool : Pool) (limit : Z) (fuel : nat) :
  forall (rq : list Id) (job : Queue) (reresolve : bool),
    (length rq <= fuel)%nat ->
    subqueue_loop fuel pool limit (rev rq) job reresolve
    = Some (job ++ flat_map (subqueue_jobs limit) (name_runs pool rq),
            reresolve || existsb (over_limit limit) (name_runs pool rq)).
Proof.
  induction fuel as [|fuel IH]; intros rq job reresolve Hlen.
  - destruct rq; [|simpl in Hlen; lia].
    simpl. now rewrite app_nil_r, orb_false_r.
  - destruct rq as [|el r].
    + simpl. now rewrite app_nil_r, orb_false_r.
    + rewrite name_runs_cons.
      cbn [subqueue_loop].
      destruct (rev (el :: r)) as [|z zs] eqn:Erev.
      { apply (f_equal (@length Id)) in Erev. rewrite length_rev in Erev.
        simpl in Erev. lia. }
      rewrite <- Erev. rewrite same_name_subqueue_rev.
      set (g := el :: take_same pool (s_name (pool_id2solvable pool el)) r).
      set (r' := drop_same pool (s_name (pool_id2solvable pool el)) r).
      assert (Hr' : (length r' <= fuel)%nat).
      { pose proof (drop_same_length pool (s_name (pool_id2solvable pool el)) r).
        simpl in Hlen. subst r'. lia. }
      cbn [flat_map existsb]. unfold subqueue_jobs at 1, over_limit at 1.
      destruct (Z.of_nat (length g) <=? limit).
      * rewrite (IH r' job reresolve Hr'). reflexivity.
      * rewrite (IH r' _ true Hr'). rewrite push_limit_jobs_spec.
        rewrite Z.sub_0_r. cbn [negb]. rewrite orb_true_r.
        now rewrite <- !app_assoc.
Qed.

Lemma limit_one_name_spec (sack : HifSack) (sv : Solver) (job : Queue)
  (reresolve : bool) (name : Id) :
  limit_one_name sack sv (Some (job, reresolve)) name
  = Some (job ++ flat_map (subqueue_jobs (hif_sack_get_installonly_limit sack))
                          (name_subqueues sack sv name),
          reresolve || existsb (over_limit (hif_sack_get_installonly_limit sack))
                               (name_subqueues sack sv name)).
Proof.
  unfold limit_one_name, name_subqueues. fold (decided_providers sack sv name).
  destruct (Z.of_nat (length (decided_providers sack sv name))
            <=? hif_sack_get_installonly_limit sack).
  - simpl. now rewrite app_nil_r, orb_false_r.
  - set (sorted := solv_sort _ _).
    rewrite <- (rev_involutive sorted) at 2.
    apply subqueue_loop_spec. now rewrite length_rev.
Qed.

Lemma limit_names_spec (sack : HifSack) (sv : Solver) (names : list Id) :
  forall job reresolve,
    fold_left (limit_one_name sack sv) names (Some (job, reresolve))
    = Some (job ++ flat_map (subqueue_jobs (hif_sack_get_installonly_limit sack))
                            (flat_map (name_subqueues sack sv) names),
            reresolve || existsb (over_limit (hif_sack_get_installonly_limit sack))
                                 (flat_map (name_subqueues sack sv) names)).
Proof.
  induction names as [|name names IH]; intros job reresolve.
  - simpl. now rewrite app_nil_r, orb_false_r.
  - cbn [fold_left]. rewrite limit_one_name_spec, IH.
    cbn [flat_map]. rewrite flat_map_app, existsb_app.
    now rewrite <- app_assoc, orb_assoc.
Qed.

Lemma limit_installonly_packages_spec (sack : HifSack) (sv : Solver) (job : Queue) :
  limit_installonly_packages sack sv job
  = Some (job ++ flat_map (subqueue_jobs (hif_sack_get_installonly_limit sack))
                          (all_subqueues sack sv),
          existsb (over_limit (hif_sack_get_installonly_limit sack))
                  (all_subqueues sack sv)).
Proof.
  unfold limit_installonly_packages, all_subqueues.
  destruct (hif_sack_get_installonly_limit sack =? 0).
  - simpl. now rewrite app_nil_r.
  - now rewrite limit_names_spec.
Qed.

Lemma sort_insert_perm (cmp : Id -> Id -> Z) (x : Id) (l : list Id) :
  Permutation (sort_insert cmp x l) (x :: l).
Proof.
  induction l as [|y l IH]; simpl.
  - apply Permutation_refl.
  - destruct (0 <? cmp y x).
    + apply Permutation_trans with (y :: x :: l).
      * now apply perm_skip.
      * apply perm_swap.
    + apply Permutation_refl.
Qed.

Lemma sort_loop_perm (cmp : Id -> Id -> Z) (l : list Id) :
  forall rl, Permutation (fold_left (fun rl x => sort_insert cmp x rl) l rl)
                         (l ++ rl).
Proof.
  induction l as [|x l IH]; intros rl; cbn [fold_left app].
  - apply Permutation_refl.
  - apply Permutation_trans with (l ++ sort_insert cmp x rl); [apply IH|].
    apply Permutation_trans with (l ++ x :: rl).
    + apply Permutation_app_head, sort_insert_perm.
    + apply Permutation_sym, Permutation_middle.
Qed.

Lemma solv_sort_perm (cmp : Id -> Id -> Z) (l : list Id) :
  Permutation (solv_sort cmp l) l.
Proof.
  unfold solv_sort.
  apply Permutation_trans with (fold_left (fun rl x => sort_insert cmp x rl) l []).
  - apply Permutation_sym, Permutation_rev.
  - rewrite <- (app_nil_r l) at 2. apply sort_loop_perm.
Qed.

(** The sorted prefix, read from its end, descends. *)
Lemma sort_insert_sorted (cmp : Id -> Id -> Z) (x : Id) (rl : list Id) :
  (forall y, In y rl -> 0 <= cmp y x -> cmp x y <= 0) ->
  Sorted (fun a b => cmp b a <= 0) rl ->
  Sorted (fun a b => cmp b a <= 0) (sort_insert cmp x rl).
Proof.
  intros Hanti Hs. induction Hs as [|y l Hs IH Hhd]; simpl.
  - repeat constructor.
  - destruct (Z.ltb_spec 0 (cmp y x)) as [Hlt|Hge].
    + constructor.
      * apply IH. intros z Hz. apply Hanti. now right.
      * destruct Hhd as [|z l' Hyz]; simpl.
        -- constructor. apply Hanti; [now left | lia].
        -- destruct (0 <? cmp z x); constructor;
             [assumption | apply Hanti; [now left | lia]].
    + constructor; [now constructor|]. constructor. lia.
Qed.

Lemma Sorted_snoc (R : Id -> Id -> Prop) (l : list Id) (y x : Id) :
  Sorted R (l ++ [y]) -> R y x -> Sorted R (l ++ [y; x]).
Proof.
  intros Hs Hyx. induction l as [|a l IH]; cbn [app] in *.
  - repeat constructor. exact Hyx.
  - apply Sorted_inv in Hs. destruct Hs as [Hs Hhd]. constructor.
    + now apply IH.
    + destruct l; cbn [app] in *; inversion Hhd; now constructor.
Qed.

Lemma Sorted_rev (R : Id -> Id -> Prop) (l : list Id) :
  Sorted (fun a b => R b a) l -> Sorted R (rev l).
Proof.
  induction 1 as [|a l Hs IH Hhd]; cbn [rev]; [constructor|].
  destruct Hhd as [|b l' Hab]; [repeat constructor|].
  cbn [rev] in *. rewrite <- app_assoc. cbn [app].
  now apply Sorted_snoc.
Qed.

Lemma solv_sort_sorted (cmp : Id -> Id -> Z) (l : list Id) :
  List.NoDup l ->
  (forall a b, In a l -> In b l -> a <> b -> 0 <= cmp a b -> cmp b a <= 0) ->
  Sorted (fun a b => cmp a b <= 0) (solv_sort cmp l).
Proof.
  intros Hnd Hanti. unfold solv_sort. apply Sorted_rev.
  assert (G : forall rl,
             List.NoDup (l ++ rl) ->
             (forall a b, In a (l ++ rl) -> In b (l ++ rl) -> a <> b ->
                          0 <= cmp a b -> cmp b a <= 0) ->
             Sorted (fun a b => cmp b a <= 0) rl ->
             Sorted (fun a b => cmp b a <= 0)
                    (fold_left (fun rl x => sort_insert cmp x rl) l rl)).
  { clear Hnd Hanti. induction l as [|x l IH]; intros rl Hnd Hanti Hs;
      cbn [fold_left]; [exact Hs|].
    cbn [app] in Hnd, Hanti.
    assert (Hp : Permutation (l ++ sort_insert cmp x rl) (x :: l ++ rl)).
    { apply Permutation_trans with (l ++ x :: rl).
      - apply Permutation_app_head, sort_insert_perm.
      - apply Permutation_sym, Permutation_middle. }
    apply IH.
    - apply (Permutation_NoDup (Permutation_sym Hp) Hnd).
    - intros a b Ha Hb. apply Hanti; eapply Permutation_in; eassumption.
    - apply sort_insert_sorted; [|exact Hs].
      intros y Hy. apply Hanti.
      + right. apply in_or_app. now right.
      + now left.
      + intros ->. apply NoDup_cons_iff in Hnd. apply (proj1 Hnd).
        apply in_or_app. now right. }
  apply G; [now rewrite app_nil_r | now rewrite app_nil_r | constructor].
Qed.

(** Elements that compare equal keep their order. *)
Lemma solv_sort_keeps_ties (cmp : Id -> Id -> Z) (l : list Id) :
  (forall a b, In a l -> In b l -> cmp a b = 0) -> solv_sort cmp l = l.
Proof.
  intros H. unfold solv_sort.
  assert (G : forall l' rl,
             (forall a b, In a (l' ++ rl) -> In b (l' ++ rl) -> cmp a b = 0) ->
             fold_left (fun rl x => sort_insert cmp x rl) l' rl = rev l' ++ rl).
  { induction l' as [|x l' IH]; intros rl Hz; cbn [fold_left rev app];
      [reflexivity|].
    assert (E : sort_insert cmp x rl = x :: rl).
    { destruct rl as [|y rl]; [reflexivity|]. cbn [sort_insert].
      rewrite (Hz y x); [reflexivity| |now left].
      right. apply in_or_app. right. now left. }
    rewrite E, IH, <- app_assoc; [reflexivity|].
    intros a b Ha Hb. apply Hz.
    - apply in_app_or in Ha. destruct Ha as [Ha|[<-|Ha]];
        [right; apply in_or_app; now left | now left
        | right; apply in_or_app; now right].
    - apply in_app_or in Hb. destruct Hb as [Hb|[<-|Hb]];
        [right; apply in_or_app; now left | now left
        | right; apply in_or_app; now right]. }
  rewrite G by (now rewrite app_nil_r). now rewrite app_nil_r, rev_involutive.
Qed.

(** A sorted arrangement of an array on which the comparator is a strict
    order is unique. *)
Lemma sorted_unique (cmp : Id -> Id -> Z) (l s1 s2 : list Id) :
  strict_order_on cmp l ->
  Permutation s1 l -> Permutation s2 l ->
  Sorted (fun a b => cmp a b <= 0) s1 ->
  Sorted (fun a b => cmp a b <= 0) s2 ->
  s1 = s2.
Proof.
  intros [Hnd [Htot Htr]] P1 P2 S1 S2.
  set (R := fun a b : Id => a <> b /\ In a l /\ In b l /\ cmp a b < 0).
  assert (Rtrans : Relations_1.Transitive R).
  { intros a b c [Hab [Ha [Hb Lab]]] [Hbc [_ [Hc Lbc]]].
    assert (Hac : a <> c).
    { intros ->. destruct (Htot c b Ha Hb Hab) as [_ H]. apply H in Lab. lia. }
    repeat split; try assumption. now apply (Htr a b c). }
  assert (Rirr : forall a, ~ R a a) by (intros a [H _]; now apply H).
  assert (Up : forall s, Permutation s l -> Sorted (fun a b => cmp a b <= 0) s ->
                         StronglySorted R s).
  { intros s P S. apply Sorted_StronglySorted; [exact Rtrans|].
    assert (Hnds : List.NoDup s) by apply (Permutation_NoDup (Permutation_sym P) Hnd).
    assert (Hin : forall a, In a s -> In a l) by (intros a; apply Permutation_in, P).
    clear P. induction S as [|a s S IH Hhd]; [constructor|].
    apply NoDup_cons_iff in Hnds. destruct Hnds as [Ha Hnds].
    constructor.
    - apply IH; [exact Hnds|]. intros b Hb. apply Hin. now right.
    - destruct Hhd as [|b s' Hab]; constructor.
      assert (Hne : a <> b) by (intros ->; apply Ha; now left).
      assert (Hal : In a l) by (apply Hin; now left).
      assert (Hbl : In b l) by (apply Hin; right; now left).
      repeat split; try assumption.
      destruct (Htot a b Hal Hbl Hne) as [Hz _]. lia. }
  apply Up in S1; [|exact P1]. apply Up in S2; [|exact P2].
  assert (P : Permutation s1 s2)
    by (apply Permutation_trans with l; [exact P1 | now apply Permutation_sym]).
  clear P1 P2 Up. revert s2 S2 P.
  induction S1 as [|x s1 S1 IH Hx]; intros s2 S2 P.
  - apply Permutation_nil in P. now subst.
  - destruct s2 as [|y s2].
    { apply Permutation_sym, Permutation_nil in P. discriminate. }
    apply StronglySorted_inv in S2. destruct S2 as [S2 Hy].
    assert (E : x = y).
    { destruct (Z.eq_dec x y) as [E|E]; [exact E|exfalso].
      assert (Hx2 : In x s2).
      { assert (H : In x (y :: s2)) by (apply (Permutation_in x P); now left).
        destruct H as [H|H]; [now subst|exact H]. }
      assert (Hy1 : In y s1).
      { assert (H : In y (x :: s1))
          by (apply (Permutation_in y (Permutation_sym P)); now left).
        destruct H as [H|H]; [now subst|exact H]. }
      apply (Rirr x). apply (Rtrans x y x).
      - exact (proj1 (List.Forall_forall _ _) Hx y Hy1).
      - exact (proj1 (List.Forall_forall _ _) Hy x Hx2). }
    subst y. f_equal. apply IH; [exact S2|].
    now apply Permutation_cons_inv in P.
Qed.

Lemma sort_packages_le (pool : Pool) (kernel a b : Id) :
  sort_packages pool kernel a b <= 0 ->
  s_name (pool_id2solvable pool a) <= s_name (pool_id2solvable pool b) /\
  (s_name (pool_id2solvable pool a) = s_name (pool_id2solvable pool b) ->
   kernel_related pool kernel a = false /\
   (kernel_related pool kernel b = true \/
    pool_evrcmp pool (s_evr (pool_id2solvable pool a))
                     (s_evr (pool_id2solvable pool b)) <= 0)).
Proof.
  unfold sort_packages. fold (kernel_related pool kernel a).
  fold (kernel_related pool kernel b).
  destruct (Z.eqb_spec (s_name (pool_id2solvable pool a)
                        - s_name (pool_id2solvable pool b)) 0) as [E|E]; cbn [negb].
  - destruct (kernel_related pool kernel a); [lia|].
    destruct (kernel_related pool kernel b).
    + intros _. split; [lia|]. intros _. split; [reflexivity | now left].
    + intros H. split; [lia|]. intros _. split; [reflexivity | now right].
  - intros H. split; [lia|]. intros E'. lia.
Qed.

Lemma list_results_ok (goal : HyGoal) (t : Transaction) (f1 f2 : Id) :
  trans goal = Some t -> exists l, list_results goal f1 f2 = Ok l.
Proof. intros H. unfold list_results. rewrite H. eauto. Qed.

Lemma protected_in_removals_total (goal : HyGoal) (t : Transaction) :
  trans goal = Some t ->
  exists b goal', protected_in_removals goal = Some (b, goal') /\
                  solv goal' = solv goal /\ trans goal' = trans goal.
Proof.
  intros Ht. unfold protected_in_removals.
  destruct (protected goal) as [prot|].
  - cbn [hif_goal_get_packages listing_of].
    unfold hy_goal_list_erasures, hy_goal_list_obsoleted.
    destruct (list_results_ok goal t SOLVER_TRANSACTION_ERASE 0 Ht) as [l1 ->].
    destruct (list_results_ok goal t SOLVER_TRANSACTION_OBSOLETED 0 Ht) as [l2 ->].
    eexists. eexists. split; [reflexivity|]. split; reflexivity.
  - eexists. eexists. split; [reflexivity|]. split; reflexivity.
Qed.

(** The tail of [solve], once the solver [s] has succeeded for the last
    time. *)
Lemma solve_tail (goal : HyGoal) (s : Solver) :
  solv goal = Some s ->
  exists rc goal',
    match protected_in_removals
            (set_trans goal (option_map solver_create_transaction (solv goal))) with
    | None => None
    | Some (true, g) => Some (1, g)
    | Some (false, g) => Some (0, g)
    end = Some (rc, goal') /\
    solv goal' = Some s /\ (rc = 0 \/ rc = 1) /\ trans goal' <> None.
Proof.
  intros Hs.
  destruct (protected_in_removals_total
              (set_trans goal (option_map solver_create_transaction (solv goal)))
              (solver_create_transaction s)) as [b [g [-> [Hsolv Htr]]]].
  { rewrite Hs. reflexivity. }
  cbn [set_trans solv trans] in Hsolv, Htr. rewrite Hs in Hsolv, Htr.
  destruct b; eexists; eexists; (split; [reflexivity|]);
    (split; [assumption|]); (split; [auto|]); rewrite Htr; discriminate.
Qed.

Lemma fold_allow_uninstall (pool : Pool) (prot : Map) (l : list Id) :
  forall job : Queue,
  exists extra : Queue,
    fold_left
      (fun job id =>
         if in_installed_repo pool (pool_id2solvable pool id)
            && negb (MAPTST prot id)
         then queue_push2 job (Z.lor SOLVER_ALLOWUNINSTALL SOLVER_SOLVABLE) id
         else job) l job
    = job ++ extra.
Proof.
  induction l as [|id l IH]; intros job; cbn [fold_left].
  - exists []. now rewrite app_nil_r.
  - destruct (in_installed_repo pool (pool_id2solvable pool id)
              && negb (MAPTST prot id)).
    + destruct (IH (queue_push2 job (Z.lor SOLVER_ALLOWUNINSTALL SOLVER_SOLVABLE) id))
        as [extra ->].
      unfold queue_push2. rewrite <- app_assoc. eauto.
    + apply IH.
Qed.

Lemma resolve_job_extends (sack : HifSack) (goal : HyGoal) (job : Queue)
  (sv : Solver) :
  exists extra : Queue,
    resolve_job sack goal job sv = job ++ limit_jobs sack sv ++ extra.
Proof.
  unfold resolve_job, allow_uninstall_all_but_protected. cbn [snd].
  change (has_flag HIF_ALLOW_UNINSTALL HIF_ALLOW_UNINSTALL) with true.
  cbv iota.
  match goal with
  | |- context [fold_left ?f ?l ?j] =>
      destruct (fold_allow_uninstall (hif_sack_get_pool sack)
                  (let prot := match protected goal with
                               | Some m => m
                               | None => map_empty
                               end in
                   if 0 <? hif_sack_running_kernel sack
                   then MAPSET prot (hif_sack_running_kernel sack) else prot)
                  l j) as [extra E]
  end.
  exists extra. cbv zeta in E. rewrite app_assoc. exact E.
Qed.

Lemma solve_calls (sat : SatSolver) (sack : HifSack) (goal : HyGoal)
  (job : Queue) (flags : Z) (user_cb : bool) :
  exists (rc : Z) (goal' : HyGoal) (s : Solver),
    solve sat sack goal job flags user_cb = Some (rc, goal') /\
    solv goal' = Some s /\
    solve_log s = solver_jobs sat sack goal job flags user_cb /\
    (1 <= length (solve_log s) <= 2)%nat /\
    (user_cb = true -> length (solve_log s) = 1%nat) /\
    (solver_problem_count s <> 0 -> rc = 1) /\
    (rc = 0 \/ rc = 1).
Proof.
  unfold solve, solver_jobs, first_solve. cbn [init_solver fst].
  set (sv0 := if has_flag HIF_IGNORE_WEAK_DEPS flags then _ else _).
  assert (Hlog0 : solve_log sv0 = []).
  { subst sv0. destruct (has_flag HIF_IGNORE_WEAK_DEPS flags); reflexivity. }
  unfold solver_solve at 1 2 3. cbn [fst snd].
  set (sol1 := sat (solver_flags sv0) job).
  set (sv1 := mkSolver (solver_flags sv0) (Some sol1) (solve_log sv0 ++ [job])).
  assert (Hlog1 : solve_log sv1 = [job]).
  { subst sv1. cbn [solve_log]. now rewrite Hlog0. }
  destruct (Z.eqb_spec (problem_count sol1) 0) as [E1|E1]; cbn [negb orb].
  2:{ eexists. eexists. exists sv1. split; [reflexivity|].
      split; [reflexivity|]. split; [exact Hlog1|]. rewrite Hlog1.
      split; [cbn; lia|]. split; [auto|]. split; auto. }
  set (g1 := set_solv _ sv1).
  destruct user_cb; cbn [orb].
  - destruct (solve_tail g1 sv1 eq_refl) as [rc [g' [-> [Hs [Hrc _]]]]].
    exists rc, g', sv1. split; [reflexivity|]. split; [assumption|].
    split; [exact Hlog1|]. rewrite Hlog1.
    split; [cbn; lia|]. split; [auto|]. split; [|assumption].
    intros Hc. exfalso. apply Hc. exact E1.
  - rewrite limit_installonly_packages_spec.
    destruct (existsb _ _); cbn [negb].
    + destruct (allow_uninstall_all_but_protected sack g1 _ HIF_ALLOW_UNINSTALL)
        as [g2 job2] eqn:Eallow.
      assert (Hg2 : solv g2 = solv g1).
      { unfold allow_uninstall_all_but_protected in Eallow.
        injection Eallow as <- _. reflexivity. }
      assert (Hjob2 : job2 = resolve_job sack goal job sv1).
      { unfold resolve_job, limit_jobs.
        unfold allow_uninstall_all_but_protected in Eallow |- *.
        injection Eallow as _ <-. reflexivity. }
      unfold solver_solve.
      set (sol2 := sat (solver_flags sv1) job2).
      set (sv2 := mkSolver (solver_flags sv1) (Some sol2) (solve_log sv1 ++ [job2])).
      assert (Hlog2 : solve_log sv2 = [job; resolve_job sack goal job sv1]).
      { subst sv2. cbn [solve_log]. rewrite Hlog1, Hjob2. reflexivity. }
      destruct (Z.eqb_spec (problem_count sol2) 0) as [E2|E2]; cbn [negb].
      * destruct (solve_tail (set_solv g2 sv2) sv2 eq_refl)
          as [rc [g' [-> [Hs [Hrc _]]]]].
        exists rc, g', sv2. split; [reflexivity|]. split; [assumption|].
        split; [exact Hlog2|]. rewrite Hlog2.
        split; [cbn; lia|]. split; [discriminate|]. split; [|assumption].
        intros Hc. exfalso. apply Hc. exact E2.
      * eexists. eexists. exists sv2. split; [reflexivity|].
        split; [reflexivity|]. split; [exact Hlog2|]. rewrite Hlog2.
        split; [cbn; lia|]. split; [discriminate|]. split; auto.
    + destruct (solve_tail g1 sv1 eq_refl) as [rc [g' [-> [Hs [Hrc _]]]]].
      exists rc, g', sv1. split; [reflexivity|]. split; [assumption|].
      split; [exact Hlog1|]. rewrite Hlog1.
      split; [cbn; lia|]. split; [discriminate|]. split; [|assumption].
      intros Hc. exfalso. apply Hc. exact E1.
Qed.

Lemma get_packages_trans (g1 g2 : HyGoal) (infos : list HifPackageInfo) :
  trans g1 = trans g2 -> trans g1 <> None ->
  hif_goal_get_packages g1 infos = hif_goal_get_packages g2 infos.
Proof.
  intros E Hn. induction infos as [|info rest IH]; [reflexivity|].
  cbn [hif_goal_get_packages]. rewrite IH.
  replace (listing_of g1 info) with (listing_of g2 info); [reflexivity|].
  unfold listing_of, hy_goal_list_erasures, hy_goal_list_installs,
    hy_goal_list_obsoleted, hy_goal_list_reinstalls, hy_goal_list_upgrades,
    hy_goal_list_downgrades, list_results.
  rewrite <- E. destruct (trans g1); [|contradiction]. reflexivity.
Qed.

Lemma protected_in_removals_spec (goal : HyGoal) (t : Transaction) (prot : Map) :
  trans goal = Some t -> protected goal = Some prot ->
  exists pkgs,
    hif_goal_get_packages goal [HIF_PACKAGE_INFO_REMOVE; HIF_PACKAGE_INFO_OBSOLETE]
    = Some pkgs /\
    protected_in_removals goal
    = Some (negb (length (List.filter
                            (fun pkg => MAPTST prot (hif_package_get_id pkg)) pkgs)
                  =? 0)%nat,
            mkGoal (staging goal) (protected goal) (solv goal) (trans goal)
                   (Some (List.filter
                            (fun pkg => MAPTST prot (hif_package_get_id pkg)) pkgs))
                   (actions goal)).
Proof.
  intros Ht Hp. unfold protected_in_removals. rewrite Hp.
  cbn [hif_goal_get_packages listing_of].
  unfold hy_goal_list_erasures, hy_goal_list_obsoleted.
  destruct (list_results_ok goal t SOLVER_TRANSACTION_ERASE 0 Ht) as [l1 ->].
  destruct (list_results_ok goal t SOLVER_TRANSACTION_OBSOLETED 0 Ht) as [l2 ->].
  eexists. split; reflexivity.
Qed.

Lemma solve_tail_protected (goal : HyGoal) (s : Solver) (prot : Map) :
  solv goal = Some s -> protected goal = Some prot ->
  exists rc goal',
    match protected_in_removals
            (set_trans goal (option_map solver_create_transaction (solv goal))) with
    | None => None
    | Some (true, g) => Some (1, g)
    | Some (false, g) => Some (0, g)
    end = Some (rc, goal') /\
    solv goal' = Some s /\ protected goal' = Some prot /\
    solved_goal rc goal' s prot.
Proof.
  intros Hs Hp. rewrite Hs. cbn [option_map].
  set (g1 := set_trans goal (Some (solver_create_transaction s))).
  destruct (protected_in_removals_spec g1 (solver_create_transaction s) prot
              eq_refl Hp) as [pkgs [Epk ->]].
  set (kept := List.filter (fun pkg => MAPTST prot (hif_package_get_id pkg)) pkgs).
  set (g2 := mkGoal (staging g1) (protected g1) (solv g1) (trans g1) (Some kept)
                    (actions g1)).
  assert (Ekept : protected_removals prot g2 = kept).
  { unfold protected_removals.
    rewrite (get_packages_trans g2 g1) by (try reflexivity; discriminate).
    now rewrite Epk. }
  assert (Hsolved : forall rc,
             rc = (if (length kept =? 0)%nat then 0 else 1) ->
             solved_goal rc g2 s prot).
  { intros rc Hrc. unfold solved_goal. rewrite Ekept.
    split; [reflexivity|]. split; [reflexivity|]. split; [exact Hrc|].
    unfold hy_goal_count_problems. cbn [solv g2 g1 set_trans removal_of_protected].
    now rewrite Hs. }
  destruct (length kept =? 0)%nat eqn:Elen; cbn [negb].
  - exists 0, g2. split; [reflexivity|]. split; [exact Hs|]. split; [exact Hp|].
    apply Hsolved. reflexivity.
  - exists 1, g2. split; [reflexivity|]. split; [exact Hs|]. split; [exact Hp|].
    apply Hsolved. reflexivity.
Qed.

Lemma allow_uninstall_protected (sack : HifSack) (goal : HyGoal) (job : Queue)
  (flags : Z) :
  exists prot,
    protected (fst (allow_uninstall_all_but_protected sack goal job flags))
    = Some prot /\
    solv (fst (allow_uninstall_all_but_protected sack goal job flags)) = solv goal /\
    trans (fst (allow_uninstall_all_but_protected sack goal job flags)) = trans goal.
Proof. unfold allow_uninstall_all_but_protected. cbn. eauto. Qed.

Lemma solve_protected (sat : SatSolver) (sack : HifSack) (goal : HyGoal)
  (job : Queue) (flags : Z) (user_cb : bool) (prot0 : Map) :
  protected goal = Some prot0 ->
  exists (rc : Z) (goal' : HyGoal) (s : Solver) (prot : Map),
    solve sat sack goal job flags user_cb = Some (rc, goal') /\
    solv goal' = Some s /\ protected goal' = Some prot /\
    (solver_problem_count s <> 0 -> rc = 1 /\ trans goal' = None) /\
    (solver_problem_count s = 0 ->
     solved_goal rc goal' s prot).
Proof.
  intros Hp0. unfold solve. cbn [init_solver].
  set (sv0 := if has_flag HIF_IGNORE_WEAK_DEPS flags then _ else _).
  unfold solver_solve at 1.
  set (sol1 := sat (solver_flags sv0) job).
  set (sv1 := mkSolver (solver_flags sv0) (Some sol1) (solve_log sv0 ++ [job])).
  set (g1 := set_solv _ sv1).
  assert (Hp1 : protected g1 = Some prot0) by exact Hp0.
  destruct (Z.eqb_spec (problem_count sol1) 0) as [E1|E1]; cbn [negb].
  2:{ exists 1, g1, sv1, prot0. split; [reflexivity|]. split; [reflexivity|].
      split; [exact Hp1|]. split; [intros _; split; reflexivity|].
      intros Hc. exfalso. apply E1. exact Hc. }
  assert (Hdone : forall g (sv : Solver) prot,
             solv g = Some sv -> protected g = Some prot ->
             solver_problem_count sv = 0 ->
             exists rc goal' s prot',
               match protected_in_removals
                       (set_trans g (option_map solver_create_transaction (solv g))) with
               | None => None
               | Some (true, g') => Some (1, g')
               | Some (false, g') => Some (0, g')
               end = Some (rc, goal') /\
               solv goal' = Some s /\ protected goal' = Some prot' /\
               (solver_problem_count s <> 0 -> rc = 1 /\ trans goal' = None) /\
               (solver_problem_count s = 0 ->
                solved_goal rc goal' s prot')).
  { intros g sv prot Hs Hp Hc.
    destruct (solve_tail_protected g sv prot Hs Hp)
      as [rc [g' [-> [Hs' [Hp' Hsol]]]]].
    exists rc, g', sv, prot. split; [reflexivity|]. split; [exact Hs'|].
    split; [exact Hp'|]. split; [intros Hn; contradiction | intros _; exact Hsol]. }
  destruct user_cb.
  - apply (Hdone g1 sv1 prot0 eq_refl Hp1 E1).
  - rewrite limit_installonly_packages_spec.
    destruct (existsb _ _).
    + destruct (allow_uninstall_protected sack g1
                  (job ++ flat_map (subqueue_jobs (hif_sack_get_installonly_limit sack))
                                   (all_subqueues sack sv1))
                  HIF_ALLOW_UNINSTALL) as [prot2 [Hp2 [Hs2 Ht2]]].
      destruct (allow_uninstall_all_but_protected sack g1 _ HIF_ALLOW_UNINSTALL)
        as [g2 job2].
      cbn [fst] in Hp2, Hs2, Ht2.
      unfold solver_solve.
      set (sol2 := sat (solver_flags sv1) job2).
      set (sv2 := mkSolver (solver_flags sv1) (Some sol2) (solve_log sv1 ++ [job2])).
      destruct (Z.eqb_spec (problem_count sol2) 0) as [E2|E2]; cbn [negb].
      * apply (Hdone (set_solv g2 sv2) sv2 prot2 eq_refl Hp2 E2).
      * exists 1, (set_solv g2 sv2), sv2, prot2. split; [reflexivity|].
        split; [reflexivity|]. split; [exact Hp2|].
        split.
        -- intros _. split; [reflexivity|].
           cbn [set_solv trans]. rewrite Ht2. reflexivity.
        -- intros Hc. exfalso. apply E2. exact Hc.
    + apply (Hdone g1 sv1 prot0 eq_refl Hp1 E1).
Qed.


(** What holds of every run: the run returns, the goal keeps the solver and
    a protected map; a solver failure gives 1 and no transaction; otherwise
    the goal holds the transaction, the protected removals are the removed
    and obsoleted packages inside the protected map, the run returns 1
    exactly when there are any, and they count as one more problem. *)
Lemma run_rejects_protected_removal (sat : SatSolver) (sack : HifSack)
  (goal : HyGoal) (user_cb : bool) (flags : Z) :
  exists (rc : Z) (goal' : HyGoal) (s : Solver) (prot : Map),
    hy_goal_run_all_flags sat sack goal user_cb flags = Some (rc, goal') /\
    solv goal' = Some s /\ protected goal' = Some prot /\
    (solver_problem_count s <> 0 -> rc = 1 /\ trans goal' = None) /\
    (solver_problem_count s = 0 ->
     solved_goal rc goal' s prot).
Proof.
  unfold hy_goal_run_all_flags, construct_job.
  set (job0 := fold_left _ (hif_sack_get_installonly sack) _).
  destruct (allow_uninstall_protected sack goal job0 flags) as [prot0 [Hp0 _]].
  destruct (allow_uninstall_all_but_protected sack goal job0 flags) as [g0 job1].
  cbn [fst] in Hp0.
  apply (solve_protected _ _ _ _ _ _ prot0). exact Hp0.
Qed.

(** With a single protected removal, and no solver problem, the
    description names it. *)
Lemma describe_single_protected (pool : Pool) (goal : HyGoal) (s : Solver)
  (p : HifPackage) :
  solv goal = Some s -> solver_problem_count s = 0 ->
  removal_of_protected goal = Some [p] ->
  hy_goal_describe_problem pool goal 0
  = Some (Some (removal_prefix ++ hif_package_get_name pool p)%string).
Proof.
  intros Hs Hc Hr. unfold hy_goal_describe_problem, hy_goal_count_problems.
  rewrite Hs, Hr, Hc. reflexivity.
Qed.

Lemma filter_name2job_status L pool f job :
  not_bad_selector (filter_name2job L pool f job).
Proof.
  intros j. unfold filter_name2job.
  destruct f as [f|]; [|discriminate].
  destruct (the_str f); [|discriminate].
  destruct (cmp_type f =? HY_EQ); [discriminate|].
  destruct (cmp_type f =? HY_GLOB); discriminate.
Qed.

Lemma filter_file2job_status L f job :
  not_bad_selector (filter_file2job L f job).
Proof.
  intros j. unfold filter_file2job.
  destruct f as [f|]; [|discriminate].
  destruct (the_str f); [|discriminate].
  destruct (selection_make L job _ _) as [job' n].
  destruct (n =? 0); discriminate.
Qed.

Lemma filter_provides2job_status L pool f job :
  not_bad_selector (filter_provides2job L pool f job).
Proof.
  intros j. unfold filter_provides2job.
  destruct f as [f|]; [|discriminate].
  destruct (matches f) as [|m0 [|? ?]]; try discriminate.
  destruct (cmp_type f =? HY_EQ).
  - destruct m0; discriminate.
  - destruct (cmp_type f =? HY_GLOB); [|discriminate].
    destruct m0; try discriminate.
    destruct (List.find _ _); discriminate.
Qed.

Lemma filter_arch2job_status L f job :
  not_bad_selector (filter_arch2job L f job).
Proof.
  intros j. unfold filter_arch2job.
  destruct f as [f|]; [|discriminate].
  destruct (c_assert _); [|discriminate].
  destruct (the_str f); [|discriminate].
  destruct (str2archid L _ =? 0); [discriminate|].
  destruct (constrain_jobs _ _ _); discriminate.
Qed.

Lemma filter_evr2job_status L f job :
  not_bad_selector (filter_evr2job L f job).
Proof.
  intros j. unfold filter_evr2job.
  destruct f as [f|]; [|discriminate].
  destruct (c_assert _); [|discriminate].
  destruct (the_str f); [|discriminate].
  destruct (constrain_jobs _ _ _); discriminate.
Qed.

Lemma filter_reponame2job_status L f job :
  not_bad_selector (filter_reponame2job L f job).
Proof.
  intros j. unfold filter_reponame2job.
  destruct f as [f|]; [|discriminate].
  destruct (c_assert _); [|discriminate].
  destruct (the_str f); discriminate.
Qed.

Lemma and_next_status r k :
  not_bad_selector r -> (forall j, not_bad_selector (k j)) ->
  not_bad_selector (and_next r k).
Proof.
  intros Hr Hk. unfold and_next.
  destruct r as [[[| |e] j]|]; try exact Hr. apply Hk.
Qed.

(** C5 (as amended).  Translating a selector with none of the name,
    provides and file axes set pushes no job entry; it returns
    [HIF_ERROR_BAD_SELECTOR] when one of arch, evr or reponame is set and 0
    when the selector has no axis at all.  No other selector is answered
    with [HIF_ERROR_BAD_SELECTOR]. *)
Theorem sltr2job_bad_selector (L : SelectionLib) (pool : Pool)
  (sltr : HySelector) (job : Queue) (solver_action : Z) :
  (any_req_filter sltr = false ->
   sltr2job L pool sltr job solver_action
   = Some (if any_opt_filter sltr then RcErr HIF_ERROR_BAD_SELECTOR else Rc0,
           job)) /\
  (forall job' : Queue,
     sltr2job L pool sltr job solver_action
     = Some (RcErr HIF_ERROR_BAD_SELECTOR, job') ->
     any_req_filter sltr = false /\ any_opt_filter sltr = true /\ job' = job).
Proof.
  unfold sltr2job. fold (any_req_filter sltr). fold (any_opt_filter sltr).
  split.
  - intros ->. reflexivity.
  - intros job'. destruct (any_req_filter sltr); cbn [negb].
    + match goal with |- context [match ?c with _ => _ end] =>
        assert (Hc : not_bad_selector c) end.
      { repeat (apply and_next_status;
                [first [apply filter_name2job_status | apply filter_file2job_status
                       | apply filter_provides2job_status | apply filter_arch2job_status
                       | apply filter_evr2job_status] | intros ?]).
        apply filter_reponame2job_status. }
      match goal with |- context [match ?c with _ => _ end] =>
        destruct c as [[[| |e] j]|] end; try discriminate.
      intros H. injection H as -> _. exfalso. now apply (Hc j).
    + destruct (any_opt_filter sltr); [|discriminate].
      intros H. injection H as <-. auto.
Qed.

Lemma sltr2job_bad_selector_witness :
  sltr2job ex_lib ex_system ex_arch_only [] SOLVER_INSTALL
  = Some (RcErr HIF_ERROR_BAD_SELECTOR, []).
Proof.
  exact (proj1 (sltr2job_bad_selector ex_lib ex_system ex_arch_only []
                  SOLVER_INSTALL) eq_refl).
Defined.

(** C5 as stated fails: the selector with no axis at all is translated
    with status 0. *)
Lemma missing_axes_always_rejected_fails : ~ missing_axes_always_rejected.
Proof.
  intros H.
  specialize (H ex_lib ex_system ex_no_axis [] SOLVER_INSTALL eq_refl).
  discriminate.
Qed.

(** C1 at its failing input.  The goal protects "flying" (2) and "walrus"
    (3) and the solver erases both.  The run returns 1 and there is one
    problem, but the transaction stays in the goal, and the description of
    the problem indexes the protected removals with the problem index
    instead of the loop index: it names "flying" twice and "walrus" not at
    all. *)
Theorem protected_removal_names_one_package_twice :
  exists goal' : HyGoal,
    hy_goal_run ex_erase_both ex_sack ex_protecting = Some (1, goal') /\
    option_map (List.map hif_package_get_id) (removal_of_protected goal')
    = Some [2; 3] /\
    option_map steps (trans goal') = Some [2; 3] /\
    hy_goal_count_problems goal' = Some 1 /\
    hy_goal_describe_problem ex_system goal' 0
    = Some (Some "The operation would result in removing the following protected packages: flying, flying"%string) /\
    has_substring "walrus"
      "The operation would result in removing the following protected packages: flying, flying"
    = false.
Proof.
  eexists. split; [vm_compute; reflexivity|].
  repeat split.
Qed.

Lemma Sorted_weaken (R R' : Id -> Id -> Prop) (l : list Id) :
  (forall a b, R a b -> R' a b) -> Sorted R l -> Sorted R' l.
Proof.
  intros H Hs. induction Hs as [|x l Hs IH Hhd]; constructor; [assumption|].
  destruct Hhd; constructor. now apply H.
Qed.

(** C2 (as amended).  With a non-zero limit L, for each install-only name
    whose solver-decided providers exceed L, the providers are sorted by
    name, then with the running kernel and what can depend on it last, then
    by ascending EVR (the sorted queue is ordered so whenever the comparator
    is consistent on the providers, and it is the only such arrangement when
    the comparator is a strict order on them); the same-name subqueues are
    read from the end of the sorted queue backwards, so each starts with the
    kernel-related package and goes on by descending EVR; within each
    subqueue longer than L an INSTALL job is pushed for the first L entries
    and an ERASE job for the rest.  [solve] always returns and calls the
    solver once or twice (once when a solution callback is given): the
    second call is made exactly when the first left no problem, no callback
    is given and a subqueue is over the limit, and it is given the job of
    the first call followed by the INSTALL and ERASE jobs and by
    allow-uninstall jobs.  [solve] returns 1 whenever the last call left
    problems.  The job queues are stated for providers that number fewer
    than seven per name or that the comparator orders strictly. *)
Theorem installonly_limit_enforced (sat : SatSolver) (sack : HifSack)
  (goal : HyGoal) (sv : Solver) (job : Queue) (flags : Z) (user_cb : bool) :
  (sorts_settled sack sv ->
   limit_installonly_packages sack sv job
   = Some (job ++ flat_map (subqueue_jobs (hif_sack_get_installonly_limit sack))
                           (all_subqueues sack sv),
           existsb (over_limit (hif_sack_get_installonly_limit sack))
                   (all_subqueues sack sv))) /\
  (forall name : Id,
     List.NoDup (decided_providers sack sv name) ->
     (forall a b : Id,
        In a (decided_providers sack sv name) ->
        In b (decided_providers sack sv name) ->
        a <> b ->
        0 <= sort_packages (hif_sack_get_pool sack) (hif_sack_running_kernel sack) a b ->
        sort_packages (hif_sack_get_pool sack) (hif_sack_running_kernel sack) b a <= 0) ->
     Permutation
       (solv_sort (sort_packages (hif_sack_get_pool sack) (hif_sack_running_kernel sack))
                  (decided_providers sack sv name))
       (decided_providers sack sv name) /\
     Sorted
       (fun a b =>
          s_name (pool_id2solvable (hif_sack_get_pool sack) a)
          <= s_name (pool_id2solvable (hif_sack_get_pool sack) b) /\
          (s_name (pool_id2solvable (hif_sack_get_pool sack) a)
           = s_name (pool_id2solvable (hif_sack_get_pool sack) b) ->
           kernel_related (hif_sack_get_pool sack) (hif_sack_running_kernel sack) a
           = false /\
           (kernel_related (hif_sack_get_pool sack) (hif_sack_running_kernel sack) b
            = true \/
            pool_evrcmp (hif_sack_get_pool sack)
              (s_evr (pool_id2solvable (hif_sack_get_pool sack) a))
              (s_evr (pool_id2solvable (hif_sack_get_pool sack) b)) <= 0)))
       (solv_sort (sort_packages (hif_sack_get_pool sack) (hif_sack_running_kernel sack))
                  (decided_providers sack sv name))) /\
  (forall (name : Id) (sorted : list Id),
     strict_order_on
       (sort_packages (hif_sack_get_pool sack) (hif_sack_running_kernel sack))
       (decided_providers sack sv name) ->
     Permutation sorted (decided_providers sack sv name) ->
     Sorted
       (fun a b =>
          sort_packages (hif_sack_get_pool sack) (hif_sack_running_kernel sack) a b
          <= 0)
       sorted ->
     sorted
     = solv_sort (sort_packages (hif_sack_get_pool sack) (hif_sack_running_kernel sack))
                 (decided_providers sack sv name)) /\
  (exists (rc : Z) (goal' : HyGoal) (s : Solver),
     solve sat sack goal job flags user_cb = Some (rc, goal') /\
     solv goal' = Some s /\
     (1 <= length (solve_log s) <= 2)%nat /\
     (user_cb = true -> length (solve_log s) = 1%nat) /\
     (solver_problem_count s <> 0 -> rc = 1) /\
     (rc = 0 \/ rc = 1) /\
     (sorts_settled sack (snd (first_solve sat job flags)) ->
      solve_log s = solver_jobs sat sack goal job flags user_cb /\
      exists extra : Queue,
        resolve_job sack goal job (snd (first_solve sat job flags))
        = job ++ limit_jobs sack (snd (first_solve sat job flags)) ++ extra)).
Proof.
  split; [intros _; apply limit_installonly_packages_spec|].
  split; [|split].
  - intros name Hnd Hanti. split; [apply solv_sort_perm|].
    apply (solv_sort_sorted _ _ Hnd) in Hanti.
    revert Hanti. apply Sorted_weaken. intros a b. apply sort_packages_le.
  - intros name sorted Hso Hp Hs.
    apply (sorted_unique _ _ _ _ Hso Hp (solv_sort_perm _ _) Hs).
    destruct Hso as [Hnd [Htot _]].
    apply (solv_sort_sorted _ _ Hnd).
    intros a b Ha Hb Hne H0. destruct (Htot a b Ha Hb Hne) as [Hz Hiff].
    destruct (Htot b a Hb Ha (not_eq_sym Hne)) as [_ Hiff'].
    assert (H1 : 0 < sort_packages (hif_sack_get_pool sack)
                       (hif_sack_running_kernel sack) a b) by lia.
    apply Hiff' in H1. lia.
  - destruct (solve_calls sat sack goal job flags user_cb)
      as [rc [goal' [s [H1 [H2 [H3 [H4 [H5 [H6 H7]]]]]]]]].
    exists rc, goal', s.
    split; [exact H1|]. split; [exact H2|]. split; [exact H4|].
    split; [exact H5|]. split; [exact H6|]. split; [exact H7|].
    intros _. split; [exact H3 | apply resolve_job_extends].
Qed.

Ltac in_providers H :=
  vm_compute in H; repeat (destruct H as [H|H]; [subst|]); try contradiction.

Lemma installonly_limit_enforced_witness :
  limit_installonly_packages ex_kernel_sack ex_solved []
  = Some ([Z.lor SOLVER_INSTALL SOLVER_SOLVABLE; 4;
           Z.lor SOLVER_INSTALL SOLVER_SOLVABLE; 6;
           Z.lor SOLVER_ERASE SOLVER_SOLVABLE; 5], true) /\
  Permutation
    (solv_sort (sort_packages ex_system 4) (decided_providers ex_kernel_sack ex_solved 30))
    (decided_providers ex_kernel_sack ex_solved 30) /\
  [5; 6; 4]
  = solv_sort (sort_packages ex_system 4) (decided_providers ex_kernel_sack ex_solved 30) /\
  exists (rc : Z) (goal' : HyGoal) (s : Solver),
    solve ex_keep_all ex_kernel_sack hy_goal_create [] 0 false = Some (rc, goal') /\
    solv goal' = Some s /\
    solve_log s
    = [[]; [Z.lor SOLVER_INSTALL SOLVER_SOLVABLE; 4;
            Z.lor SOLVER_INSTALL SOLVER_SOLVABLE; 6;
            Z.lor SOLVER_ERASE SOLVER_SOLVABLE; 5;
            Z.lor SOLVER_ALLOWUNINSTALL SOLVER_SOLVABLE; 2;
            Z.lor SOLVER_ALLOWUNINSTALL SOLVER_SOLVABLE; 3;
            Z.lor SOLVER_ALLOWUNINSTALL SOLVER_SOLVABLE; 5]].
Proof.
  pose proof (installonly_limit_enforced ex_keep_all ex_kernel_sack hy_goal_create
                ex_solved [] 0 false) as [Hjobs [Horder [Huniq Hsolve]]].
  split; [apply Hjobs; intros name [<-|[]] _; left; vm_compute; lia|].
  split; [|split].
  - apply (Horder 30).
    + change (List.NoDup [4; 5; 6]).
      repeat constructor; simpl; intros H; repeat destruct H as [H|H]; lia.
    + intros a b Ha Hb. in_providers Ha; in_providers Hb;
        intros Hne; try (exfalso; apply Hne; reflexivity);
        vm_compute; intros H; try discriminate; exfalso; now apply H.
  - apply (Huniq 30 [5; 6; 4]).
    + split; [|split].
      * change (List.NoDup [4; 5; 6]).
        repeat constructor; simpl; intros H; repeat destruct H as [H|H]; lia.
      * intros a b Ha Hb. in_providers Ha; in_providers Hb;
          intros Hne; try (exfalso; apply Hne; reflexivity);
          vm_compute; (split; [discriminate | split; intros H; try reflexivity; discriminate]).
      * intros a b c Ha Hb Hc. in_providers Ha; in_providers Hb; in_providers Hc;
          vm_compute; intros H1 H2; try reflexivity; discriminate.
    + change (Permutation [5; 6; 4] [4; 5; 6]).
      apply Permutation_sym, (Permutation_cons_app [5; 6] [] 4), Permutation_refl.
    + repeat constructor; vm_compute; discriminate.
  - destruct Hsolve as [rc [goal' [s [H1 [H2 [_ [_ [_ [_ H7]]]]]]]]].
    exists rc, goal', s. split; [exact H1|]. split; [exact H2|].
    apply H7. intros name [<-|[]] _. left. vm_compute. lia.
Defined.

(** C2 as stated fails.  With kernel-1 (4) running and kernel-2 (5),
    kernel-3 (6) decided, limit 2, the source keeps 4 and 6 and erases 5.
    The order as stated (kernel last, descending EVR) gives the subqueue
    6, 5, 4 and erases the running kernel; read backwards it gives 4, 5, 6
    and erases the newest kernel. *)
Lemma stated_order_fails :
  ~ jobs_follow_stated_order false /\ ~ jobs_follow_stated_order true.
Proof.
  split; intros H; destruct (H ex_kernel_sack ex_solved []) as [r E];
    vm_compute in E; discriminate.
Qed.

End GoalFacts.

(* ===================================================================== *)
(** * Properties of the transaction driver *)
(* ===================================================================== *)

Module TransactionFacts.
Import Solv Query Package Goal Transaction.

(** Every round of the inner loop appends the same package, the one at
    the index of the install. *)
Lemma obsoleted_into_helper_repeat (pkglist : list HifPackage) (i : nat)
  (p : HifPackage) (rounds : nat) :
  nth_error pkglist i = Some p ->
  forall helper,
    obsoleted_into_helper pkglist i rounds helper
    = Some (helper
            ++ repeat (hif_package_set_action p HIF_STATE_ACTION_CLEANUP) rounds).
Proof.
  intros Hp. induction rounds as [|n IH]; intros helper; simpl.
  - now rewrite app_nil_r.
  - rewrite Hp, IH. now rewrite <- app_assoc.
Qed.

(** C6 at its failing input.  The upgrade to solvable 5 obsoletes 2 and
    3.  The inner loop reads the obsoleted list at the index [i] of the
    install instead of its own index [j]: the helper array holds package 2
    twice, and package 3 is neither appended nor relabelled. *)
Theorem remove_helper_repeats_one_obsoleted :
  exists priv' : Priv,
    commit_prepare ex_env ex_system ex_upgrade_goal ex_priv = Some (Go priv') /\
    option_map (List.map pkg_id) (install priv') = Some [5] /\
    option_map (List.map pkg_id)
               (hy_goal_list_obsoleted_by_package ex_upgrade_goal (hif_package_new 5))
    = Some [2; 3] /\
    remove_helper priv'
    = Some [mkPackage 2 HIF_PACKAGE_INFO_UNKNOWN HIF_STATE_ACTION_CLEANUP;
            mkPackage 2 HIF_PACKAGE_INFO_UNKNOWN HIF_STATE_ACTION_CLEANUP].
Proof.
  eexists. split; [vm_compute; reflexivity|].
  repeat split.
Qed.


(** ** Commit does not look at the free space. *)
Section CommitFrame.
Variable env : Env.
Variable q : string -> Outcome (option Z).
Variable sizes : Id -> Z.












End CommitFrame.




End TransactionFacts.

(* ===================================================================== *)
(** * Properties of the reason store *)
(* ===================================================================== *)

Module DbFacts.
Import Solv Package Db.

(** Reading does not look at the enabled flag. *)
Lemma get_string_ignores_enabled (db : HifDb) (e : bool) (fs : gmap string Node)
  (package : option DbPackage) (key : option string) :
  hif_db_get_string (hif_db_set_enabled db e) fs package key
  = hif_db_get_string db fs package key.
Proof. reflexivity. Qed.

(** C10.  After [hif_db_set_enabled (db, FALSE)], [hif_db_set_string],
    [hif_db_remove] and [hif_db_remove_all] return TRUE and leave the store
    as it is (the store is left alone also when an argument is NULL);
    [hif_db_get_string] still reads the store. *)
Theorem disabled_db_leaves_store_alone (db : HifDb) (fs : gmap string Node)
  (package : DbPackage) (key value : string) :
  let off := hif_db_set_enabled db false in
  hif_db_set_string off fs (Some package) (Some key) (Some value)
  = (true, None, fs) /\
  hif_db_remove off fs (Some package) (Some key) = (true, None, fs) /\
  hif_db_remove_all off fs (Some package) = (true, None, fs) /\
  (forall (p : option DbPackage) (k v : option string),
     snd (hif_db_set_string off fs p k v) = fs /\
     snd (hif_db_remove off fs p k) = fs /\
     snd (hif_db_remove_all off fs p) = fs) /\
  (forall (index_dir contents : string),
     hif_db_get_dir_for_package off package = Some index_dir ->
     fs !! g_build_filename index_dir key = Some (File contents) ->
     hif_db_get_string off fs (Some package) (Some key) = (Some contents, None)).
Proof.
  cbn zeta. repeat split.
  - destruct p, k, v; reflexivity.
  - destruct p, k; reflexivity.
  - destruct p; reflexivity.
  - intros index_dir contents Hd Hf. unfold hif_db_get_string.
    now rewrite Hd, Hf.
Qed.

Lemma disabled_db_witness :
  hif_db_get_string (hif_db_set_enabled ex_db false) ex_store
                    (Some ex_package) (Some "reason"%string)
  = (Some "user"%string, None).
Proof.
  apply (proj2 (proj2 (proj2 (proj2
           (disabled_db_leaves_store_alone ex_db ex_store ex_package "reason" "dep"))))
         "/var/lib/yum/yumdb/h/abc123-hal-0.3.4-1-i386"%string "user"%string).
  - reflexivity.
  - vm_compute. reflexivity.
Defined.

End DbFacts.

(* ===================================================================== *)
(** * Properties of the yumdb store: writing, reading back, removing *)
(* ===================================================================== *)

Module DbStoreFacts.
Import Solv Package Db.

(** ** Strings and paths. *)
Lemma string_app_assoc (a b c : string) : ((a ++ b) ++ c = a ++ b ++ c)%string.
Proof.
  induction a as [|x a IHa]; [reflexivity|].
  change (String x ((a ++ b) ++ c) = String x (a ++ b ++ c))%string.
  now rewrite IHa.
Qed.

Lemma string_length_app (a b : string) :
  String.length (a ++ b)%string = (String.length a + String.length b)%nat.
Proof. induction a as [|x a IH]; simpl; [reflexivity | now rewrite IH]. Qed.

Lemma prefix_app (a b : string) : String.prefix a (a ++ b) = true.
Proof.
  induction a as [|x a IHa].
  - now destruct b.
  - change (String.prefix (String x a) (String x (a ++ b)) = true).
    cbn [String.prefix].
    destruct (Ascii.ascii_dec x x); [assumption | congruence].
Qed.

Lemma substring_app (a b : string) :
  substring (String.length a) (String.length b) (a ++ b) = b.
Proof.
  induction a as [|x a IH].
  - change (substring 0 (String.length b) b = b).
    induction b as [|y b IHb]; [reflexivity|]. simpl. now rewrite IHb.
  - change (substring (S (String.length a)) (String.length b)
                      (String x (a ++ b)) = b).
    cbn [substring]. exact IH.
Qed.

Lemma substring_length_le (n : nat) (s : string) :
  (String.length (substring 0 n s) <= String.length s)%nat.
Proof.
  revert n. induction s as [|x s IH]; intros [|n]; simpl; try lia.
  specialize (IH n). lia.
Qed.

Lemma g_build_filename_inj (dir n m : string) :
  g_build_filename dir n = g_build_filename dir m -> n = m.
Proof.
  unfold g_build_filename. intros E.
  apply String.app_inj in E. now apply String.app_inj in E.
Qed.

Lemma below_build (dir name : string) : below dir (g_build_filename dir name) = true.
Proof.
  unfold below, g_build_filename. rewrite <- string_app_assoc. apply prefix_app.
Qed.

Lemma below_self (d : string) : below d d = false.
Proof.
  unfold below. destruct (String.prefix (d ++ "/") d) eqn:E; [|reflexivity].
  apply prefix_correct in E.
  apply (f_equal String.length) in E.
  pose proof (substring_length_le (String.length (d ++ "/")) d) as S.
  rewrite E, string_length_app in S. simpl in S. lia.
Qed.

(** The entry of a directory names the file built from it. *)
Lemma entry_name_build (d n : string) :
  n <> EmptyString -> has_substring "/" n = false ->
  entry_name d (g_build_filename d n) = Some n.
Proof.
  intros Hn Hs. unfold entry_name, g_build_filename.
  rewrite <- string_app_assoc, prefix_app.
  set (pre := (d ++ "/")%string).
  replace (String.length (pre ++ n) - String.length pre)%nat
    with (String.length n) by (rewrite string_length_app; lia).
  rewrite substring_app, Hs.
  destruct n; [congruence | reflexivity].
Qed.

Lemma has_entries_false (fs : gmap string Node) (d : string) :
  has_entries fs d = false ->
  forall path, below d path = true -> fs !! path = None.
Proof.
  unfold has_entries. intros H path Hb.
  destruct (fs !! path) as [v|] eqn:E; [|reflexivity].
  apply elem_of_map_to_list in E. apply list_elem_of_In in E.
  assert (X : existsb (fun kv : string * Node => below d (fst kv))
                      (map_to_list fs) = true).
  { apply existsb_exists. exists (path, v). split; assumption. }
  congruence.
Qed.

Lemma has_slash_build (d k : string) :
  has_substring "/" (d ++ "/" ++ k) = true.
Proof.
  induction d as [|x d IH].
  - change (has_substring "/" (String "/" k) = true).
    cbn [has_substring String.prefix]. now destruct k.
  - change (has_substring "/" (String x (d ++ "/" ++ k)) = true).
    cbn [has_substring]. rewrite IH. apply orb_true_r.
Qed.

(** The key files of two directories coincide only for the same key. *)
Lemma g_build_filename_key (d1 d2 k1 k2 : string) :
  has_substring "/" k1 = false -> has_substring "/" k2 = false ->
  g_build_filename d1 k1 = g_build_filename d2 k2 -> k1 = k2.
Proof.
  unfold g_build_filename. intros H1 H2. revert d2.
  induction d1 as [|x d1 IH]; intros [|y d2] E.
  - now injection E.
  - change (String "/" k1 = String y (d2 ++ "/" ++ k2))%string in E.
    injection E as _ E. subst k1. now rewrite has_slash_build in H1.
  - change (String x (d1 ++ "/" ++ k1) = String "/" k2)%string in E.
    injection E as _ E. subst k2. now rewrite has_slash_build in H2.
  - change (String x (d1 ++ "/" ++ k1) = String y (d2 ++ "/" ++ k2))%string in E.
    injection E as _ E. now apply (IH d2).
Qed.

(** ** Making directories. *)
Lemma insert_dirs_in (l : list string) (p : string) :
  forall fs : gmap string Node,
    In p l ->
    fold_left (fun fs d => <[d := Dir]> fs) l fs !! p = Some Dir.
Proof.
  induction l as [|d l IH]; intros fs Hin; [destruct Hin|].
  cbn [fold_left].
  destruct (in_dec string_dec p l) as [Hl|Hl]; [now apply IH|].
  destruct Hin as [->|Hin]; [|contradiction].
  clear IH. revert fs. induction l as [|d l IH]; intros fs; cbn [fold_left].
  - apply lookup_insert_eq.
  - assert (Hd : d <> p) by (intros ->; apply Hl; now left).
    rewrite insert_insert_ne by congruence.
    apply IH. intros H. apply Hl. now right.
Qed.

Lemma insert_dirs_notin (l : list string) (p : string) :
  forall fs : gmap string Node,
    ~ In p l ->
    fold_left (fun fs d => <[d := Dir]> fs) l fs !! p = fs !! p.
Proof.
  induction l as [|d l IH]; intros fs Hin; [reflexivity|].
  cbn [fold_left]. rewrite IH by (intros H; apply Hin; now right).
  apply lookup_insert_ne. intros ->. apply Hin. now left.
Qed.

(** A failed [hif_db_create_dir] leaves the store as it was. *)
Lemma create_dir_error (fs fs1 : gmap string Node) (d : string) (e : DbError) :
  hif_db_create_dir fs d = (Some e, fs1) -> fs1 = fs.
Proof.
  unfold hif_db_create_dir, g_file_make_directory_with_parents.
  destruct (is_dir fs d); [discriminate|].
  destruct (fs !! d); [intros H; now injection H as _ <-|].
  destruct (existsb (is_file fs) (ancestors d)); [|discriminate].
  intros H. now injection H as _ <-.
Qed.

(** A successful [hif_db_create_dir] leaves the directory behind, keeps
    every entry there was, and adds nothing but the directory and the
    directories above it. *)
Lemma create_dir_ok (fs fs1 : gmap string Node) (d : string) :
  hif_db_create_dir fs d = (None, fs1) ->
  fs1 !! d = Some Dir /\
  (forall p n, fs !! p = Some n -> fs1 !! p = Some n) /\
  (forall p, fs !! p = None ->
     fs1 !! p = None \/
     (fs1 !! p = Some Dir /\ (p = d \/ In p (ancestors d)))).
Proof.
  unfold hif_db_create_dir, is_dir, g_file_make_directory_with_parents.
  destruct (fs !! d) as [[c|]|] eqn:Ed; try discriminate.
  - intros H. injection H as <-. split; [exact Ed|]. split; [auto|]. now left.
  - destruct (existsb (is_file fs) (ancestors d)) eqn:Ef; [discriminate|].
    intros H. injection H as <-. split; [apply lookup_insert_eq|].
    assert (Hnf : forall a, In a (ancestors d) -> is_file fs a = false).
    { intros a Ha. destruct (is_file fs a) eqn:E; [|reflexivity].
      assert (X : existsb (is_file fs) (ancestors d) = true)
        by (apply existsb_exists; eauto).
      congruence. }
    split.
    + intros p n Hp.
      assert (Hpd : d <> p) by (intros ->; congruence).
      rewrite lookup_insert_ne by exact Hpd.
      destruct (in_dec string_dec p (ancestors d)) as [Hin|Hin].
      * rewrite (insert_dirs_in _ _ _ Hin).
        specialize (Hnf p Hin). unfold is_file in Hnf. rewrite Hp in Hnf.
        destruct n; [discriminate | reflexivity].
      * now rewrite (insert_dirs_notin _ _ _ Hin).
    + intros p Hp. destruct (string_dec d p) as [->|Hpd].
      * right. split; [apply lookup_insert_eq | now left].
      * rewrite lookup_insert_ne by exact Hpd.
        destruct (in_dec string_dec p (ancestors d)) as [Hin|Hin].
        -- right. split; [now apply insert_dirs_in | now right].
        -- left. now rewrite (insert_dirs_notin _ _ _ Hin).
Qed.

(** ** What a successful write and a successful removal leave. *)
Lemma set_string_effect (db : HifDb) (fs : gmap string Node)
  (package : DbPackage) (key value : string) :
  enabled db = true ->
  fst (fst (hif_db_set_string db fs (Some package) (Some key) (Some value)))
  = true ->
  exists d fs1,
    hif_db_get_dir_for_package db package = Some d /\
    hif_db_create_dir fs d = (None, fs1) /\
    hif_db_set_string db fs (Some package) (Some key) (Some value)
    = (true, None, <[g_build_filename d key := File value]> fs1).
Proof.
  intros He. unfold hif_db_set_string. rewrite He. cbn [negb].
  destruct (hif_db_get_dir_for_package db package) as [d|]; [|discriminate].
  destruct (hif_db_create_dir fs d) as [[e|] fs1] eqn:C; [discriminate|].
  intros H. exists d, fs1. split; [reflexivity|]. split; [exact C|].
  revert H. unfold g_file_set_contents.
  destruct (last (ancestors (g_build_filename d key))) as [a|].
  - destruct (negb (is_dir fs1 a)); [discriminate|].
    destruct (fs1 !! g_build_filename d key) as [[c|]|]; cbn;
      try discriminate; reflexivity.
  - destruct (fs1 !! g_build_filename d key) as [[c|]|]; cbn;
      try discriminate; reflexivity.
Qed.

(** Whatever [hif_db_set_string] does, the store afterwards is the store
    [hif_db_create_dir] left, with or without the file of the key. *)
Lemma set_string_store (db : HifDb) (fs : gmap string Node)
  (package : DbPackage) (key value d : string) :
  enabled db = true ->
  hif_db_get_dir_for_package db package = Some d ->
  snd (hif_db_set_string db fs (Some package) (Some key) (Some value))
  = snd (hif_db_create_dir fs d)
  \/ (fst (hif_db_create_dir fs d) = None /\
      snd (hif_db_set_string db fs (Some package) (Some key) (Some value))
      = <[g_build_filename d key := File value]> (snd (hif_db_create_dir fs d))).
Proof.
  intros He Hd. unfold hif_db_set_string. rewrite He, Hd. cbn [negb].
  destruct (hif_db_create_dir fs d) as [[e|] fs1]; [now left|].
  unfold g_file_set_contents. cbn [fst snd].
  destruct (last (ancestors (g_build_filename d key))) as [a|].
  - destruct (negb (is_dir fs1 a)); [now left|].
    destruct (fs1 !! g_build_filename d key) as [[c|]|]; cbn; auto.
  - destruct (fs1 !! g_build_filename d key) as [[c|]|]; cbn; auto.
Qed.

(** A successful write leaves every other regular file, and adds none:
    what is read under another path is what was read before. *)
Lemma set_string_keeps_files (db : HifDb) (fs fs' : gmap string Node)
  (package : DbPackage) (key value d path : string) (e : option DbError) :
  enabled db = true ->
  hif_db_get_dir_for_package db package = Some d ->
  hif_db_set_string db fs (Some package) (Some key) (Some value)
  = (true, e, fs') ->
  path <> g_build_filename d key ->
  forall v : string, fs' !! path = Some (File v) <-> fs !! path = Some (File v).
Proof.
  intros He Hd Hset Hp v.
  destruct (set_string_effect db fs package key value He)
    as [d' [fs1 [Hd' [C E]]]].
  { now rewrite Hset. }
  rewrite Hd in Hd'. injection Hd' as <-.
  rewrite Hset in E. injection E as _ ->.
  rewrite lookup_insert_ne by congruence.
  destruct (create_dir_ok fs fs1 d C) as [_ [K1 K2]].
  destruct (fs !! path) as [n|] eqn:F.
  - now rewrite (K1 path n F).
  - destruct (K2 path F) as [->|[-> _]]; split; discriminate.
Qed.

Lemma remove_effect (db : HifDb) (fs : gmap string Node)
  (package : DbPackage) (key : string) :
  enabled db = true ->
  fst (fst (hif_db_remove db fs (Some package) (Some key))) = true ->
  exists d,
    hif_db_get_dir_for_package db package = Some d /\
    hif_db_remove db fs (Some package) (Some key)
    = (true, None, delete (g_build_filename d key) fs).
Proof.
  intros He. unfold hif_db_remove. rewrite He. cbn [negb].
  destruct (hif_db_get_dir_for_package db package) as [d|]; [|discriminate].
  intros H. exists d. split; [reflexivity|]. revert H.
  unfold g_file_delete.
  destruct (fs !! g_build_filename d key) as [[c|]|]; cbn; try discriminate;
    try reflexivity.
  destruct (has_entries fs (g_build_filename d key)); cbn;
    [discriminate | reflexivity].
Qed.

(** Reading a key of a package whose directory is [d]. *)
Lemma get_string_lookup (db : HifDb) (fs : gmap string Node)
  (package : DbPackage) (key d value : string) :
  hif_db_get_dir_for_package db package = Some d ->
  fs !! g_build_filename d key = Some (File value) ->
  hif_db_get_string db fs (Some package) (Some key) = (Some value, None).
Proof. intros Hd Hf. unfold hif_db_get_string. now rewrite Hd, Hf. Qed.

(** X1.  A value written with [hif_db_set_string] on an enabled
    database is the value [hif_db_get_string] reads back for that package
    and key. *)
Lemma set_string_then_get_string (db : HifDb) (fs fs' : gmap string Node)
  (package : DbPackage) (key value : string) :
  enabled db = true ->
  hif_db_set_string db fs (Some package) (Some key) (Some value)
  = (true, None, fs') ->
  hif_db_get_string db fs' (Some package) (Some key) = (Some value, None).
Proof.
  intros He Hset.
  destruct (set_string_effect db fs package key value He) as [d [fs1 [Hd [_ E]]]].
  { now rewrite Hset. }
  rewrite Hset in E. injection E as ->.
  apply (get_string_lookup _ _ _ _ d); [assumption | apply lookup_insert_eq].
Qed.

Lemma set_string_then_get_string_witness :
  hif_db_get_string (hif_db_set_enabled ex_db true)
    (<["/var/lib/yum/yumdb/h/abc123-hal-0.3.4-1-i386/from_repo" := File "fedora"]>
       ex_store)
    (Some ex_package) (Some "from_repo"%string)
  = (Some "fedora"%string, None).
Proof.
  apply (set_string_then_get_string (hif_db_set_enabled ex_db true) ex_store).
  - reflexivity.
  - vm_compute. reflexivity.
Defined.

(** X2.  On an enabled database [hif_db_set_string] fails and leaves
    the store as it was when the package has no pkgid, when the path of the
    package directory is taken by a regular file, and when the directory is
    missing and a path above it is a regular file. *)
Lemma set_string_fails_cleanly (db : HifDb) (fs : gmap string Node)
  (package : DbPackage) (key value : string) :
  enabled db = true ->
  hif_db_get_dir_for_package db package = None
  \/ (exists d, hif_db_get_dir_for_package db package = Some d /\
                 (is_file fs d = true \/
                  (fs !! d = None /\
                   exists a, In a (ancestors d) /\ is_file fs a = true))) ->
  exists e : DbError,
    hif_db_set_string db fs (Some package) (Some key) (Some value)
    = (false, Some e, fs).
Proof.
  intros He H. unfold hif_db_set_string. rewrite He. cbn [negb].
  destruct H as [->|[d [-> H]]]; [eauto|].
  unfold hif_db_create_dir, is_dir, g_file_make_directory_with_parents.
  destruct H as [H|[Hn [a [Ha Hf]]]].
  - unfold is_file in H. destruct (fs !! d) as [[c|]|]; try discriminate. eauto.
  - rewrite Hn.
    assert (X : existsb (is_file fs) (ancestors d) = true)
      by (apply existsb_exists; eauto).
    rewrite X. eauto.
Qed.

Lemma set_string_fails_cleanly_witness :
  exists e : DbError,
    hif_db_set_string (hif_db_set_enabled ex_db true) ex_blocked_store
      (Some ex_new_package) (Some "reason"%string) (Some "dep"%string)
    = (false, Some e, ex_blocked_store).
Proof.
  apply (set_string_fails_cleanly (hif_db_set_enabled ex_db true)
           ex_blocked_store ex_new_package "reason" "dep" eq_refl).
  right. exists "/var/lib/yum/yumdb/i/def456-iso-codes-3.6-2-noarch"%string.
  split; [reflexivity|]. right. split; [vm_compute; reflexivity|].
  exists "/var/lib/yum"%string. split; [|vm_compute; reflexivity].
  vm_compute. right. right. now left.
Defined.

(** X3.  [hif_db_set_string] changes or removes no entry of the store
    other than the file of the key, and adds nothing besides that file but
    directories: the directory of the package and the directories above
    it. *)
Lemma set_string_frame (db : HifDb) (fs : gmap string Node)
  (package : DbPackage) (key value : string) (d path : string) :
  hif_db_get_dir_for_package db package = Some d ->
  path <> g_build_filename d key ->
  (forall n : Node,
     fs !! path = Some n ->
     snd (hif_db_set_string db fs (Some package) (Some key) (Some value)) !! path
     = Some n) /\
  (fs !! path = None ->
   snd (hif_db_set_string db fs (Some package) (Some key) (Some value)) !! path
   = None
   \/ (snd (hif_db_set_string db fs (Some package) (Some key) (Some value)) !! path
       = Some Dir /\ (path = d \/ In path (ancestors d)))).
Proof.
  intros Hd Hp.
  destruct (enabled db) eqn:He.
  2:{ unfold hif_db_set_string. rewrite He. cbn. split; [auto | now left]. }
  assert (K : forall fs1,
             snd (hif_db_create_dir fs d) = fs1 ->
             (forall n, fs !! path = Some n -> fs1 !! path = Some n) /\
             (fs !! path = None ->
              fs1 !! path = None \/
              (fs1 !! path = Some Dir /\ (path = d \/ In path (ancestors d))))).
  { intros fs1 E. destruct (hif_db_create_dir fs d) as [[e|] fs0] eqn:C;
      cbn [snd] in E; subst fs0.
    - apply create_dir_error in C. subst fs1. split; [auto | now left].
    - destruct (create_dir_ok fs fs1 d C) as [_ [K1 K2]]. split; auto. }
  destruct (set_string_store db fs package key value d He Hd) as [E|[_ E]];
    rewrite E.
  - now apply K.
  - rewrite lookup_insert_ne by congruence. now apply K.
Qed.

Lemma set_string_frame_witness :
  (forall n : Node,
     ex_store !! "/var/lib/yum/yumdb/h/abc123-hal-0.3.4-1-i386/reason"%string
     = Some n ->
     snd (hif_db_set_string (hif_db_set_enabled ex_db true) ex_store
            (Some ex_new_package) (Some "from_repo"%string) (Some "fedora"%string))
     !! "/var/lib/yum/yumdb/h/abc123-hal-0.3.4-1-i386/reason"%string
     = Some n) /\
  (ex_store !! "/var/lib/yum/yumdb/h/abc123-hal-0.3.4-1-i386/reason"%string
   = None ->
   snd (hif_db_set_string (hif_db_set_enabled ex_db true) ex_store
          (Some ex_new_package) (Some "from_repo"%string) (Some "fedora"%string))
   !! "/var/lib/yum/yumdb/h/abc123-hal-0.3.4-1-i386/reason"%string
   = None
   \/ (snd (hif_db_set_string (hif_db_set_enabled ex_db true) ex_store
              (Some ex_new_package) (Some "from_repo"%string)
              (Some "fedora"%string))
       !! "/var/lib/yum/yumdb/h/abc123-hal-0.3.4-1-i386/reason"%string
       = Some Dir /\
       ("/var/lib/yum/yumdb/h/abc123-hal-0.3.4-1-i386/reason"%string
        = "/var/lib/yum/yumdb/i/def456-iso-codes-3.6-2-noarch"%string
        \/ In "/var/lib/yum/yumdb/h/abc123-hal-0.3.4-1-i386/reason"%string
              (ancestors "/var/lib/yum/yumdb/i/def456-iso-codes-3.6-2-noarch")))).
Proof.
  apply (set_string_frame (hif_db_set_enabled ex_db true) ex_store
           ex_new_package "from_repo" "fedora"
           "/var/lib/yum/yumdb/i/def456-iso-codes-3.6-2-noarch").
  - reflexivity.
  - vm_compute. discriminate.
Defined.

(** X4.  After a successful [hif_db_remove] on an enabled database
    the key is gone and nothing else: [hif_db_get_string] fails with
    "key not found", and removing the key once more fails and leaves the
    store as it is. *)
Lemma remove_then_get_string (db : HifDb) (fs fs' : gmap string Node)
  (package : DbPackage) (key : string) :
  enabled db = true ->
  hif_db_remove db fs (Some package) (Some key) = (true, None, fs') ->
  exists d,
    hif_db_get_dir_for_package db package = Some d /\
    fs' = delete (g_build_filename d key) fs /\
    hif_db_get_string db fs' (Some package) (Some key)
    = (None, Some (DbFailed (g_build_filename d key ++ " key not found"))) /\
    hif_db_remove db fs' (Some package) (Some key)
    = (false, Some (GLibError "No such file or directory"), fs').
Proof.
  intros He Hrm.
  destruct (remove_effect db fs package key He) as [d [Hd E]].
  { now rewrite Hrm. }
  rewrite Hrm in E. injection E as ->.
  exists d. split; [assumption|]. split; [reflexivity|].
  unfold hif_db_get_string, hif_db_remove, g_file_delete.
  rewrite He, Hd. cbn [negb]. now rewrite lookup_delete_eq.
Qed.

Lemma remove_then_get_string_witness :
  exists d,
    hif_db_get_dir_for_package (hif_db_set_enabled ex_db true) ex_package
    = Some d /\
    delete "/var/lib/yum/yumdb/h/abc123-hal-0.3.4-1-i386/reason"%string ex_store
    = delete (g_build_filename d "reason") ex_store /\
    hif_db_get_string (hif_db_set_enabled ex_db true)
      (delete "/var/lib/yum/yumdb/h/abc123-hal-0.3.4-1-i386/reason"%string ex_store)
      (Some ex_package) (Some "reason"%string)
    = (None, Some (DbFailed (g_build_filename d "reason" ++ " key not found"))) /\
    hif_db_remove (hif_db_set_enabled ex_db true)
      (delete "/var/lib/yum/yumdb/h/abc123-hal-0.3.4-1-i386/reason"%string ex_store)
      (Some ex_package) (Some "reason"%string)
    = (false, Some (GLibError "No such file or directory"),
       delete "/var/lib/yum/yumdb/h/abc123-hal-0.3.4-1-i386/reason"%string ex_store).
Proof.
  apply (remove_then_get_string (hif_db_set_enabled ex_db true) ex_store).
  - reflexivity.
  - vm_compute. reflexivity.
Defined.

(** ** Removing a whole entry. *)
Lemma g_file_delete_sub (fs : gmap string Node) (p path : string) (v : Node) :
  snd (g_file_delete fs p) !! path = Some v -> fs !! path = Some v.
Proof.
  unfold g_file_delete.
  destruct (fs !! p) as [[c|]|]; cbn [snd]; try (intros H; exact H).
  - intros H. apply lookup_delete_Some in H. tauto.
  - destruct (has_entries fs p); cbn [snd]; [intros H; exact H|].
    intros H. apply lookup_delete_Some in H. tauto.
Qed.

Lemma g_file_delete_other (fs : gmap string Node) (p path : string) :
  p <> path -> snd (g_file_delete fs p) !! path = fs !! path.
Proof.
  intros Hne. unfold g_file_delete.
  destruct (fs !! p) as [[c|]|]; cbn [snd]; try reflexivity.
  - now apply lookup_delete_ne.
  - destruct (has_entries fs p); cbn [snd];
      [reflexivity | now apply lookup_delete_ne].
Qed.

(** The loop "delete each one, ignoring error" only deletes, *)
Lemma delete_entries_sub (d : string) (l : list string) :
  forall (fs : gmap string Node) (path : string) (v : Node),
    fold_left (fun fs filename =>
                 snd (g_file_delete fs (g_build_filename d filename))) l fs
    !! path = Some v ->
    fs !! path = Some v.
Proof.
  induction l as [|n l IH]; intros fs path v H; cbn [fold_left] in H;
    [exact H|].
  apply IH in H. now apply g_file_delete_sub in H.
Qed.

(** only below the directory, *)
Lemma delete_entries_keeps (d : string) (l : list string) :
  forall (fs : gmap string Node) (path : string),
    below d path = false ->
    fold_left (fun fs filename =>
                 snd (g_file_delete fs (g_build_filename d filename))) l fs
    !! path = fs !! path.
Proof.
  induction l as [|n l IH]; intros fs path Hb; cbn [fold_left]; [reflexivity|].
  rewrite IH by assumption. apply g_file_delete_other.
  intros <-. now rewrite below_build in Hb.
Qed.

(** and deletes every regular file it names. *)
Lemma delete_entries_file (d : string) (l : list string) :
  forall (fs : gmap string Node) (n c : string),
    In n l -> fs !! g_build_filename d n = Some (File c) ->
    fold_left (fun fs filename =>
                 snd (g_file_delete fs (g_build_filename d filename))) l fs
    !! g_build_filename d n = None.
Proof.
  induction l as [|m l IH]; intros fs n c Hin Hf; [contradiction|].
  cbn [fold_left].
  destruct (string_dec m n) as [->|Hne].
  - match goal with |- ?x = None => destruct x as [v|] eqn:E end;
      [|reflexivity].
    apply delete_entries_sub in E. unfold g_file_delete in E.
    rewrite Hf in E. cbn [snd] in E. now rewrite lookup_delete_eq in E.
  - destruct Hin as [E|Hin]; [congruence|].
    apply (IH _ n c Hin). rewrite g_file_delete_other; [exact Hf|].
    intros E. apply Hne. now apply g_build_filename_inj in E.
Qed.

(** What a successful [hif_db_remove_all] of an existing directory
    leaves. *)
Lemma remove_all_effect (db : HifDb) (fs fs' : gmap string Node)
  (package : DbPackage) (d : string) (ok : bool) (e : option DbError) :
  enabled db = true ->
  hif_db_get_dir_for_package db package = Some d ->
  is_dir fs d = true ->
  hif_db_remove_all db fs (Some package) = (ok, e, fs') ->
  let fs1 := fold_left (fun fs filename =>
                 snd (g_file_delete fs (g_build_filename d filename)))
               (dir_entries fs d) fs in
  if has_entries fs1 d
  then ok = false /\ e = Some (GLibError "Directory not empty") /\ fs' = fs1
  else ok = true /\ e = None /\ fs' = delete d fs1.
Proof.
  intros He Hd Hdir. unfold hif_db_remove_all. rewrite He, Hd, Hdir.
  cbn [negb]. cbn zeta.
  set (fs1 := fold_left _ _ fs).
  unfold g_file_delete.
  replace (fs1 !! d) with (fs !! d)
    by (symmetry; apply delete_entries_keeps, below_self).
  unfold is_dir in Hdir. destruct (fs !! d) as [[c|]|]; try discriminate.
  destruct (has_entries fs1 d); intros H; injection H as <- <- <-;
    repeat split.
Qed.

(** X5.  When [hif_db_remove_all] succeeds on an enabled database for
    a package whose directory exists, the directory and everything below
    it are gone, and every other path is as before. *)
Lemma remove_all_clears_directory (db : HifDb) (fs fs' : gmap string Node)
  (package : DbPackage) (d : string) :
  enabled db = true ->
  hif_db_get_dir_for_package db package = Some d ->
  is_dir fs d = true ->
  hif_db_remove_all db fs (Some package) = (true, None, fs') ->
  fs' !! d = None /\
  (forall path, below d path = true -> fs' !! path = None) /\
  (forall path, path <> d -> below d path = false -> fs' !! path = fs !! path).
Proof.
  intros He Hd Hdir R.
  pose proof (remove_all_effect db fs fs' package d true None He Hd Hdir R) as E.
  cbn zeta in E.
  destruct (has_entries _ d) eqn:Hent; [destruct E; discriminate|].
  destruct E as [_ [_ ->]]. split; [apply lookup_delete_eq|]. split.
  - intros path Hb. apply lookup_delete_None. right.
    now apply (has_entries_false _ d).
  - intros path Hne Hb. rewrite lookup_delete_ne by congruence.
    now apply delete_entries_keeps.
Qed.

Lemma remove_all_clears_directory_witness :
  (∅ : gmap string Node) !! "/var/lib/yum/yumdb/h/abc123-hal-0.3.4-1-i386"%string
  = None /\
  (forall path,
     below "/var/lib/yum/yumdb/h/abc123-hal-0.3.4-1-i386" path = true ->
     (∅ : gmap string Node) !! path = None) /\
  (forall path,
     path <> "/var/lib/yum/yumdb/h/abc123-hal-0.3.4-1-i386"%string ->
     below "/var/lib/yum/yumdb/h/abc123-hal-0.3.4-1-i386" path = false ->
     (∅ : gmap string Node) !! path = ex_store !! path).
Proof.
  apply (remove_all_clears_directory (hif_db_set_enabled ex_db true) ex_store ∅
           ex_package).
  - reflexivity.
  - reflexivity.
  - vm_compute. reflexivity.
  - vm_compute. reflexivity.
Defined.

(** X6.  [hif_db_remove_all] succeeds on a package directory that
    holds nothing but key files, and removes the directory with all of
    them. *)
Lemma remove_all_of_key_files (db : HifDb) (fs : gmap string Node)
  (package : DbPackage) (d : string) :
  enabled db = true ->
  hif_db_get_dir_for_package db package = Some d ->
  is_dir fs d = true ->
  (forall path v, fs !! path = Some v -> below d path = true ->
     exists n c, path = g_build_filename d n /\ n <> EmptyString /\
                 has_substring "/" n = false /\ v = File c) ->
  exists fs', hif_db_remove_all db fs (Some package) = (true, None, fs') /\
              fs' !! d = None /\
              forall path, below d path = true -> fs' !! path = None.
Proof.
  intros He Hd Hdir Hfiles.
  destruct (hif_db_remove_all db fs (Some package)) as [[ok e] fs'] eqn:R.
  pose proof (remove_all_effect db fs fs' package d ok e He Hd Hdir R) as E.
  cbn zeta in E.
  match type of E with
  | if has_entries ?f d then _ else _ => set (fs1 := f) in *
  end.
  assert (Hent : has_entries fs1 d = false).
  { unfold has_entries. apply not_true_is_false. intros X.
    apply existsb_exists in X. destruct X as [[path v] [Hin Hb]].
    cbn [fst] in Hb. apply list_elem_of_In, elem_of_map_to_list in Hin.
    pose proof (delete_entries_sub _ _ _ _ _ Hin) as Hfs.
    destruct (Hfiles path v Hfs Hb) as [n [c [-> [Hn [Hs ->]]]]].
    assert (In n (dir_entries fs d)).
    { apply list_elem_of_In. unfold dir_entries. apply list_elem_of_omap.
      exists (g_build_filename d n, File c). split.
      - now apply elem_of_map_to_list.
      - cbn [fst]. now apply entry_name_build. }
    unfold fs1 in Hin.
    rewrite (delete_entries_file d _ fs n c) in Hin by assumption.
    discriminate. }
  rewrite Hent in E. destruct E as [-> [-> ->]].
  exists (delete d fs1). split; [reflexivity|].
  split; [apply lookup_delete_eq|].
  intros path Hb. apply lookup_delete_None. right.
  now apply (has_entries_false fs1 d).
Qed.

Lemma remove_all_of_key_files_witness :
  exists fs',
    hif_db_remove_all (hif_db_set_enabled ex_db true) ex_store (Some ex_package)
    = (true, None, fs') /\
    fs' !! "/var/lib/yum/yumdb/h/abc123-hal-0.3.4-1-i386"%string = None /\
    forall path,
      below "/var/lib/yum/yumdb/h/abc123-hal-0.3.4-1-i386" path = true ->
      fs' !! path = None.
Proof.
  apply (remove_all_of_key_files (hif_db_set_enabled ex_db true) ex_store
           ex_package "/var/lib/yum/yumdb/h/abc123-hal-0.3.4-1-i386").
  - reflexivity.
  - reflexivity.
  - vm_compute. reflexivity.
  - intros path v Hl Hb. unfold ex_store in Hl.
    apply lookup_insert_Some in Hl. destruct Hl as [[<- <-] | [_ Hl]].
    + exists "reason"%string, "user"%string. repeat split. discriminate.
    + apply lookup_insert_Some in Hl. destruct Hl as [[<- <-] | [_ Hl]].
      * vm_compute in Hb. discriminate.
      * rewrite lookup_empty in Hl. discriminate.
Defined.

End DbStoreFacts.

(* ===================================================================== *)
(** * Properties of the package state and of the yumdb entries *)
(* ===================================================================== *)

Module YumdbFacts.
Import Solv Package Db PackageState Yumdb DbStoreFacts.

(** X7.  The package-id is calculated once: after the first
    [hif_package_get_package_id], setting another origin does not change
    the id the package reports. *)
Lemma package_id_is_cached (a : HyAttrs) (priv : HifPackagePrivate)
  (origin : option string) :
  let id := fst (hif_package_get_package_id a priv) in
  let priv1 := snd (hif_package_get_package_id a priv) in
  hif_package_get_package_id a (hif_package_set_origin priv1 origin)
  = (id, hif_package_set_origin priv1 origin).
Proof.
  cbn zeta. unfold hif_package_get_package_id.
  destruct (priv_package_id priv) as [id|] eqn:E; cbn.
  - now rewrite E.
  - reflexivity.
Qed.

Lemma ensure_repo_unchanged_on_error (show_uint : nat -> string)
  (repos : option (list HifRepo)) (a : HyAttrs) (priv priv' : HifPackagePrivate)
  (e : HifError * string) :
  hif_transaction_ensure_repo show_uint repos a priv = (Some e, priv') ->
  priv' = priv.
Proof.
  unfold hif_transaction_ensure_repo.
  destruct repos as [repos|]; [|now intros [= _ <-]].
  destruct (String.eqb (a_reponame a) HY_CMDLINE_REPO_NAME); [discriminate|].
  destruct (a_installed a); [discriminate|].
  destruct (List.find _ repos); [discriminate | now intros [= _ <-]].
Qed.

Lemma ensure_repo_sets_repo (show_uint : nat -> string)
  (repos : option (list HifRepo)) (a : HyAttrs) (priv priv' : HifPackagePrivate) :
  hif_transaction_ensure_repo show_uint repos a priv = (None, priv') ->
  String.eqb (a_reponame a) HY_CMDLINE_REPO_NAME = false ->
  a_installed a = false ->
  exists repo, priv_repo priv' = Some repo /\ repo_id repo = a_reponame a /\
               In repo (default [] repos).
Proof.
  unfold hif_transaction_ensure_repo. intros H Hc Hi.
  destruct repos as [repos|]; [|discriminate].
  rewrite Hc, Hi in H.
  destruct (List.find _ repos) as [repo|] eqn:F; [|discriminate].
  injection H as <-. apply find_some in F. destruct F as [Hin Heq].
  exists repo. split; [reflexivity|]. split; [|exact Hin].
  apply String.eqb_eq in Heq. now symmetry.
Qed.

(** X8.  When [hif_transaction_ensure_repo_list] succeeds, every
    package of the list that is neither installed nor a local file has its
    repo set, to a loaded repo whose id is the repo name of the package;
    the packages and their order are as before. *)
Lemma ensure_repo_list_sets_repos (show_uint : nat -> string)
  (repos : option (list HifRepo)) (pkglist : list (HyAttrs * HifPackagePrivate)) :
  forall pkglist',
    hif_transaction_ensure_repo_list show_uint repos pkglist = (None, pkglist') ->
    List.map fst pkglist' = List.map fst pkglist /\
    List.Forall
      (fun p =>
         String.eqb (a_reponame (fst p)) HY_CMDLINE_REPO_NAME = false ->
         a_installed (fst p) = false ->
         exists repo, hif_package_get_repo (snd p) = Some repo /\
                      repo_id repo = a_reponame (fst p) /\
                      In repo (default [] repos))
      pkglist'.
Proof.
  induction pkglist as [|[a priv] rest IH]; intros pkglist' H.
  - injection H as <-. split; [reflexivity | constructor].
  - cbn [hif_transaction_ensure_repo_list] in H.
    destruct (hif_transaction_ensure_repo show_uint repos a priv)
      as [[e|] priv'] eqn:E; [discriminate|].
    destruct (hif_transaction_ensure_repo_list show_uint repos rest)
      as [e rest'] eqn:R.
    injection H as -> <-.
    destruct (IH rest' eq_refl) as [Hm Hf]. split.
    + cbn [List.map fst]. now rewrite Hm.
    + constructor; [|exact Hf]. cbn [fst snd]. intros Hc Hi.
      now apply (ensure_repo_sets_repo show_uint repos a priv).
Qed.

Lemma ensure_repo_list_sets_repos_witness :
  List.map fst [(ex_installed, hif_package_get_priv);
                (ex_available,
                 hif_package_set_repo hif_package_get_priv (mkRepo "fedora" true))]
  = List.map fst [(ex_installed, hif_package_get_priv);
                  (ex_available, hif_package_get_priv)] /\
  List.Forall
    (fun p =>
       String.eqb (a_reponame (fst p)) HY_CMDLINE_REPO_NAME = false ->
       a_installed (fst p) = false ->
       exists repo, hif_package_get_repo (snd p) = Some repo /\
                    repo_id repo = a_reponame (fst p) /\
                    In repo (default [] (Some ex_repos)))
    [(ex_installed, hif_package_get_priv);
     (ex_available,
      hif_package_set_repo hif_package_get_priv (mkRepo "fedora" true))].
Proof.
  apply (ensure_repo_list_sets_repos ex_show_uint (Some ex_repos)
           [(ex_installed, hif_package_get_priv);
            (ex_available, hif_package_get_priv)]).
  reflexivity.
Defined.

(** X9.  A failing [hif_transaction_ensure_repo_list] stops at the
    first package it cannot place: the packages before it are handled, that
    package and the ones after it are as they were. *)
Lemma ensure_repo_list_stops_at_failure (show_uint : nat -> string)
  (repos : option (list HifRepo)) (pkglist : list (HyAttrs * HifPackagePrivate)) :
  forall e pkglist',
    hif_transaction_ensure_repo_list show_uint repos pkglist = (Some e, pkglist') ->
    exists done a priv rest,
      pkglist = done ++ (a, priv) :: rest /\
      hif_transaction_ensure_repo show_uint repos a priv = (Some e, priv) /\
      exists done',
        hif_transaction_ensure_repo_list show_uint repos done = (None, done') /\
        pkglist' = done' ++ (a, priv) :: rest.
Proof.
  induction pkglist as [|[a priv] rest IH]; intros e pkglist' H.
  - discriminate.
  - cbn [hif_transaction_ensure_repo_list] in H.
    destruct (hif_transaction_ensure_repo show_uint repos a priv)
      as [[e1|] priv'] eqn:E.
    + injection H as <- <-.
      pose proof (ensure_repo_unchanged_on_error _ _ _ _ _ _ E) as ->.
      exists [], a, priv, rest. split; [reflexivity|]. split; [exact E|].
      exists []. split; reflexivity.
    + destruct (hif_transaction_ensure_repo_list show_uint repos rest)
        as [e2 rest'] eqn:R.
      injection H as -> <-.
      destruct (IH e rest' eq_refl)
        as [done [a0 [priv0 [rest0 [-> [E0 [done' [D ->]]]]]]]].
      exists ((a, priv) :: done), a0, priv0, rest0.
      split; [reflexivity|]. split; [exact E0|].
      exists ((a, priv') :: done'). split; [|reflexivity].
      cbn [hif_transaction_ensure_repo_list]. now rewrite E, D.
Qed.

Lemma ensure_repo_list_stops_at_failure_witness :
  exists done a priv rest,
    [(ex_installed, hif_package_get_priv); (ex_available, hif_package_get_priv)]
    = done ++ (a, priv) :: rest /\
    hif_transaction_ensure_repo ex_show_uint (Some []) a priv
    = (Some (HIF_ERROR_INTERNAL_ERROR,
             "Failed to ensure hal-devel as repo fedora not found(0 repos loaded)"%string),
       priv) /\
    exists done',
      hif_transaction_ensure_repo_list ex_show_uint (Some []) done = (None, done') /\
      [(ex_installed, hif_package_get_priv); (ex_available, hif_package_get_priv)]
      = done' ++ (a, priv) :: rest.
Proof.
  apply (ensure_repo_list_stops_at_failure ex_show_uint (Some [])
           [(ex_installed, hif_package_get_priv);
            (ex_available, hif_package_get_priv)]).
  reflexivity.
Defined.

(** ** The origin of an installed package. *)

(** X10.  [hif_db_ensure_origin_pkg] reads back what was written under
    [from_repo]: for an installed package without origin, the origin
    afterwards is the value [hif_db_set_string] stored. *)
Lemma ensure_origin_reads_from_repo (db : HifDb) (fs fs' : gmap string Node)
  (package : DbPackage) (a : HyAttrs) (priv : HifPackagePrivate)
  (value : string) :
  enabled db = true ->
  a_installed a = true ->
  priv_origin priv = None ->
  hif_db_set_string db fs (Some package) (Some "from_repo"%string) (Some value)
  = (true, None, fs') ->
  hif_db_ensure_origin_pkg db fs' package a priv
  = hif_package_set_origin priv (Some value).
Proof.
  intros He Hi Ho Hset.
  destruct (set_string_effect db fs package "from_repo" value He)
    as [d [fs1 [Hd [_ E]]]].
  { now rewrite Hset. }
  rewrite Hset in E. injection E as ->.
  unfold hif_db_ensure_origin_pkg, hif_package_get_origin.
  rewrite Hi, Ho. cbn [negb].
  rewrite (get_string_lookup _ _ _ _ d value Hd) by apply lookup_insert_eq.
  reflexivity.
Qed.

Lemma ensure_origin_reads_from_repo_witness :
  hif_db_ensure_origin_pkg (hif_db_set_enabled ex_db true)
    (<["/var/lib/yum/yumdb/h/abc123-hal-0.3.4-1-i386/from_repo" := File "fedora"]>
       ex_store)
    ex_package ex_installed hif_package_get_priv
  = hif_package_set_origin hif_package_get_priv (Some "fedora"%string).
Proof.
  apply (ensure_origin_reads_from_repo (hif_db_set_enabled ex_db true) ex_store).
  - reflexivity.
  - reflexivity.
  - reflexivity.
  - vm_compute. reflexivity.
Defined.

(** X11.  [hif_db_ensure_origin_pkg] never replaces an origin that is
    set, leaves alone a package that is not installed, and running it a
    second time changes nothing. *)
Lemma ensure_origin_keeps_origin (db : HifDb) (fs : gmap string Node)
  (package : DbPackage) (a : HyAttrs) (priv : HifPackagePrivate) :
  (forall origin, priv_origin priv = Some origin ->
     priv_origin (hif_db_ensure_origin_pkg db fs package a priv) = Some origin) /\
  (a_installed a = false ->
     hif_db_ensure_origin_pkg db fs package a priv = priv) /\
  hif_db_ensure_origin_pkg db fs package a
    (hif_db_ensure_origin_pkg db fs package a priv)
  = hif_db_ensure_origin_pkg db fs package a priv.
Proof.
  unfold hif_db_ensure_origin_pkg, hif_package_get_origin.
  split; [|split].
  - intros origin Ho. rewrite Ho. destruct (a_installed a); cbn; assumption.
  - intros ->. reflexivity.
  - destruct (a_installed a); cbn [negb]; [|reflexivity].
    destruct (priv_origin priv) as [o|] eqn:Ho; [now rewrite Ho|].
    destruct (fst (hif_db_get_string db fs (Some package) (Some "from_repo"%string)))
      as [tmp|] eqn:G; cbn.
    + reflexivity.
    + unfold hif_package_get_package_id.
      destruct (priv_package_id priv) as [id|] eqn:Hid; cbn.
      * now rewrite Ho, Hid.
      * now rewrite Ho.
Qed.

(** ** The entry written for an installed package. *)
Lemma set_string_keeps_key (db : HifDb) (fs fs' : gmap string Node)
  (package : DbPackage) (d key value key' value' : string) (e : option DbError) :
  enabled db = true ->
  hif_db_get_dir_for_package db package = Some d ->
  hif_db_set_string db fs (Some package) (Some key) (Some value)
  = (true, e, fs') ->
  key' <> key ->
  fs !! g_build_filename d key' = Some (File value') ->
  fs' !! g_build_filename d key' = Some (File value').
Proof.
  intros He Hd Hset Hne Hf.
  destruct (set_string_effect db fs package key value He)
    as [d' [fs1 [Hd' [C E]]]].
  { now rewrite Hset. }
  rewrite Hd in Hd'. injection Hd' as <-.
  rewrite Hset in E. injection E as _ ->.
  rewrite lookup_insert_ne
    by (intros X; apply g_build_filename_inj in X; congruence).
  destruct (create_dir_ok fs fs1 d C) as [_ [K _]]. now apply K.
Qed.

Lemma set_string_stores_key (db : HifDb) (fs fs' : gmap string Node)
  (package : DbPackage) (d key value : string) (e : option DbError) :
  enabled db = true ->
  hif_db_get_dir_for_package db package = Some d ->
  hif_db_set_string db fs (Some package) (Some key) (Some value)
  = (true, e, fs') ->
  fs' !! g_build_filename d key = Some (File value).
Proof.
  intros He Hd Hset.
  destruct (set_string_effect db fs package key value He)
    as [d' [fs1 [Hd' [_ E]]]].
  { now rewrite Hset. }
  rewrite Hd in Hd'. injection Hd' as <-.
  rewrite Hset in E. injection E as _ ->. apply lookup_insert_eq.
Qed.

Lemma set_string_null_value (db : HifDb) (fs : gmap string Node)
  (package : DbPackage) (key : string) :
  hif_db_set_string db fs (Some package) (Some key) None = (false, None, fs).
Proof. reflexivity. Qed.

(** Writing a key for one package does not change what is read under
    another key, for that package or for another one. *)
Lemma set_string_keeps_reading (db : HifDb) (fs fs' : gmap string Node)
  (package other : DbPackage) (key value key' : string) (e : option DbError) :
  enabled db = true ->
  hif_db_set_string db fs (Some package) (Some key) (Some value)
  = (true, e, fs') ->
  has_substring "/" key = false -> has_substring "/" key' = false ->
  key' <> key ->
  fst (hif_db_get_string db fs' (Some other) (Some key'))
  = fst (hif_db_get_string db fs (Some other) (Some key')).
Proof.
  intros He Hset Hk Hk' Hne.
  destruct (set_string_effect db fs package key value He)
    as [d [fs1 [Hd _]]].
  { now rewrite Hset. }
  unfold hif_db_get_string.
  destruct (hif_db_get_dir_for_package db other) as [d'|]; [|reflexivity].
  assert (Hp : g_build_filename d' key' <> g_build_filename d key).
  { intros X. apply g_build_filename_key in X; congruence. }
  pose proof (set_string_keeps_files db fs fs' package key value d
                (g_build_filename d' key') e He Hd Hset Hp) as K.
  destruct (fs' !! g_build_filename d' key') as [[v|]|] eqn:F'.
  - now rewrite (proj1 (K v) eq_refl).
  - destruct (fs !! g_build_filename d' key') as [[w|]|] eqn:F;
      try reflexivity.
    pose proof (proj2 (K w) eq_refl). discriminate.
  - destruct (fs !! g_build_filename d' key') as [[w|]|] eqn:F;
      try reflexivity.
    pose proof (proj2 (K w) eq_refl). discriminate.
Qed.

Lemma propagated_reason_same (db : HifDb) (fs fs' : gmap string Node)
  (package : DbPackage) (key value : string) (e : option DbError)
  (installonly : bool) (action : HifStateAction) (package_id : string)
  (hash : option (gmap string DbPackage)) (goal_reason : option HyReason) :
  enabled db = true ->
  hif_db_set_string db fs (Some package) (Some key) (Some value)
  = (true, e, fs') ->
  has_substring "/" key = false -> key <> "reason"%string ->
  hif_transaction_get_propagated_reason db fs' installonly action package_id
    hash goal_reason
  = hif_transaction_get_propagated_reason db fs installonly action package_id
      hash goal_reason.
Proof.
  intros He Hset Hk Hne. unfold hif_transaction_get_propagated_reason.
  destruct installonly; [reflexivity|].
  destruct (_ || _); [|reflexivity].
  destruct (default ∅ hash !! package_id) as [erased|]; [|reflexivity].
  rewrite (set_string_keeps_reading db fs fs' package erased key value "reason" e
             He Hset Hk eq_refl); [reflexivity | congruence].
Qed.

(** X12.  After [hif_transaction_write_yumdb_install_item] succeeded
    on an enabled database, the four keys of the package read back as the
    repo name, the uid, the reason and the release version, where the
    reason is the one [hif_transaction_get_propagated_reason] gives on the
    store as it was before the entry was written. *)
Lemma write_yumdb_install_item_reads_back (db : HifDb) (fs fs' : gmap string Node)
  (show_int : Z -> string) (pkg : DbPackage) (reponame : option string)
  (uid : Z) (installonly : bool) (action : HifStateAction)
  (hash : option (gmap string DbPackage)) (goal_reason : option HyReason)
  (release_ver : option string) (e : option YumdbError) :
  enabled db = true ->
  hif_transaction_write_yumdb_install_item db fs show_int pkg reponame uid
    installonly action hash goal_reason release_ver = Some (true, e, fs') ->
  exists reason,
    hif_transaction_get_propagated_reason db fs installonly action
      (package_id pkg) hash goal_reason = Some reason /\
    hif_db_get_string db fs' (Some pkg) (Some "from_repo"%string)
    = (reponame, None) /\
    hif_db_get_string db fs' (Some pkg) (Some "installed_by"%string)
    = (Some (show_int (if uid <? 2 ^ 31 then uid else uid - 2 ^ 32)), None) /\
    hif_db_get_string db fs' (Some pkg) (Some "reason"%string)
    = (Some reason, None) /\
    hif_db_get_string db fs' (Some pkg) (Some "releasever"%string)
    = (release_ver, None).
Proof.
  intros He. unfold hif_transaction_write_yumdb_install_item.
  destruct (pkgid pkg) as [id|] eqn:Hid; [|discriminate].
  destruct (hif_db_get_dir_for_package db pkg) as [d|] eqn:Hd.
  2:{ unfold hif_db_get_dir_for_package in Hd. rewrite Hid in Hd.
      destruct (name pkg); discriminate. }
  destruct reponame as [repo|]; [|rewrite set_string_null_value; discriminate].
  destruct (hif_db_set_string db fs (Some pkg) (Some "from_repo"%string) (Some repo))
    as [[[|] e1] fs1] eqn:S1; [|discriminate].
  destruct (hif_db_set_string db fs1 (Some pkg) (Some "installed_by"%string) _)
    as [[[|] e2] fs2] eqn:S2; [|discriminate].
  destruct (hif_transaction_get_propagated_reason db fs2 installonly action
              (package_id pkg) hash goal_reason) as [reason|] eqn:R;
    [|discriminate].
  destruct (hif_db_set_string db fs2 (Some pkg) (Some "reason"%string) (Some reason))
    as [[[|] e3] fs3] eqn:S3; [|discriminate].
  destruct release_ver as [ver|]; [|rewrite set_string_null_value; discriminate].
  destruct (hif_db_set_string db fs3 (Some pkg) (Some "releasever"%string) (Some ver))
    as [[ok e4] fs4] eqn:S4.
  intros H. injection H as -> _ ->.
  pose proof (set_string_stores_key _ _ _ _ _ _ _ _ He Hd S1) as K1.
  pose proof (set_string_stores_key _ _ _ _ _ _ _ _ He Hd S2) as K2.
  pose proof (set_string_stores_key _ _ _ _ _ _ _ _ He Hd S3) as K3.
  pose proof (set_string_stores_key _ _ _ _ _ _ _ _ He Hd S4) as K4.
  exists reason. split; [|repeat split].
  - rewrite <- R.
    rewrite (propagated_reason_same db fs1 fs2 pkg "installed_by" _ e2
               installonly action (package_id pkg) hash goal_reason He S2 eq_refl)
      by discriminate.
    rewrite (propagated_reason_same db fs fs1 pkg "from_repo" _ e1
               installonly action (package_id pkg) hash goal_reason He S1 eq_refl)
      by discriminate.
    reflexivity.
  - apply (get_string_lookup _ _ _ _ d); [assumption|].
    apply (set_string_keeps_key _ _ _ _ _ _ _ _ _ _ He Hd S4); [discriminate|].
    apply (set_string_keeps_key _ _ _ _ _ _ _ _ _ _ He Hd S3); [discriminate|].
    apply (set_string_keeps_key _ _ _ _ _ _ _ _ _ _ He Hd S2); [discriminate|].
    exact K1.
  - apply (get_string_lookup _ _ _ _ d); [assumption|].
    apply (set_string_keeps_key _ _ _ _ _ _ _ _ _ _ He Hd S4); [discriminate|].
    apply (set_string_keeps_key _ _ _ _ _ _ _ _ _ _ He Hd S3); [discriminate|].
    exact K2.
  - apply (get_string_lookup _ _ _ _ d); [assumption|].
    apply (set_string_keeps_key _ _ _ _ _ _ _ _ _ _ He Hd S4); [discriminate|].
    exact K3.
  - apply (get_string_lookup _ _ _ _ d); assumption.
Qed.

Lemma write_yumdb_install_item_reads_back_witness :
  exists reason,
    hif_transaction_get_propagated_reason (hif_db_set_enabled ex_db true)
      ex_store false HIF_STATE_ACTION_UPDATE (package_id ex_hal_update)
      (Some ex_erased_by) (Some HY_REASON_DEP) = Some reason /\
    hif_db_get_string (hif_db_set_enabled ex_db true) ex_updated_store
      (Some ex_hal_update) (Some "from_repo"%string)
    = (Some "fedora"%string, None) /\
    hif_db_get_string (hif_db_set_enabled ex_db true) ex_updated_store
      (Some ex_hal_update) (Some "installed_by"%string)
    = (Some (ex_show_int (if 0 <? 2 ^ 31 then 0 else 0 - 2 ^ 32)), None) /\
    hif_db_get_string (hif_db_set_enabled ex_db true) ex_updated_store
      (Some ex_hal_update) (Some "reason"%string)
    = (Some reason, None) /\
    hif_db_get_string (hif_db_set_enabled ex_db true) ex_updated_store
      (Some ex_hal_update) (Some "releasever"%string)
    = (Some "23"%string, None).
Proof.
  apply (write_yumdb_install_item_reads_back (hif_db_set_enabled ex_db true)
           ex_store ex_updated_store ex_show_int ex_hal_update
           (Some "fedora"%string) 0 false HIF_STATE_ACTION_UPDATE
           (Some ex_erased_by) (Some HY_REASON_DEP) (Some "23"%string) None).
  - reflexivity.
  - vm_compute. reflexivity.
Defined.

(** X13.  An update, downgrade or reinstall of a package that is not
    install-only takes over the reason stored for the package it replaces:
    what [hif_db_set_string] wrote under [reason] for the erased package is
    what [hif_transaction_get_propagated_reason] answers, whatever the
    solver says about the new package. *)
Lemma propagated_reason_of_replaced (db : HifDb) (fs fs' : gmap string Node)
  (action : HifStateAction) (package_id : string)
  (hash : gmap string DbPackage) (erased : DbPackage) (reason : string)
  (goal_reason : option HyReason) :
  enabled db = true ->
  action = HIF_STATE_ACTION_UPDATE \/ action = HIF_STATE_ACTION_DOWNGRADE
  \/ action = HIF_STATE_ACTION_REINSTALL ->
  hash !! package_id = Some erased ->
  hif_db_set_string db fs (Some erased) (Some "reason"%string) (Some reason)
  = (true, None, fs') ->
  hif_transaction_get_propagated_reason db fs' false action package_id
    (Some hash) goal_reason = Some reason.
Proof.
  intros He Ha Hh Hset.
  destruct (set_string_effect db fs erased "reason" reason He)
    as [d [fs1 [Hd [_ E]]]].
  { now rewrite Hset. }
  rewrite Hset in E. injection E as ->.
  unfold hif_transaction_get_propagated_reason.
  change (default ∅ (Some hash)) with hash. rewrite Hh.
  rewrite (get_string_lookup _ _ _ _ d reason Hd) by apply lookup_insert_eq.
  destruct Ha as [-> | [-> | ->]]; reflexivity.
Qed.

Lemma propagated_reason_of_replaced_witness :
  hif_transaction_get_propagated_reason (hif_db_set_enabled ex_db true)
    (<["/var/lib/yum/yumdb/h/abc123-hal-0.3.4-1-i386/reason" := File "dep"]>
       ex_store)
    false HIF_STATE_ACTION_UPDATE "hal;0.3.5-1;i386;fedora"
    (Some (<["hal;0.3.5-1;i386;fedora"%string := ex_package]> ∅))
    (Some HY_REASON_USER)
  = Some "dep"%string.
Proof.
  apply (propagated_reason_of_replaced (hif_db_set_enabled ex_db true) ex_store
           _ HIF_STATE_ACTION_UPDATE _ _ ex_package).
  - reflexivity.
  - left. reflexivity.
  - vm_compute. reflexivity.
  - vm_compute. reflexivity.
Defined.

End YumdbFacts.

(* ===================================================================== *)
(** * Properties of query results: narrowing, staging, producers, latest *)
(* ===================================================================== *)

Module QueryResultFacts.
Import Solv Query QueryFilters QueryFacts GoalFacts.

Lemma MAPTST_MAPCLR (m : Map) (i j : Id) :
  0 <= i -> 0 <= j ->
  MAPTST (MAPCLR m i) j = MAPTST m j && negb (i =? j).
Proof.
  intros Hi Hj. unfold MAPTST, MAPCLR.
  rewrite N.clearbit_eqb. f_equal. f_equal.
  destruct (Z.eqb_spec i j) as [->|Hne].
  - apply N.eqb_refl.
  - apply N.eqb_neq. intros E. apply Hne.
    rewrite <- (Z2N.id i), <- (Z2N.id j) by assumption. now rewrite E.
Qed.

Lemma MAPCLR_sub (m : Map) (i j : Id) :
  MAPTST (MAPCLR m i) j = true -> MAPTST m j = true.
Proof.
  unfold MAPTST, MAPCLR. rewrite N.clearbit_eqb.
  intros H. now apply andb_true_iff in H.
Qed.

(** ** Nothing is ever added to a result. *)
Lemma latest_blocks_sub (pool : Pool) (per_arch : bool) (l : list Id) :
  forall hp res j,
    MAPTST (latest_blocks pool per_arch l hp res) j = true ->
    MAPTST res j = true.
Proof.
  induction l as [|p l IH]; intros hp res j H; cbn [latest_blocks] in H.
  - exact H.
  - destruct hp as [h|]; [|now apply IH in H].
    destruct (_ || _); [now apply IH in H|].
    destruct (_ <? 0); apply IH in H; now apply MAPCLR_sub in H.
Qed.

Lemma filter_latest_sub (pool : Pool) (q : HyQuery) (res : Map) (j : Id) :
  MAPTST (filter_latest pool q res) j = true -> MAPTST res j = true.
Proof.
  unfold filter_latest. destruct (_ <? 2)%nat; [trivial|].
  apply latest_blocks_sub.
Qed.

Lemma apply_filter_sub (X : Producers) (pool : Pool) (r r' : Map) (f : Filter)
  (j : Id) :
  apply_filter X pool r f = Some r' -> MAPTST r' j = true -> MAPTST r j = true.
Proof.
  unfold apply_filter.
  destruct (filter_dispatch X pool r f map_empty) as [m|]; [|discriminate].
  destruct (negb _); intros H; injection H as <-;
    rewrite ?MAPTST_subtract, ?MAPTST_and; intros H;
    now apply andb_true_iff in H.
Qed.

Lemma apply_filters_sub (X : Producers) (pool : Pool) (fs : list Filter) (j : Id) :
  forall r r',
    apply_filters X pool r fs = Some r' -> MAPTST r' j = true ->
    MAPTST r j = true.
Proof.
  induction fs as [|f fs IH]; intros r r' H Hj; cbn [apply_filters] in H.
  - now injection H as <-.
  - destruct (apply_filter X pool r f) as [r1|] eqn:E; [|discriminate].
    apply (apply_filter_sub X pool r r1 f j E). now apply (IH r1 r').
Qed.

Lemma opt_step_sub (b : bool) (f : Map -> option Map) (o : option Map)
  (r' : Map) (j : Id) :
  (forall r r1, f r = Some r1 -> MAPTST r1 j = true -> MAPTST r j = true) ->
  opt_step b f o = Some r' -> MAPTST r' j = true ->
  exists r, o = Some r /\ MAPTST r j = true.
Proof.
  intros Hf. unfold opt_step. destruct o as [r|]; [|discriminate].
  destruct b; intros H Hj; exists r; split; try reflexivity.
  - now apply (Hf r r').
  - now injection H as <-.
Qed.

Lemma filter_updown_sub (pool : Pool) (d : bool) (r r1 : Map) (j : Id) :
  filter_updown pool d r = Some r1 -> MAPTST r1 j = true -> MAPTST r j = true.
Proof.
  unfold filter_updown. destruct (installed pool); [|discriminate].
  intros H. injection H as <-. rewrite MAPTST_and. intros H.
  now apply andb_true_iff in H.
Qed.

Lemma filter_updown_able_sub (pool : Pool) (d : bool) (r r1 : Map) (j : Id) :
  filter_updown_able pool d r = Some r1 -> MAPTST r1 j = true ->
  MAPTST r j = true.
Proof.
  unfold filter_updown_able. destruct (installed pool); [|discriminate].
  intros H. injection H as <-. rewrite MAPTST_and. intros H.
  now apply andb_true_iff in H.
Qed.

Lemma apply_modifiers_sub (pool : Pool) (q : HyQuery) (r r' : Map) (j : Id) :
  apply_modifiers pool q r = Some r' -> MAPTST r' j = true -> MAPTST r j = true.
Proof.
  unfold apply_modifiers. intros H Hj.
  apply (opt_step_sub _ _ _ _ j) in H; [|
    intros a b E; injection E as <-; apply filter_latest_sub | exact Hj].
  destruct H as [r4 [H Hj4]].
  apply (opt_step_sub _ _ _ _ j) in H;
    [| intros a b; apply filter_updown_sub | exact Hj4].
  destruct H as [r3 [H Hj3]].
  apply (opt_step_sub _ _ _ _ j) in H;
    [| intros a b; apply filter_updown_able_sub | exact Hj3].
  destruct H as [r2 [H Hj2]].
  apply (opt_step_sub _ _ _ _ j) in H;
    [| intros a b; apply filter_updown_sub | exact Hj2].
  destruct H as [r1 [H Hj1]].
  apply (opt_step_sub _ _ _ _ j) in H;
    [| intros a b; apply filter_updown_able_sub | exact Hj1].
  destruct H as [r0 [H Hj0]]. now injection H as <-.
Qed.

Lemma apply_sub (X : Producers) (pool : Pool) (q q' : HyQuery) (r' : Map)
  (i : Id) :
  hy_query_apply X pool q = Some q' ->
  result q' = Some r' ->
  MAPTST r' i = true ->
  MAPTST (starting_result pool q) i = true.
Proof.
  destruct (applied q) eqn:Ha.
  - rewrite (apply_applied X pool q Ha). unfold starting_result.
    intros H. injection H as <-. intros -> H. exact H.
  - rewrite (apply_unapplied X pool q Ha).
    destruct (_ =? _); [|discriminate].
    destruct (apply_filters X pool (starting_result pool q) (filters q))
      as [r1|] eqn:E1; [|discriminate].
    destruct (apply_modifiers pool q r1) as [r2|] eqn:E2; [|discriminate].
    intros H. injection H as <-. cbn. intros H. injection H as <-. intros Hi.
    apply (apply_filters_sub X pool (filters q) i _ r1 E1).
    now apply (apply_modifiers_sub pool q r1 r2 i E2).
Qed.

Lemma StronglySorted_filter (R : Id -> Id -> Prop) (f : Id -> bool) (l : list Id) :
  StronglySorted R l -> StronglySorted R (List.filter f l).
Proof.
  induction 1 as [|x l Hs IH Hall]; cbn [List.filter]; [constructor|].
  destruct (f x); [|exact IH].
  constructor; [exact IH|].
  apply List.Forall_forall. intros y Hy. apply filter_In in Hy.
  destruct Hy as [Hy _]. revert y Hy. now apply List.Forall_forall.
Qed.

Lemma id_range_sorted (lo hi : Z) : StronglySorted Z.lt (id_range lo hi).
Proof.
  unfold id_range. generalize (Z.to_nat (hi - lo)) as n. intros n.
  generalize 0%nat as k. induction n as [|n IH]; intros k; cbn [seq List.map].
  - constructor.
  - constructor; [apply IH|].
    apply List.Forall_forall. intros y Hy. apply in_map_iff in Hy.
    destruct Hy as [j [<- Hj]]. apply in_seq in Hj. lia.
Qed.

(** X14.  The list [hy_query_run] returns is in ascending id order
    without repetition and holds only solvables of the bitmap the
    evaluation started from: no filter, modifier or producer ever adds a
    package to a result. *)
Lemma run_only_narrows (X : Producers) (pool : Pool) (q q' : HyQuery)
  (ids : list Id) :
  hy_query_run X pool q = Some (ids, q') ->
  StronglySorted Z.lt ids /\
  forall i, In i ids ->
    1 <= i < nsolvables pool /\ MAPTST (starting_result pool q) i = true.
Proof.
  unfold hy_query_run.
  destruct (hy_query_apply X pool q) as [q1|] eqn:A; [|discriminate].
  destruct (result q1) as [r1|] eqn:R; [|discriminate].
  intros H. injection H as <- <-. split.
  - apply StronglySorted_filter, id_range_sorted.
  - intros i Hi. apply filter_In in Hi. destruct Hi as [Hr Ht].
    apply in_id_range in Hr. split; [exact Hr|].
    now apply (apply_sub X pool q q1 r1 i).
Qed.

Lemma run_only_narrows_witness :
  StronglySorted Z.lt [2; 4] /\
  forall i, In i [2; 4] ->
    1 <= i < nsolvables ex_pool /\
    MAPTST (starting_result ex_pool
              (snd (hy_query_filter_package_in hy_query_create HY_PKG HY_NEQ 8%N)))
           i = true.
Proof.
  apply (run_only_narrows ex_producers ex_pool
           (snd (hy_query_filter_package_in hy_query_create HY_PKG HY_NEQ 8%N))
           ex_listed).
  vm_compute. reflexivity.
Defined.

(** X15.  A query that was never evaluated lists packages only: every
    id [hy_query_run] returns is a package-kind solvable of some repo and,
    unless the query was created with [HY_IGNORE_EXCLUDES], is in the
    considered map of the pool. *)
Lemma fresh_query_lists_considered_packages (X : Producers) (pool : Pool)
  (q q' : HyQuery) (ids : list Id) :
  result q = None ->
  hy_query_run X pool q = Some (ids, q') ->
  forall i, In i ids ->
    In i (FOR_PKG_SOLVABLES pool) /\
    (Z.land (flags q) HY_IGNORE_EXCLUDES = 0 ->
     forall c, considered pool = Some c -> MAPTST c i = true).
Proof.
  intros Hfresh. unfold hy_query_run.
  destruct (hy_query_apply X pool q) as [q1|] eqn:A; [|discriminate].
  destruct (result q1) as [r1|] eqn:R; [|discriminate].
  intros H. injection H as <- <-. intros i Hi.
  apply filter_In in Hi. destruct Hi as [Hr Ht]. apply in_id_range in Hr.
  pose proof (apply_sub X pool q q1 r1 i A R Ht) as Hs.
  unfold starting_result in Hs. rewrite Hfresh in Hs.
  apply init_result_spec in Hs; [|lia].
  destruct Hs as [Hp Hc]. split; [exact Hp|].
  intros Hz c Hcons. destruct Hc as [Hc|Hc]; [contradiction|].
  now rewrite Hcons in Hc.
Qed.

Lemma fresh_query_lists_considered_packages_witness :
  In 2 (FOR_PKG_SOLVABLES ex_pool) /\
  (Z.land (flags (snd (hy_query_filter_package_in hy_query_create HY_PKG
                         HY_NEQ 8%N))) HY_IGNORE_EXCLUDES = 0 ->
   forall c, considered ex_pool = Some c -> MAPTST c 2 = true).
Proof.
  apply (fresh_query_lists_considered_packages ex_producers ex_pool
           (snd (hy_query_filter_package_in hy_query_create HY_PKG HY_NEQ 8%N))
           ex_listed [2; 4]).
  - reflexivity.
  - vm_compute. reflexivity.
  - now left.
Defined.

(** X16.  Evaluation is idempotent: running a query a second time
    returns the same list and leaves the query as the first run left
    it. *)
Lemma run_twice (X : Producers) (pool : Pool) (q q' : HyQuery) (ids : list Id) :
  hy_query_run X pool q = Some (ids, q') ->
  hy_query_apply X pool q' = Some q' /\
  hy_query_run X pool q' = Some (ids, q').
Proof.
  unfold hy_query_run.
  destruct (hy_query_apply X pool q) as [q1|] eqn:A; [|discriminate].
  destruct (result q1) as [r1|] eqn:R; [|discriminate].
  intros H. injection H as <- <-.
  assert (Ha : applied q1 = true) by apply (apply_marks_applied X pool q q1 A).
  rewrite (apply_applied X pool q1 Ha), R. split; reflexivity.
Qed.

Lemma run_twice_witness :
  hy_query_apply ex_producers ex_pool
    ex_listed
  = Some ex_listed /\
  hy_query_run ex_producers ex_pool
    ex_listed
  = Some ([2; 4], ex_listed).
Proof.
  apply (run_twice ex_producers ex_pool
           (snd (hy_query_filter_package_in hy_query_create HY_PKG HY_NEQ 8%N))).
  vm_compute. reflexivity.
Defined.

(** ** One more filter on a query without modifiers. *)
Lemma apply_filters_app (X : Producers) (pool : Pool) (fs gs : list Filter) :
  forall r,
    apply_filters X pool r (fs ++ gs)
    = match apply_filters X pool r fs with
      | Some r1 => apply_filters X pool r1 gs
      | None => None
      end.
Proof.
  induction fs as [|f fs IH]; intros r; cbn [apply_filters app]; [reflexivity|].
  destruct (apply_filter X pool r f); [apply IH | reflexivity].
Qed.

Lemma apply_modifiers_none (pool : Pool) (q : HyQuery) (r : Map) :
  no_modifiers q = true -> apply_modifiers pool q r = Some r.
Proof.
  unfold no_modifiers, apply_modifiers. intros H.
  apply negb_true_iff in H. repeat (apply orb_false_iff in H; destruct H as [H ?]).
  now rewrite H, H0, H1, H2, H3.
Qed.

(** Running a query with one more staged filter: the round of that filter
    is run on the result the query had without it. *)
Lemma run_staged (X : Producers) (pool : Pool) (q : HyQuery) (f : Filter)
  (ids : list Id) (qa : HyQuery) :
  no_modifiers q = true ->
  up_to_date pool q ->
  hy_query_run X pool q = Some (ids, qa) ->
  exists ra,
    result qa = Some ra /\
    ids = List.filter (fun i => MAPTST ra i) (id_range 1 (nsolvables pool)) /\
    match apply_filter X pool ra f with
    | None =>
        hy_query_run X pool (query_add_filter (set_applied q false) f) = None
    | Some r =>
        exists q2,
          hy_query_run X pool (query_add_filter (set_applied q false) f)
          = Some (List.filter (fun i => MAPTST r i)
                              (id_range 1 (nsolvables pool)), q2)
    end.
Proof.
  intros Hm Hup Hrun. unfold hy_query_run in Hrun.
  destruct (hy_query_apply X pool q) as [qa'|] eqn:A; [|discriminate].
  destruct (result qa') as [ra|] eqn:R; [|discriminate].
  injection Hrun as <- <-. exists ra. split; [exact R|]. split; [reflexivity|].
  set (sq := query_add_filter (set_applied q false) f).
  assert (Hms : no_modifiers sq = true) by exact Hm.
  unfold hy_query_run. rewrite (apply_unapplied X pool sq eq_refl).
  destruct (applied q) eqn:Ha.
  - rewrite (apply_applied X pool q Ha) in A. injection A as <-.
    destruct (Hup Ha) as [Hf [_ Hs]].
    assert (E1 : result_size (with_result pool sq) = result_size q)
      by (unfold with_result, sq; cbn; now rewrite R).
    assert (E2 : starting_result pool sq = ra)
      by (unfold starting_result, sq; cbn; now rewrite R).
    rewrite E1, Hs, Z.eqb_refl, E2.
    change (filters sq) with (filters q ++ [f]). rewrite Hf.
    cbn [app apply_filters].
    destruct (apply_filter X pool ra f) as [r|]; [|reflexivity].
    rewrite (apply_modifiers_none pool sq r Hms). cbn [result clear_filters set_result].
    eexists. reflexivity.
  - rewrite (apply_unapplied X pool q Ha) in A.
    assert (E1 : result_size (with_result pool sq)
                 = result_size (with_result pool q))
      by (unfold with_result, sq; cbn; destruct (result q); reflexivity).
    assert (E2 : starting_result pool sq = starting_result pool q) by reflexivity.
    rewrite E1, E2.
    destruct (_ =? _); [|discriminate].
    change (filters sq) with (filters q ++ [f]). rewrite apply_filters_app.
    destruct (apply_filters X pool _ (filters q)) as [r1|]; [|discriminate].
    rewrite (apply_modifiers_none pool q r1 Hm) in A. injection A as <-.
    cbn [result clear_filters set_result] in R. injection R as ->.
    cbn [apply_filters].
    destruct (apply_filter X pool ra f) as [r|]; [|reflexivity].
    rewrite (apply_modifiers_none pool sq r Hms). cbn [result clear_filters set_result].
    eexists. reflexivity.
Qed.

Lemma run_one_more (X : Producers) (pool : Pool) (q : HyQuery) (f : Filter)
  (keep : Id -> bool) (ids : list Id) (qa : HyQuery) :
  no_modifiers q = true ->
  up_to_date pool q ->
  hy_query_run X pool q = Some (ids, qa) ->
  (forall ra, result qa = Some ra ->
     exists r, apply_filter X pool ra f = Some r /\
               forall i, 1 <= i < nsolvables pool ->
                 MAPTST r i = MAPTST ra i && keep i) ->
  exists q2,
    hy_query_run X pool (query_add_filter (set_applied q false) f)
    = Some (List.filter keep ids, q2).
Proof.
  intros Hm Hup Hrun Hround.
  destruct (run_staged X pool q f ids qa Hm Hup Hrun) as [ra [R [-> H]]].
  destruct (Hround ra R) as [r [E Hr]]. rewrite E in H.
  destruct H as [q2 H]. exists q2. rewrite H. f_equal. f_equal.
  assert (G : forall l, (forall i, In i l -> 1 <= i < nsolvables pool) ->
              List.filter (fun i => MAPTST r i) l
              = List.filter keep (List.filter (fun i => MAPTST ra i) l)).
  { induction l as [|x l IH]; intros Hl; [reflexivity|].
    cbn [List.filter]. rewrite (Hr x) by (apply Hl; now left).
    rewrite IH by (intros y Hy; apply Hl; now right).
    destruct (MAPTST ra x); cbn [andb List.filter]; reflexivity. }
  apply G. intros i Hi. now apply in_id_range in Hi.
Qed.

(** X17.  Filtering by a package set does what it says: after
    [hy_query_filter_package_in] with [HY_PKG], [hy_query_run] lists of the
    packages listed before exactly the members of the set for [HY_EQ], and
    exactly the others for [HY_NEQ].  This holds for a query without
    modifiers on which nothing stale is left, evaluated before or not. *)
Lemma package_in_filter_selects (X : Producers) (pool : Pool) (q qa : HyQuery)
  (cmp : Z) (pset : Map) (ids : list Id) :
  up_to_date pool q ->
  no_modifiers q = true ->
  valid_filter_pkg HY_PKG cmp = true ->
  hy_query_run X pool q = Some (ids, qa) ->
  exists q2,
    hy_query_run X pool (snd (hy_query_filter_package_in q HY_PKG cmp pset))
    = Some (List.filter (fun i => if cmp =? HY_EQ then MAPTST pset i
                                  else negb (MAPTST pset i)) ids, q2).
Proof.
  intros Hup Hm Hv Hrun. unfold hy_query_filter_package_in. rewrite Hv.
  cbn [negb snd].
  apply (run_one_more X pool q _ _ ids qa Hm Hup Hrun).
  intros ra _. unfold apply_filter. cbn.
  unfold valid_filter_pkg in Hv. cbn in Hv. apply orb_true_iff in Hv.
  destruct Hv as [E|E]; apply Z.eqb_eq in E; subst cmp; cbn.
  - eexists. split; [reflexivity|]. intros i _. apply MAPTST_and.
  - eexists. split; [reflexivity|]. intros i _. apply MAPTST_subtract.
Qed.

Lemma package_in_filter_selects_witness :
  exists q2,
    hy_query_run ex_producers ex_pool
      (snd (hy_query_filter_package_in ex_listed HY_PKG HY_EQ ex_two))
    = Some (List.filter (fun i => if HY_EQ =? HY_EQ then MAPTST ex_two i
                                  else negb (MAPTST ex_two i)) [2; 4], q2).
Proof.
  apply (package_in_filter_selects ex_producers ex_pool ex_listed ex_listed).
  - intros _. repeat split.
  - reflexivity.
  - reflexivity.
  - vm_compute. reflexivity.
Defined.

(** ** The producers. *)
Lemma strs_of_map (l : list string) : strs_of (List.map MStr l) = Some l.
Proof. induction l as [|s l IH]; cbn; [reflexivity | now rewrite IH]. Qed.

Lemma fold_select (t c : Id -> bool) (l : list Id) :
  forall (m : Map) (i : Id),
    Forall (fun x => 0 <= x) l -> 0 <= i ->
    MAPTST (fold_left (fun m id => if negb (t id) then m
                                   else if c id then MAPSET m id else m) l m) i
    = MAPTST m i || (existsb (Z.eqb i) l && t i && c i).
Proof.
  induction l as [|x l IH]; intros m i Hl Hi; cbn [fold_left existsb].
  - now rewrite orb_false_r.
  - inversion Hl as [|? ? Hx Hl']; subst. rewrite IH by assumption.
    destruct (Z.eqb_spec i x) as [->|Hne]; cbn [orb andb].
    + destruct (t x); cbn [negb andb]; [|now rewrite andb_false_r].
      destruct (c x); cbn [andb].
      * rewrite MAPTST_MAPSET, Z.eqb_refl by assumption. now rewrite orb_true_r.
      * now rewrite andb_false_r.
    + destruct (t x); cbn [negb]; [|reflexivity].
      destruct (c x); [|reflexivity].
      rewrite MAPTST_MAPSET by assumption.
      destruct (Z.eqb_spec x i); [congruence | reflexivity].
Qed.

Lemma id_range_nonneg (n : Z) : Forall (fun x => 0 <= x) (id_range 1 n).
Proof. apply List.Forall_forall. intros x Hx. apply in_id_range in Hx. lia. Qed.

Lemma existsb_id_range (i n : Z) :
  existsb (Z.eqb i) (id_range 1 n) = (1 <=? i) && (i <? n).
Proof.
  destruct (existsb (Z.eqb i) (id_range 1 n)) eqn:E.
  - apply existsb_eqb_In, in_id_range in E. symmetry.
    apply andb_true_iff. split; [apply Z.leb_le | apply Z.ltb_lt]; lia.
  - symmetry. apply not_true_is_false. intros H. apply andb_true_iff in H.
    destruct H as [H1 H2]. apply Z.leb_le in H1. apply Z.ltb_lt in H2.
    assert (In i (id_range 1 n)) by (apply in_id_range; lia).
    apply existsb_eqb_In in H. congruence.
Qed.

(** What [filter_evr] sets: the solvables of the result whose EVR compares
    as asked to one of the matches. *)
Lemma filter_evr_spec (pool_str2id : string -> Id) (pool : Pool) (res : Map)
  (f : Filter) (strs : list string) :
  strs_of (matches f) = Some strs ->
  exists m,
    QueryFilters.filter_evr pool_str2id pool res f map_empty = Some m /\
    forall i, 1 <= i < nsolvables pool ->
      MAPTST m i
      = MAPTST res i
        && existsb (fun str =>
                      cmp_selects (cmp_type f)
                        (pool_evrcmp pool (s_evr (pool_id2solvable pool i))
                                     (pool_str2id str))) strs.
Proof.
  intros Hs. unfold QueryFilters.filter_evr. rewrite Hs.
  eexists. split; [reflexivity|]. intros i Hi.
  assert (G : forall m0,
    MAPTST (fold_left
              (fun m str =>
                 fold_left
                   (fun m id =>
                      if negb (MAPTST res id) then m
                      else if cmp_selects (cmp_type f)
                                (pool_evrcmp pool (s_evr (pool_id2solvable pool id))
                                             (pool_str2id str))
                           then MAPSET m id else m)
                   (id_range 1 (nsolvables pool)) m) strs m0) i
    = MAPTST m0 i
      || (MAPTST res i
          && existsb (fun str =>
                        cmp_selects (cmp_type f)
                          (pool_evrcmp pool (s_evr (pool_id2solvable pool i))
                                       (pool_str2id str))) strs)).
  { clear Hs. induction strs as [|s strs IH]; intros m0; cbn [fold_left existsb].
    - now rewrite andb_false_r, orb_false_r.
    - rewrite IH.
      rewrite (fold_select (fun id => MAPTST res id)
                 (fun id => cmp_selects (cmp_type f)
                              (pool_evrcmp pool (s_evr (pool_id2solvable pool id))
                                           (pool_str2id s))))
        by (try apply id_range_nonneg; lia).
      rewrite existsb_id_range.
      replace ((1 <=? i) && (i <? nsolvables pool)) with true
        by (symmetry; apply andb_true_iff; split;
            [apply Z.leb_le | apply Z.ltb_lt]; lia).
      cbn [andb]. destruct (MAPTST m0 i), (MAPTST res i); cbn; reflexivity. }
  rewrite G, MAPTST_empty. reflexivity.
Qed.

(** X18.  The EVR filter does what it says: after staging
    [hy_query_filter_in (q, HY_PKG_EVR, cmp, strs)], [hy_query_run] lists of
    the packages listed before exactly those whose EVR compares as [cmp]
    asks (greater, less, equal, in any combination) to one of the matches,
    or exactly the others when [cmp] has the NOT bit.  [hy_query_filter]
    stages the same filter for a single match.  This holds for a query
    without modifiers on which nothing stale is left, evaluated before or
    not. *)
Lemma evr_filter_selects (X : Producers) (pool_str2id : string -> Id)
  (repo_name : Id -> option string) (P : ReldepParser) (pool : Pool)
  (q qa : HyQuery) (cmp : Z) (strs : list string) (ids : list Id) :
  up_to_date pool q ->
  no_modifiers q = true ->
  hy_query_run (with_filters X pool_str2id repo_name) pool q = Some (ids, qa) ->
  (forall str, hy_query_filter P q HY_PKG_EVR cmp str
               = hy_query_filter_in q HY_PKG_EVR cmp [str]) /\
  fst (hy_query_filter_in q HY_PKG_EVR cmp strs) = None /\
  exists q2,
    hy_query_run (with_filters X pool_str2id repo_name) pool
                 (snd (hy_query_filter_in q HY_PKG_EVR cmp strs))
    = Some (List.filter
              (fun i =>
                 xorb (negb (Z.land cmp HY_NOT =? 0))
                      (existsb
                         (fun str =>
                            cmp_selects cmp
                              (pool_evrcmp pool (s_evr (pool_id2solvable pool i))
                                           (pool_str2id str))) strs))
              ids, q2).
Proof.
  intros Hup Hm Hrun. split; [reflexivity|]. split; [reflexivity|].
  cbn [hy_query_filter_in valid_filter_str match_type_str negb stage_filter snd].
  apply (run_one_more _ pool q _ _ ids qa Hm Hup Hrun).
  intros ra _. unfold apply_filter.
  cbn [filter_dispatch keyname with_filters Query.filter_evr].
  destruct (filter_evr_spec pool_str2id pool ra
              (mkFilter cmp HY_PKG_EVR _HY_STR (List.map MStr strs)) strs
              (strs_of_map strs)) as [m [-> Hmspec]].
  cbn [cmp_type] in *.
  destruct (Z.land cmp HY_NOT =? 0); cbn [negb xorb];
    eexists; (split; [reflexivity|]); intros i Hi;
    rewrite ?MAPTST_and, ?MAPTST_subtract, (Hmspec i Hi);
    destruct (MAPTST ra i), (existsb _ strs); reflexivity.
Qed.

Lemma evr_filter_selects_witness :
  (forall str, hy_query_filter ex_parser ex_listed HY_PKG_EVR HY_GT str
               = hy_query_filter_in ex_listed HY_PKG_EVR HY_GT [str]) /\
  fst (hy_query_filter_in ex_listed HY_PKG_EVR HY_GT ["1"%string]) = None /\
  exists q2,
    hy_query_run (with_filters ex_producers ex_str2id ex_repo_name) ex_pool
                 (snd (hy_query_filter_in ex_listed HY_PKG_EVR HY_GT
                                          ["1"%string]))
    = Some (List.filter
              (fun i =>
                 xorb (negb (Z.land HY_GT HY_NOT =? 0))
                      (existsb
                         (fun str =>
                            cmp_selects HY_GT
                              (pool_evrcmp ex_pool
                                 (s_evr (pool_id2solvable ex_pool i))
                                 (ex_str2id str))) ["1"%string]))
              [2; 4], q2).
Proof.
  apply (evr_filter_selects ex_producers ex_str2id ex_repo_name ex_parser ex_pool
           ex_listed ex_listed).
  - intros _. repeat split.
  - reflexivity.
  - vm_compute. reflexivity.
Defined.

(** The walk of [filter_reponame] over the solvables, for a comparison
    type that is [HY_EQ] once the flags are masked. *)
Lemma filter_reponame_eq (repo_name : Id -> option string) (pool : Pool)
  (res : Map) (f : Filter) (strs : list string) :
  strs_of (matches f) = Some strs ->
  Z.land (cmp_type f) (Z.lnot HY_COMPARISON_FLAG_MASK) = HY_EQ ->
  exists m,
    QueryFilters.filter_reponame repo_name pool res f map_empty = Some m /\
    forall i, 1 <= i < nsolvables pool ->
      MAPTST m i
      = MAPTST res i
        && (negb (s_repo (pool_id2solvable pool i) =? 0)
            && match repo_name (s_repo (pool_id2solvable pool i)) with
               | Some name => existsb (String.eqb name) strs
               | None => false
               end).
Proof.
  intros Hs Hc. unfold QueryFilters.filter_reponame. rewrite Hs, Hc, Z.eqb_refl.
  set (c := fun i : Id =>
              negb (s_repo (pool_id2solvable pool i) =? 0)
              && match repo_name (s_repo (pool_id2solvable pool i)) with
                 | Some name => existsb (String.eqb name) strs
                 | None => false
                 end).
  assert (G : forall l m0,
    fold_left
      (fun om i =>
         match om with
         | None => None
         | Some m => if negb (MAPTST res i) then Some m
                     else if c i then Some (MAPSET m i) else Some m
         end) l (Some m0)
    = Some (fold_left (fun m id => if negb (MAPTST res id) then m
                                   else if c id then MAPSET m id else m) l m0)).
  { induction l as [|x l IH]; intros m0; cbn [fold_left]; [reflexivity|].
    destruct (negb (MAPTST res x)); [apply IH|].
    destruct (c x); apply IH. }
  unfold c in G at 1. rewrite G. eexists. split; [reflexivity|].
  intros i Hi.
  rewrite (fold_select (fun id => MAPTST res id) c)
    by (try apply id_range_nonneg; lia).
  rewrite existsb_id_range, MAPTST_empty.
  replace ((1 <=? i) && (i <? nsolvables pool)) with true
    by (symmetry; apply andb_true_iff; split;
        [apply Z.leb_le | apply Z.ltb_lt]; lia).
  reflexivity.
Qed.

(** The walk stops at the first solvable of the result when the masked
    comparison type is not [HY_EQ]. *)
Lemma filter_reponame_aborts (repo_name : Id -> option string) (pool : Pool)
  (res : Map) (f : Filter) (i : Id) :
  Z.land (cmp_type f) (Z.lnot HY_COMPARISON_FLAG_MASK) <> HY_EQ ->
  1 <= i < nsolvables pool -> MAPTST res i = true ->
  QueryFilters.filter_reponame repo_name pool res f map_empty = None.
Proof.
  intros Hc Hi Ht. unfold QueryFilters.filter_reponame.
  destruct (strs_of (matches f)) as [strs|]; [|reflexivity].
  apply Z.eqb_neq in Hc. rewrite Hc.
  assert (Hin : In i (id_range 1 (nsolvables pool))) by now apply in_id_range.
  revert Hin. generalize (id_range 1 (nsolvables pool)) as l.
  generalize (Some map_empty) as om.
  intros om l. revert om. induction l as [|x l IH]; intros om Hin;
    [contradiction|].
  cbn [fold_left].
  assert (N : forall l', fold_left
      (fun (om : option Map) (i : Id) =>
         match om with
         | Some m => if negb (MAPTST res i) then Some m else None
         | None => None
         end) l' None = None).
  { induction l' as [|y l' IH']; [reflexivity | exact IH']. }
  destruct Hin as [->|Hin].
  - rewrite Ht. cbn [negb]. destruct om; apply N.
  - apply IH. exact Hin.
Qed.

(** X19.  [hy_query_filter] accepts any comparison type for
    [HY_PKG_REPONAME], but [filter_reponame] only implements equality: with
    [HY_EQ] (and its flags) the run lists exactly the packages whose repo is
    named by the match, or the others under NOT; with any other comparison
    type, say [HY_GLOB], evaluating a query that lists at least one package
    fails the assertion.  This holds for a query without modifiers on which
    nothing stale is left, evaluated before or not. *)
Lemma reponame_filter_only_equality (X : Producers)
  (pool_str2id : string -> Id) (repo_name : Id -> option string)
  (P : ReldepParser) (pool : Pool) (q qa : HyQuery) (cmp : Z) (str : string)
  (ids : list Id) :
  up_to_date pool q ->
  no_modifiers q = true ->
  hy_query_run (with_filters X pool_str2id repo_name) pool q = Some (ids, qa) ->
  fst (hy_query_filter P q HY_PKG_REPONAME cmp str) = None /\
  (Z.land cmp (Z.lnot HY_COMPARISON_FLAG_MASK) = HY_EQ ->
   exists q2,
     hy_query_run (with_filters X pool_str2id repo_name) pool
                  (snd (hy_query_filter P q HY_PKG_REPONAME cmp str))
     = Some (List.filter
               (fun i =>
                  xorb (negb (Z.land cmp HY_NOT =? 0))
                       (negb (s_repo (pool_id2solvable pool i) =? 0)
                        && match repo_name (s_repo (pool_id2solvable pool i)) with
                           | Some name => String.eqb name str
                           | None => false
                           end))
               ids, q2)) /\
  (Z.land cmp (Z.lnot HY_COMPARISON_FLAG_MASK) <> HY_EQ -> ids <> [] ->
   hy_query_run (with_filters X pool_str2id repo_name) pool
                (snd (hy_query_filter P q HY_PKG_REPONAME cmp str)) = None).
Proof.
  intros Hup Hm Hrun. split; [reflexivity|].
  cbn [hy_query_filter valid_filter_str match_type_str negb snd].
  split.
  - intros Hc.
    apply (run_one_more _ pool q _ _ ids qa Hm Hup Hrun).
    intros ra _. unfold apply_filter.
    cbn [filter_dispatch keyname with_filters Query.filter_reponame].
    destruct (filter_reponame_eq repo_name pool ra
                (mkFilter cmp HY_PKG_REPONAME _HY_STR [MStr str]) [str]
                eq_refl Hc) as [m [-> Hmspec]].
    cbn [cmp_type existsb] in *.
    destruct (Z.land cmp HY_NOT =? 0); cbn [negb xorb];
      eexists; (split; [reflexivity|]); intros i Hi;
      rewrite ?MAPTST_and, ?MAPTST_subtract, (Hmspec i Hi);
      destruct (MAPTST ra i), (negb (s_repo (pool_id2solvable pool i) =? 0)),
        (repo_name (s_repo (pool_id2solvable pool i)));
      cbn; rewrite ?orb_false_r; reflexivity.
  - intros Hc Hne.
    destruct (run_staged _ pool q
                (mkFilter cmp HY_PKG_REPONAME _HY_STR [MStr str]) ids qa
                Hm Hup Hrun) as [ra [_ [E H]]].
    destruct (List.filter (fun i => MAPTST ra i) (id_range 1 (nsolvables pool)))
      as [|i rest] eqn:F; [congruence|].
    assert (Hi : In i (List.filter (fun i => MAPTST ra i)
                                   (id_range 1 (nsolvables pool))))
      by (rewrite F; now left).
    apply filter_In in Hi. destruct Hi as [Hr Ht]. apply in_id_range in Hr.
    unfold apply_filter in H.
    cbn [filter_dispatch keyname with_filters Query.filter_reponame] in H.
    rewrite (filter_reponame_aborts repo_name pool ra
               (mkFilter cmp HY_PKG_REPONAME _HY_STR [MStr str]) i Hc Hr Ht) in H.
    exact H.
Qed.

Lemma reponame_filter_only_equality_witness :
  (exists q2,
     hy_query_run (with_filters ex_producers ex_str2id ex_repo_name) ex_pool
                  (snd (hy_query_filter ex_parser ex_listed
                                        HY_PKG_REPONAME HY_EQ "main"))
     = Some (List.filter
               (fun i =>
                  xorb (negb (Z.land HY_EQ HY_NOT =? 0))
                       (negb (s_repo (pool_id2solvable ex_pool i) =? 0)
                        && match ex_repo_name (s_repo (pool_id2solvable ex_pool i)) with
                           | Some name => String.eqb name "main"
                           | None => false
                           end))
               [2; 4], q2)) /\
  hy_query_run (with_filters ex_producers ex_str2id ex_repo_name) ex_pool
               (snd (hy_query_filter ex_parser ex_listed
                                     HY_PKG_REPONAME HY_GLOB "ma*")) = None.
Proof.
  assert (Hup : up_to_date ex_pool ex_listed) by (intros _; repeat split).
  assert (Hrun : hy_query_run (with_filters ex_producers ex_str2id ex_repo_name)
                   ex_pool ex_listed = Some ([2; 4], ex_listed))
    by (vm_compute; reflexivity).
  split.
  - apply (proj1 (proj2 (reponame_filter_only_equality ex_producers ex_str2id
                           ex_repo_name ex_parser ex_pool ex_listed ex_listed
                           HY_EQ "main" [2; 4] Hup eq_refl Hrun))).
    reflexivity.
  - apply (proj2 (proj2 (reponame_filter_only_equality ex_producers ex_str2id
                           ex_repo_name ex_parser ex_pool ex_listed ex_listed
                           HY_GLOB "ma*" [2; 4] Hup eq_refl Hrun))).
    + vm_compute. discriminate.
    + discriminate.
Defined.

(** X20.  [hy_query_clear] drops the result but leaves the query marked
    as applied: running a query right after clearing it reads a result that
    is not there.  Staging a filter first makes the query start again from
    all packages. *)
Lemma run_after_clear (X : Producers) (pool : Pool) (q q1 : HyQuery) :
  hy_query_apply X pool q = Some q1 ->
  applied (hy_query_clear q1) = true /\
  hy_query_run X pool (hy_query_clear q1) = None /\
  forall pset,
    option_map result
      (hy_query_apply X pool
         (snd (hy_query_filter_package_in (hy_query_clear q1) HY_PKG HY_EQ pset)))
    = Some (Some (map_and (init_result pool q) pset)).
Proof.
  intros A.
  assert (Ha : applied q1 = true) by apply (apply_marks_applied X pool q q1 A).
  assert (Hf : flags q1 = flags q).
  { destruct (applied q) eqn:E.
    - rewrite (apply_applied X pool q E) in A. now injection A as <-.
    - rewrite (apply_unapplied X pool q E) in A.
      destruct (_ =? _); [|discriminate].
      destruct (apply_filters _ _ _ _); [|discriminate].
      destruct (apply_modifiers _ _ _); [|discriminate].
      injection A as <-. unfold with_result. now destruct (result q). }
  split; [exact Ha|]. split.
  - unfold hy_query_run.
    rewrite (apply_applied X pool (hy_query_clear q1)) by exact Ha.
    reflexivity.
  - intros pset.
    assert (E : forall q2, flags q2 = flags q -> init_result pool q2 = init_result pool q).
    { intros q2 H2. unfold init_result. now rewrite H2. }
    unfold hy_query_filter_package_in.
    cbn [valid_filter_pkg match_type_pkg negb orb snd].
    rewrite Z.eqb_refl. cbn [negb orb snd].
    rewrite apply_unapplied by reflexivity.
    match goal with
    | |- context [result_size (with_result pool ?x)] =>
        change (result_size (with_result pool x)) with (map_size (nsolvables pool));
        change (starting_result pool x) with (init_result pool x);
        rewrite (E x Hf)
    end.
    rewrite Z.eqb_refl.
    cbn [filters query_add_filter set_applied hy_query_clear clear_filters app
         apply_filters].
    unfold apply_filter. cbn. reflexivity.
Qed.

Lemma run_after_clear_witness :
  applied (hy_query_clear (ex_applied ex_all)) = true /\
  hy_query_run ex_producers ex_pool (hy_query_clear (ex_applied ex_all)) = None /\
  forall pset,
    option_map result
      (hy_query_apply ex_producers ex_pool
         (snd (hy_query_filter_package_in
                 (hy_query_clear (ex_applied ex_all)) HY_PKG HY_EQ pset)))
    = Some (Some (map_and (init_result ex_pool hy_query_create) pset)).
Proof.
  apply (run_after_clear ex_producers ex_pool hy_query_create).
  vm_compute. reflexivity.
Defined.


(** ** The latest package per name and architecture. *)

Lemma StronglySorted_lt_NoDup (l : list Id) : StronglySorted Z.lt l -> List.NoDup l.
Proof.
  induction 1 as [|x l Hs IH Hall]; constructor; [|exact IH].
  intros Hin. rewrite List.Forall_forall in Hall. specialize (Hall x Hin). lia.
Qed.

Lemma byarch_le (pool : Pool) (a b : Id) :
  filter_latest_sortcmp_byarch pool a b <= 0 ->
  s_name (pool_id2solvable pool a) <= s_name (pool_id2solvable pool b) /\
  (s_name (pool_id2solvable pool a) = s_name (pool_id2solvable pool b) ->
   s_arch (pool_id2solvable pool a) <= s_arch (pool_id2solvable pool b) /\
   (s_arch (pool_id2solvable pool a) = s_arch (pool_id2solvable pool b) ->
    a <= b)).
Proof.
  unfold filter_latest_sortcmp_byarch.
  destruct (Z.eqb_spec (s_name (pool_id2solvable pool a)
                        - s_name (pool_id2solvable pool b)) 0) as [E|E];
    cbn [negb]; [|lia].
  destruct (Z.eqb_spec (s_arch (pool_id2solvable pool a)
                        - s_arch (pool_id2solvable pool b)) 0) as [E'|E'];
    cbn [negb]; lia.
Qed.

Lemma byarch_le_iff (pool : Pool) (a b : Id) :
  filter_latest_sortcmp_byarch pool a b <= 0 <->
  s_name (pool_id2solvable pool a) < s_name (pool_id2solvable pool b) \/
  (s_name (pool_id2solvable pool a) = s_name (pool_id2solvable pool b) /\
   (s_arch (pool_id2solvable pool a) < s_arch (pool_id2solvable pool b) \/
    (s_arch (pool_id2solvable pool a) = s_arch (pool_id2solvable pool b) /\
     a <= b))).
Proof.
  unfold filter_latest_sortcmp_byarch.
  destruct (Z.eqb_spec (s_name (pool_id2solvable pool a)
                        - s_name (pool_id2solvable pool b)) 0) as [E|E];
    cbn [negb]; [|lia].
  destruct (Z.eqb_spec (s_arch (pool_id2solvable pool a)
                        - s_arch (pool_id2solvable pool b)) 0) as [E'|E'];
    cbn [negb]; lia.
Qed.

Lemma byarch_sorted (pool : Pool) (l : list Id) :
  List.NoDup l ->
  StronglySorted (fun a b => filter_latest_sortcmp_byarch pool a b <= 0)
                 (solv_sort (filter_latest_sortcmp_byarch pool) l).
Proof.
  intros Hnd. apply Sorted_StronglySorted.
  - intros a b c Hab Hbc. apply byarch_le_iff in Hab, Hbc.
    apply byarch_le_iff. lia.
  - apply solv_sort_sorted; [exact Hnd|].
    intros a b _ _ Hne H. apply byarch_le_iff.
    assert (~ filter_latest_sortcmp_byarch pool a b <= 0 \/
            filter_latest_sortcmp_byarch pool a b = 0) as [N|Z] by lia.
    + rewrite byarch_le_iff in N. lia.
    + assert (L : filter_latest_sortcmp_byarch pool a b <= 0) by lia.
      revert Z. unfold filter_latest_sortcmp_byarch.
      destruct (Z.eqb_spec (s_name (pool_id2solvable pool a)
                            - s_name (pool_id2solvable pool b)) 0) as [E|E];
        cbn [negb]; [|lia].
      destruct (Z.eqb_spec (s_arch (pool_id2solvable pool a)
                            - s_arch (pool_id2solvable pool b)) 0) as [E'|E'];
        cbn [negb]; lia.
Qed.

(** The start of a new block, for the per-arch walk. *)
Lemma new_block_iff (pool : Pool) (h p : Id) :
  negb (s_name (pool_id2solvable pool h) =? s_name (pool_id2solvable pool p))
  || (true && negb (s_arch (pool_id2solvable pool h)
                    =? s_arch (pool_id2solvable pool p))) = false <->
  s_name (pool_id2solvable pool h) = s_name (pool_id2solvable pool p) /\
  s_arch (pool_id2solvable pool h) = s_arch (pool_id2solvable pool p).
Proof.
  cbn [andb].
  destruct (Z.eqb_spec (s_name (pool_id2solvable pool h))
                       (s_name (pool_id2solvable pool p)));
    destruct (Z.eqb_spec (s_arch (pool_id2solvable pool h))
                         (s_arch (pool_id2solvable pool p)));
    cbn; split; try tauto; try discriminate; intros [? ?]; congruence.
Qed.


Lemma latest_blocks_unique (pool : Pool) (l : list Id) :
  forall hp res,
    StronglySorted (fun a b => filter_latest_sortcmp_byarch pool a b <= 0)
                   (in_hand hp l) ->
    List.NoDup (in_hand hp l) ->
    (forall x, In x (in_hand hp l) -> 0 <= x) ->
    forall a b,
      In a (in_hand hp l) -> In b (in_hand hp l) -> a <> b ->
      s_name (pool_id2solvable pool a) = s_name (pool_id2solvable pool b) ->
      s_arch (pool_id2solvable pool a) = s_arch (pool_id2solvable pool b) ->
      MAPTST (latest_blocks pool true l hp res) a = true ->
      MAPTST (latest_blocks pool true l hp res) b = true ->
      False.
Proof.
  induction l as [|p l IH]; intros hp res Hs Hnd Hpos a b Ha Hb Hne Hn Har Ta Tb.
  - destruct hp as [h|]; cbn in Ha, Hb; [|contradiction].
    destruct Ha as [<-|[]], Hb as [<-|[]]. congruence.
  - cbn [latest_blocks] in Ta, Tb. destruct hp as [h|].
    2:{ apply (IH (Some p) res Hs Hnd Hpos a b); assumption. }
    cbn [in_hand] in *.
    inversion Hs as [|? ? Hs' Hall]; subst.
    inversion Hnd as [|? ? Hnh Hnd']; subst.
    rewrite List.Forall_forall in Hall.
    destruct (negb (s_name (pool_id2solvable pool h)
                    =? s_name (pool_id2solvable pool p))
              || (true && negb (s_arch (pool_id2solvable pool h)
                                =? s_arch (pool_id2solvable pool p)))) eqn:NB.
    + (* start of a new block: nothing later has the key of h *)
      assert (Hkey : forall y, In y (p :: l) ->
                s_name (pool_id2solvable pool h) = s_name (pool_id2solvable pool y) ->
                s_arch (pool_id2solvable pool h) = s_arch (pool_id2solvable pool y) ->
                False).
      { intros y Hy E1 E2.
        assert (Hhp : filter_latest_sortcmp_byarch pool h p <= 0)
          by (apply Hall; now left).
        assert (Hpy : y = p \/ filter_latest_sortcmp_byarch pool p y <= 0).
        { destruct Hy as [->|Hy]; [now left | right].
          inversion Hs' as [|? ? _ Hall']; subst.
          rewrite List.Forall_forall in Hall'. now apply Hall'. }
        assert (K : s_name (pool_id2solvable pool h) = s_name (pool_id2solvable pool p) /\
                    s_arch (pool_id2solvable pool h) = s_arch (pool_id2solvable pool p)).
        { destruct Hpy as [->|Hpy]; [now split|].
          apply byarch_le in Hhp, Hpy. lia. }
        apply new_block_iff in K. congruence. }
      destruct Ha as [<-|Ha], Hb as [<-|Hb].
      * congruence.
      * exact (Hkey b Hb Hn Har).
      * apply (Hkey a Ha); congruence.
      * apply (IH (Some p) res Hs' Hnd'
                 (fun x Hx => Hpos x (or_intror Hx)) a b); assumption.
    + assert (Hh : 0 <= h) by (apply Hpos; now left).
      assert (Hp : 0 <= p) by (apply Hpos; right; now left).
      destruct (pool_evrcmp pool (s_evr (pool_id2solvable pool h))
                            (s_evr (pool_id2solvable pool p)) <? 0).
      * (* new highest found: h is cleared *)
        assert (Hclr : forall x, x = h ->
                  MAPTST (latest_blocks pool true l (Some p) (MAPCLR res h)) x
                  = true -> False).
        { intros x -> T. apply latest_blocks_sub in T.
          rewrite MAPTST_MAPCLR, Z.eqb_refl, andb_false_r in T by assumption.
          discriminate. }
        destruct Ha as [Ea|Ha]; [exact (Hclr a (eq_sym Ea) Ta)|].
        destruct Hb as [Eb|Hb]; [exact (Hclr b (eq_sym Eb) Tb)|].
        apply (IH (Some p) (MAPCLR res h) Hs' Hnd'
                 (fun x Hx => Hpos x (or_intror Hx)) a b); assumption.
      * (* p is cleared, h stays the highest *)
        assert (Hclr : forall x, x = p ->
                  MAPTST (latest_blocks pool true l (Some h) (MAPCLR res p)) x
                  = true -> False).
        { intros x -> T. apply latest_blocks_sub in T.
          rewrite MAPTST_MAPCLR, Z.eqb_refl, andb_false_r in T by assumption.
          discriminate. }
        assert (Hs2 : StronglySorted
                        (fun a b => filter_latest_sortcmp_byarch pool a b <= 0)
                        (h :: l)).
        { inversion Hs' as [|? ? Hs'' _]; subst. constructor; [exact Hs''|].
          apply List.Forall_forall. intros y Hy. apply Hall. now right. }
        assert (Hnd2 : List.NoDup (h :: l)).
        { inversion Hnd' as [|? ? _ Hnd'']; subst. constructor; [|exact Hnd''].
          intros Hin. apply Hnh. now right. }
        assert (Hpos2 : forall x, In x (h :: l) -> 0 <= x).
        { intros x [<-|Hx]; [exact Hh | apply Hpos; right; now right]. }
        assert (Hmem : forall x, In x (h :: p :: l) -> x = p \/ In x (h :: l)).
        { intros x [<-|[<-|Hx]]; [right; now left | now left | right; now right]. }
        destruct (Hmem a Ha) as [Ea|Ha2]; [exact (Hclr a Ea Ta)|].
        destruct (Hmem b Hb) as [Eb|Hb2]; [exact (Hclr b Eb Tb)|].
        apply (IH (Some h) (MAPCLR res p) Hs2 Hnd2 Hpos2 a b); assumption.
Qed.

Lemma latest_blocks_untouched (pool : Pool) (per_arch : bool) (l : list Id) :
  forall hp res j,
    (forall x, In x (in_hand hp l) -> 0 <= x) -> 0 <= j ->
    ~ In j (in_hand hp l) ->
    MAPTST (latest_blocks pool per_arch l hp res) j = MAPTST res j.
Proof.
  induction l as [|p l IH]; intros hp res j Hpos Hj Hnin;
    cbn [latest_blocks]; [reflexivity|].
  destruct hp as [h|]; cbn [in_hand] in *.
  2:{ apply (IH (Some p)); assumption. }
  assert (Hh : 0 <= h) by (apply Hpos; now left).
  assert (Hp : 0 <= p) by (apply Hpos; right; now left).
  assert (Hjh : j <> h) by (intros ->; apply Hnin; now left).
  assert (Hjp : j <> p) by (intros ->; apply Hnin; right; now left).
  assert (P1 : forall x, In x (in_hand (Some p) l) -> 0 <= x)
    by (intros x Hx; apply Hpos; now right).
  assert (N1 : ~ In j (in_hand (Some p) l))
    by (intros Hx; apply Hnin; now right).
  assert (P2 : forall x, In x (in_hand (Some h) l) -> 0 <= x)
    by (intros x [<-|Hx]; [exact Hh | apply Hpos; right; now right]).
  assert (N2 : ~ In j (in_hand (Some h) l))
    by (intros [E|Hx]; [congruence | apply Hnin; right; now right]).
  destruct (_ || _); [now apply (IH (Some p))|].
  destruct (_ <? 0).
  - rewrite (IH (Some p)) by assumption.
    rewrite MAPTST_MAPCLR by assumption.
    destruct (Z.eqb_spec h j); [congruence | now rewrite andb_true_r].
  - rewrite (IH (Some h)) by assumption.
    rewrite MAPTST_MAPCLR by assumption.
    destruct (Z.eqb_spec p j); [congruence | now rewrite andb_true_r].
Qed.

Lemma latest_blocks_survivor (pool : Pool) (l : list Id) :
  forall hp res,
    List.NoDup (in_hand hp l) ->
    (forall x, In x (in_hand hp l) -> 0 <= x /\ MAPTST res x = true) ->
    forall x, In x (in_hand hp l) ->
      exists y, In y (in_hand hp l) /\
        s_name (pool_id2solvable pool x) = s_name (pool_id2solvable pool y) /\
        s_arch (pool_id2solvable pool x) = s_arch (pool_id2solvable pool y) /\
        MAPTST (latest_blocks pool true l hp res) y = true.
Proof.
  induction l as [|p l IH]; intros hp res Hnd Hset x Hx; cbn [latest_blocks].
  - exists x. repeat split; [exact Hx | now apply Hset].
  - destruct hp as [h|]; cbn [in_hand] in *.
    2:{ apply (IH (Some p) res Hnd Hset x Hx). }
    inversion Hnd as [|? ? Hnh Hnd']; subst.
    assert (Hh : 0 <= h) by (apply Hset; now left).
    assert (Hp : 0 <= p) by (apply Hset; right; now left).
    destruct (negb (s_name (pool_id2solvable pool h)
                    =? s_name (pool_id2solvable pool p))
              || (true && negb (s_arch (pool_id2solvable pool h)
                                =? s_arch (pool_id2solvable pool p)))) eqn:NB.
    + destruct Hx as [<-|Hx].
      * exists h. split; [now left|]. split; [reflexivity|].
        split; [reflexivity|].
        rewrite (latest_blocks_untouched pool true l (Some p) res h);
          [now apply Hset; left | | exact Hh | exact Hnh].
        intros y Hy. apply Hset. now right.
      * destruct (IH (Some p) res Hnd'
                    (fun y Hy => Hset y (or_intror Hy)) x Hx)
          as [y [Hy [E1 [E2 T]]]].
        exists y. split; [now right | now repeat split].
    + apply new_block_iff in NB. destruct NB as [K1 K2].
      destruct (pool_evrcmp pool (s_evr (pool_id2solvable pool h))
                            (s_evr (pool_id2solvable pool p)) <? 0).
      * assert (Hset1 : forall y, In y (in_hand (Some p) l) ->
                          0 <= y /\ MAPTST (MAPCLR res h) y = true).
        { intros y Hy. destruct (Hset y (or_intror Hy)) as [H0 H1].
          split; [exact H0|]. rewrite MAPTST_MAPCLR, H1 by assumption.
          destruct (Z.eqb_spec h y) as [->|]; [contradiction | reflexivity]. }
        assert (Hx' : exists x', In x' (p :: l) /\
                  s_name (pool_id2solvable pool x) = s_name (pool_id2solvable pool x') /\
                  s_arch (pool_id2solvable pool x) = s_arch (pool_id2solvable pool x')).
        { destruct Hx as [<-|Hx]; [exists p | exists x]; repeat split;
            try assumption; now left. }
        destruct Hx' as [x' [Hx' [E1 E2]]].
        destruct (IH (Some p) (MAPCLR res h) Hnd' Hset1 x' Hx')
          as [y [Hy [F1 [F2 T]]]].
        exists y. split; [now right|]. repeat split; congruence.
      * assert (Hnd2 : List.NoDup (h :: l)).
        { inversion Hnd' as [|? ? _ Hnd'']; subst. constructor; [|exact Hnd''].
          intros Hin. apply Hnh. now right. }
        assert (Hpl : ~ In p l) by now inversion Hnd'.
        assert (Hset2 : forall y, In y (in_hand (Some h) l) ->
                          0 <= y /\ MAPTST (MAPCLR res p) y = true).
        { intros y Hy.
          assert (Hy' : In y (h :: p :: l))
            by (destruct Hy as [<-|Hy]; [now left | right; now right]).
          destruct (Hset y Hy') as [H0 H1].
          split; [exact H0|]. rewrite MAPTST_MAPCLR, H1 by assumption.
          destruct (Z.eqb_spec p y) as [<-|]; [|reflexivity].
          destruct Hy as [->|Hy]; [|contradiction].
          exfalso. apply Hnh. now left. }
        assert (Hx' : exists x', In x' (h :: l) /\
                  s_name (pool_id2solvable pool x) = s_name (pool_id2solvable pool x') /\
                  s_arch (pool_id2solvable pool x) = s_arch (pool_id2solvable pool x')).
        { destruct Hx as [<-|[<-|Hx]].
          - exists h. repeat split. now left.
          - exists h. repeat split; try congruence. now left.
          - exists x. repeat split. now right. }
        destruct Hx' as [x' [Hx' [E1 E2]]].
        destruct (IH (Some h) (MAPCLR res p) Hnd2 Hset2 x' Hx')
          as [y [Hy [F1 [F2 T]]]].
        exists y. split.
        { destruct Hy as [<-|Hy]; [now left | right; now right]. }
        repeat split; congruence.
Qed.

(** What [filter_latest] leaves in per-arch mode. *)
Lemma filter_latest_per_arch_spec (pool : Pool) (q : HyQuery) (res : Map) :
  latest_per_arch q = true ->
  (forall a b,
     1 <= a < nsolvables pool -> 1 <= b < nsolvables pool ->
     MAPTST (filter_latest pool q res) a = true ->
     MAPTST (filter_latest pool q res) b = true ->
     s_name (pool_id2solvable pool a) = s_name (pool_id2solvable pool b) ->
     s_arch (pool_id2solvable pool a) = s_arch (pool_id2solvable pool b) ->
     a = b) /\
  (forall a,
     1 <= a < nsolvables pool -> MAPTST res a = true ->
     exists b,
       1 <= b < nsolvables pool /\
       MAPTST (filter_latest pool q res) b = true /\
       s_name (pool_id2solvable pool a) = s_name (pool_id2solvable pool b) /\
       s_arch (pool_id2solvable pool a) = s_arch (pool_id2solvable pool b)).
Proof.
  intros Hpa. unfold filter_latest. rewrite Hpa.
  set (samename := List.filter (fun i => MAPTST res i)
                               (id_range 1 (nsolvables pool))).
  assert (Hin : forall a, In a samename <->
                          1 <= a < nsolvables pool /\ MAPTST res a = true).
  { intros a. unfold samename. rewrite filter_In, in_id_range. tauto. }
  assert (Hnd : List.NoDup samename).
  { apply StronglySorted_lt_NoDup, StronglySorted_filter, id_range_sorted. }
  destruct (Nat.ltb_spec (length samename) 2) as [Hlen|Hlen].
  - split.
    + intros a b Ra Rb Ta Tb _ _.
      assert (Ia : In a samename) by (apply Hin; now split).
      assert (Ib : In b samename) by (apply Hin; now split).
      clear Hin Hnd. clearbody samename.
      destruct samename as [|x [|y l]]; cbn in Hlen, Ia, Ib;
        [contradiction | | lia].
      destruct Ia as [<-|[]], Ib as [<-|[]]. reflexivity.
    + intros a Ra Ta. exists a. now repeat split.
  - set (sorted := solv_sort (filter_latest_sortcmp_byarch pool) samename).
    pose proof (solv_sort_perm (filter_latest_sortcmp_byarch pool) samename)
      as Hperm. fold sorted in Hperm.
    assert (Hs : StronglySorted
                   (fun a b => filter_latest_sortcmp_byarch pool a b <= 0) sorted)
      by now apply byarch_sorted.
    assert (Hnd' : List.NoDup sorted)
      by (apply (Permutation_NoDup (Permutation_sym Hperm) Hnd)).
    assert (Hin' : forall a, In a sorted <->
                             1 <= a < nsolvables pool /\ MAPTST res a = true).
    { intros a. rewrite <- Hin. split; apply Permutation_in;
        [exact Hperm | exact (Permutation_sym Hperm)]. }
    split.
    + intros a b Ra Rb Ta Tb En Ea.
      destruct (Z.eq_dec a b) as [E|Hne]; [exact E | exfalso].
      apply (latest_blocks_unique pool sorted None res Hs Hnd'
               (fun x Hx => ltac:(apply Hin' in Hx; lia)) a b);
        try assumption; apply Hin'; (split; [assumption|]);
        now apply (latest_blocks_sub pool true sorted None res).
    + intros a Ra Ta.
      destruct (latest_blocks_survivor pool sorted None res Hnd'
                  (fun x Hx => ltac:(apply Hin' in Hx; split; [lia | tauto]))
                  a ltac:(apply Hin'; now split))
        as [b [Hb [E1 [E2 T]]]].
      exists b. apply Hin' in Hb. now repeat split.
Qed.


Lemma apply_modifiers_per_arch (pool : Pool) (q : HyQuery) (r1 : Map) :
  latest q = false ->
  apply_modifiers pool (hy_query_filter_latest_per_arch q true) r1
  = match apply_modifiers pool q r1 with
    | Some r =>
        Some (filter_latest pool (hy_query_filter_latest_per_arch q true) r)
    | None => None
    end.
Proof.
  intros Hl. unfold apply_modifiers. rewrite Hl.
  change (downgradable (hy_query_filter_latest_per_arch q true))
    with (downgradable q).
  change (downgrades (hy_query_filter_latest_per_arch q true))
    with (downgrades q).
  change (updatable (hy_query_filter_latest_per_arch q true))
    with (updatable q).
  change (updates (hy_query_filter_latest_per_arch q true)) with (updates q).
  change (latest (hy_query_filter_latest_per_arch q true)) with true.
  destruct (opt_step (updates q) _ _); reflexivity.
Qed.

(** The per-arch comparator is a strict order on ids without repetition:
    the insertion loop of [solv_sort] leaves what libsolv leaves, whatever
    the number of candidates. *)
Lemma byarch_strict_order (pool : Pool) (l : list Id) :
  List.NoDup l -> strict_order_on (filter_latest_sortcmp_byarch pool) l.
Proof.
  intros Hnd. split; [exact Hnd|]. unfold filter_latest_sortcmp_byarch. split.
  - intros a b _ _ Hne.
    destruct (Z.eqb_spec (s_name (pool_id2solvable pool a)
                          - s_name (pool_id2solvable pool b)) 0);
      destruct (Z.eqb_spec (s_name (pool_id2solvable pool b)
                            - s_name (pool_id2solvable pool a)) 0);
      destruct (Z.eqb_spec (s_arch (pool_id2solvable pool a)
                            - s_arch (pool_id2solvable pool b)) 0);
      destruct (Z.eqb_spec (s_arch (pool_id2solvable pool b)
                            - s_arch (pool_id2solvable pool a)) 0);
      cbn [negb]; lia.
  - intros a b c _ _ _.
    destruct (Z.eqb_spec (s_name (pool_id2solvable pool a)
                          - s_name (pool_id2solvable pool b)) 0);
      destruct (Z.eqb_spec (s_name (pool_id2solvable pool b)
                            - s_name (pool_id2solvable pool c)) 0);
      destruct (Z.eqb_spec (s_name (pool_id2solvable pool a)
                            - s_name (pool_id2solvable pool c)) 0);
      destruct (Z.eqb_spec (s_arch (pool_id2solvable pool a)
                            - s_arch (pool_id2solvable pool b)) 0);
      destruct (Z.eqb_spec (s_arch (pool_id2solvable pool b)
                            - s_arch (pool_id2solvable pool c)) 0);
      destruct (Z.eqb_spec (s_arch (pool_id2solvable pool a)
                            - s_arch (pool_id2solvable pool c)) 0);
      cbn [negb]; lia.
Qed.

(** X21.  Asking for the latest package per architecture keeps, of
    the packages the query lists, exactly one for each pair of name and
    architecture: the new list is part of the old one, holds no two
    packages of the same name and architecture, and every name and
    architecture of the old list is still there.  This holds for a query
    on which the latest modifier is not set yet and nothing stale is left,
    evaluated before or not. *)
Lemma latest_per_arch_keeps_one_each (X : Producers) (pool : Pool)
  (q qa : HyQuery) (ids : list Id) :
  up_to_date pool q ->
  latest q = false ->
  hy_query_run X pool q = Some (ids, qa) ->
  exists ids' q2,
    hy_query_run X pool (hy_query_filter_latest_per_arch q true)
    = Some (ids', q2) /\
    (forall b, In b ids' -> In b ids) /\
    (forall a b, In a ids' -> In b ids' ->
       s_name (pool_id2solvable pool a) = s_name (pool_id2solvable pool b) ->
       s_arch (pool_id2solvable pool a) = s_arch (pool_id2solvable pool b) ->
       a = b) /\
    (forall a, In a ids ->
       exists b, In b ids' /\
         s_name (pool_id2solvable pool a) = s_name (pool_id2solvable pool b) /\
         s_arch (pool_id2solvable pool a) = s_arch (pool_id2solvable pool b)).
Proof.
  intros Hup Hl Hrun.
  set (lq := hy_query_filter_latest_per_arch q true).
  assert (K : exists r q2,
             ids = List.filter (fun i => MAPTST r i) (id_range 1 (nsolvables pool)) /\
             hy_query_run X pool lq
             = Some (List.filter (fun i => MAPTST (filter_latest pool lq r) i)
                                 (id_range 1 (nsolvables pool)), q2)).
  { unfold hy_query_run in *.
    destruct (hy_query_apply X pool q) as [qa'|] eqn:A; [|discriminate].
    destruct (result qa') as [ra|] eqn:R; [|discriminate].
    injection Hrun as <- <-. exists ra.
    rewrite (apply_unapplied X pool lq eq_refl).
    assert (E1 : result_size (with_result pool lq)
                 = result_size (with_result pool q))
      by (unfold with_result, lq; cbn; destruct (result q); reflexivity).
    assert (E2 : starting_result pool lq = starting_result pool q) by reflexivity.
    change (filters lq) with (filters q).
    rewrite E1, E2.
    destruct (applied q) eqn:Ha.
    - rewrite (apply_applied X pool q Ha) in A. injection A as <-.
      destruct (Hup Ha) as [Hf [Hm Hs]].
      unfold with_result at 1. unfold starting_result.
      rewrite R, Hs, Z.eqb_refl, Hf. cbn [apply_filters].
      unfold lq at 1. rewrite (apply_modifiers_per_arch pool q ra Hl).
      rewrite (apply_modifiers_none pool q ra Hm).
      cbn [result clear_filters set_result]. eexists. split; reflexivity.
    - rewrite (apply_unapplied X pool q Ha) in A.
      destruct (_ =? _); [|discriminate].
      destruct (apply_filters X pool _ (filters q)) as [r1|]; [|discriminate].
      unfold lq at 1. rewrite (apply_modifiers_per_arch pool q r1 Hl).
      destruct (apply_modifiers pool q r1) as [r|]; [|discriminate].
      injection A as <-. cbn [result clear_filters set_result] in R.
      injection R as ->. cbn [result clear_filters set_result].
      eexists. split; reflexivity. }
  destruct K as [r [q2 [-> K]]].
  destruct (filter_latest_per_arch_spec pool lq r eq_refl) as [Huniq Hsurv].
  eexists. exists q2. split; [exact K|]. split; [|split].
  - intros b Hb. apply filter_In in Hb. destruct Hb as [Rb Tb].
    apply filter_In. split; [exact Rb|]. now apply filter_latest_sub in Tb.
  - intros a b Ia Ib En Ea. apply filter_In in Ia, Ib.
    destruct Ia as [Ra Ta], Ib as [Rb Tb]. apply in_id_range in Ra, Rb.
    now apply Huniq.
  - intros a Ia. apply filter_In in Ia. destruct Ia as [Ra Ta].
    apply in_id_range in Ra.
    destruct (Hsurv a Ra Ta) as [b [Rb [Tb [En Ea]]]].
    exists b. split; [|now split].
    apply filter_In. split; [now apply in_id_range | exact Tb].
Qed.

Lemma latest_per_arch_keeps_one_each_witness :
  exists ids' q2,
    hy_query_run ex_producers ex_pool
                 (hy_query_filter_latest_per_arch ex_listed true)
    = Some (ids', q2) /\
    (forall b, In b ids' -> In b [2; 4]) /\
    (forall a b, In a ids' -> In b ids' ->
       s_name (pool_id2solvable ex_pool a) = s_name (pool_id2solvable ex_pool b) ->
       s_arch (pool_id2solvable ex_pool a) = s_arch (pool_id2solvable ex_pool b) ->
       a = b) /\
    (forall a, In a [2; 4] ->
       exists b, In b ids' /\
         s_name (pool_id2solvable ex_pool a) = s_name (pool_id2solvable ex_pool b) /\
         s_arch (pool_id2solvable ex_pool a) = s_arch (pool_id2solvable ex_pool b)).
Proof.
  apply (latest_per_arch_keeps_one_each ex_producers ex_pool ex_listed ex_listed).
  - intros _. repeat split.
  - reflexivity.
  - vm_compute. reflexivity.
Defined.

Lemma reldeps_of_map (l : list Id) : reldeps_of (List.map MReldep l) = Some l.
Proof. induction l as [|r l IH]; cbn; [reflexivity | now rewrite IH]. Qed.

(** Setting the bit of any id, for the ids from 1 on. *)
Lemma MAPTST_MAPSET_pos (m : Map) (p i : Id) :
  1 <= i -> MAPTST (MAPSET m p) i = (i =? p) || MAPTST m i.
Proof.
  intros Hi. unfold MAPTST, MAPSET. rewrite N.setbit_eqb. f_equal.
  destruct (Z.eqb_spec i p) as [->|Hne].
  - apply N.eqb_refl.
  - apply N.eqb_neq. lia.
Qed.

Lemma MAPTST_fold_MAPSET_pos (l : list Id) (m : Map) (i : Id) :
  1 <= i ->
  MAPTST (fold_left MAPSET l m) i = existsb (Z.eqb i) l || MAPTST m i.
Proof.
  intros Hi. revert m. induction l as [|x l IH]; intros m; cbn [fold_left existsb].
  - reflexivity.
  - rewrite IH, MAPTST_MAPSET_pos by exact Hi.
    destruct (i =? x), (existsb (Z.eqb i) l), (MAPTST m i); reflexivity.
Qed.

(** What [filter_provides_reldep] sets: the providers of the matches. *)
Lemma filter_provides_reldep_spec (pool : Pool) (res : Map) (f : Filter)
  (reldeps : list Id) :
  reldeps_of (matches f) = Some reldeps ->
  exists m,
    QueryFilters.filter_provides_reldep pool res f map_empty = Some m /\
    forall i, 1 <= i ->
      MAPTST m i
      = existsb (fun r => existsb (Z.eqb i) (whatprovides pool r)) reldeps.
Proof.
  intros Hs. unfold QueryFilters.filter_provides_reldep. rewrite Hs.
  eexists. split; [reflexivity|]. intros i Hi.
  assert (G : forall m0,
    MAPTST (fold_left (fun m r_id => fold_left MAPSET (whatprovides pool r_id) m)
                      reldeps m0) i
    = MAPTST m0 i
      || existsb (fun r => existsb (Z.eqb i) (whatprovides pool r)) reldeps).
  { clear Hs. induction reldeps as [|r l IH]; intros m0; cbn [fold_left existsb].
    - now rewrite orb_false_r.
    - rewrite IH, MAPTST_fold_MAPSET_pos by exact Hi.
      destruct (MAPTST m0 i), (existsb (Z.eqb i) (whatprovides pool r));
        reflexivity. }
  rewrite G, MAPTST_empty. reflexivity.
Qed.

(** X30.  The provides filter does what it says: after
    [hy_query_filter_reldep_in (q, HY_PKG_PROVIDES, reldeps)],
    [hy_query_run] lists of the packages listed before exactly the
    providers of one of the reldeps.  This holds for a query without
    modifiers on which nothing stale is left, evaluated before or not. *)
Lemma provides_filter_selects (X : Producers) (pool_str2id : string -> Id)
  (repo_name : Id -> option string) (pool : Pool) (q qa : HyQuery)
  (reldeps : list Id) (ids : list Id) :
  up_to_date pool q ->
  no_modifiers q = true ->
  hy_query_run (with_filters X pool_str2id repo_name) pool q = Some (ids, qa) ->
  fst (hy_query_filter_reldep_in q HY_PKG_PROVIDES reldeps) = None /\
  exists q2,
    hy_query_run (with_filters X pool_str2id repo_name) pool
                 (snd (hy_query_filter_reldep_in q HY_PKG_PROVIDES reldeps))
    = Some (List.filter
              (fun i => existsb (fun r => existsb (Z.eqb i) (whatprovides pool r))
                                reldeps)
              ids, q2).
Proof.
  intros Hup Hm Hrun. split; [reflexivity|].
  cbn [hy_query_filter_reldep_in valid_filter_reldep match_type_reldep negb
       stage_filter snd].
  apply (run_one_more _ pool q _ _ ids qa Hm Hup Hrun).
  intros ra _. unfold apply_filter.
  cbn [filter_dispatch keyname match_type match_type_eqb c_assert with_filters
       Query.filter_provides_reldep].
  destruct (filter_provides_reldep_spec pool ra
              (mkFilter HY_EQ HY_PKG_PROVIDES _HY_RELDEP
                        (List.map MReldep reldeps)) reldeps
              (reldeps_of_map reldeps)) as [m [-> Hmspec]].
  cbn [cmp_type]. change (negb (Z.land HY_EQ HY_NOT =? 0)) with false.
  cbn iota. eexists. split; [reflexivity|]. intros i Hi.
  rewrite MAPTST_and, (Hmspec i) by lia. reflexivity.
Qed.

Lemma provides_filter_selects_witness :
  fst (hy_query_filter_reldep_in ex_listed_system HY_PKG_PROVIDES [30]) = None /\
  exists q2,
    hy_query_run (with_filters ex_producers ex_str2id ex_repo_name) Goal.ex_system
                 (snd (hy_query_filter_reldep_in ex_listed_system HY_PKG_PROVIDES
                                                 [30]))
    = Some (List.filter
              (fun i => existsb
                          (fun r => existsb (Z.eqb i)
                                            (whatprovides Goal.ex_system r))
                          [30])
              [2; 3; 4; 5; 6], q2).
Proof.
  apply (provides_filter_selects ex_producers ex_str2id ex_repo_name
           Goal.ex_system ex_listed_system ex_listed_system).
  - intros _. repeat split.
  - reflexivity.
  - vm_compute. reflexivity.
Defined.

End QueryResultFacts.

(* ===================================================================== *)
(** * Properties of the goal: the job of a run, staging, result lists *)
(* ===================================================================== *)

Module GoalJobFacts.
Import Solv Query Package Goal GoalStaging QueryFacts GoalFacts.


(** ** The job queue of a run. *)
Lemma fold_push2_cond (how : Z) (c : Id -> bool) (l : list Id) :
  forall job,
    fold_left (fun job id => if c id then queue_push2 job how id else job) l job
    = job ++ flat_map (fun id => [how; id]) (List.filter c l).
Proof.
  induction l as [|x l IH]; intros job; cbn [fold_left List.filter flat_map].
  - now rewrite app_nil_r.
  - rewrite IH. destruct (c x); [|reflexivity].
    unfold queue_push2. cbn [flat_map]. now rewrite <- app_assoc.
Qed.

Lemma fold_push2 (how : Z) (l : list Id) :
  forall job,
    fold_left (fun job id => queue_push2 job how id) l job
    = job ++ flat_map (fun id => [how; id]) l.
Proof.
  induction l as [|x l IH]; intros job; cbn [fold_left flat_map].
  - now rewrite app_nil_r.
  - rewrite IH. unfold queue_push2. now rewrite <- app_assoc.
Qed.

(** X22.  The job [construct_job] hands to the solver is the staged
    jobs (with FORCEBEST or-ed into each when asked), then a MULTIVERSION
    job per install-only name, then, under [HIF_ALLOW_UNINSTALL], an
    ALLOWUNINSTALL job for each installed solvable that is not protected,
    in id order, then the VERIFY job when asked.  The running kernel joins
    the protected map of the goal, so neither it nor any protected package
    is ever offered for uninstallation. *)
Lemma construct_job_spares_protected (sack : HifSack) (goal : HyGoal) (flags : Z) :
  let pool := hif_sack_get_pool sack in
  let kernel := hif_sack_running_kernel sack in
  let prot0 := default map_empty (protected goal) in
  let prot := if 0 <? kernel then MAPSET prot0 kernel else prot0 in
  let offered :=
    if has_flag HIF_ALLOW_UNINSTALL flags
    then List.filter (fun id => in_installed_repo pool (pool_id2solvable pool id)
                                && negb (MAPTST prot id))
                     (id_range 1 (nsolvables pool))
    else [] in
  construct_job sack goal flags
  = (mkGoal (staging goal) (Some prot) (solv goal) (trans goal)
            (removal_of_protected goal) (actions goal),
     (if has_flag flags HIF_FORCE_BEST
      then or_into_flags SOLVER_FORCEBEST (staging goal) else staging goal)
     ++ flat_map (fun name => [Z.lor SOLVER_MULTIVERSION SOLVER_SOLVABLE_PROVIDES;
                               name])
                 (hif_sack_get_installonly sack)
     ++ flat_map (fun id => [Z.lor SOLVER_ALLOWUNINSTALL SOLVER_SOLVABLE; id])
                 offered
     ++ (if has_flag flags HIF_VERIFY
         then [Z.lor SOLVER_VERIFY SOLVER_SOLVABLE_ALL; 0] else [])) /\
  (forall id, In id offered ->
     MAPTST prot0 id = false /\ id <> kernel /\
     in_installed_repo pool (pool_id2solvable pool id) = true).
Proof.
  cbn zeta. split.
  - unfold construct_job, allow_uninstall_all_but_protected.
    rewrite fold_push2.
    replace (match protected goal with Some m => m | None => map_empty end)
      with (default map_empty (protected goal))
      by (now destruct (protected goal)).
    destruct (has_flag HIF_ALLOW_UNINSTALL flags).
    + rewrite (fold_push2_cond (Z.lor SOLVER_ALLOWUNINSTALL SOLVER_SOLVABLE)
                 (fun id => in_installed_repo (hif_sack_get_pool sack)
                              (pool_id2solvable (hif_sack_get_pool sack) id)
                            && negb (MAPTST _ id))).
      destruct (has_flag flags HIF_VERIFY); unfold queue_push2;
        rewrite <- ?app_assoc, ?app_nil_r; reflexivity.
    + destruct (has_flag flags HIF_VERIFY); unfold queue_push2; cbn [flat_map];
        rewrite <- ?app_assoc, ?app_nil_r; reflexivity.
  - intros id Hin.
    destruct (has_flag HIF_ALLOW_UNINSTALL flags); [|contradiction].
    apply filter_In in Hin. destruct Hin as [Hr Hc]. apply in_id_range in Hr.
    apply andb_true_iff in Hc. destruct Hc as [Hi Hp].
    apply negb_true_iff in Hp.
    destruct (Z.ltb_spec 0 (hif_sack_running_kernel sack)) as [Hk|Hk].
    + rewrite MAPTST_MAPSET in Hp by lia.
      apply orb_false_iff in Hp. destruct Hp as [Hk' Hp].
      apply Z.eqb_neq in Hk'. repeat split; [exact Hp | congruence | exact Hi].
    + repeat split; [exact Hp | lia | exact Hi].
Qed.

(** ** Staging. *)
Lemma push_with_action_appends (solver_action : Z) (n : nat) :
  forall job_sltr job,
    (length job_sltr <= n)%nat ->
    exists pushed,
      push_with_action solver_action job_sltr job = job ++ pushed /\
      Nat.even (length pushed) = true.
Proof.
  induction n as [|n IH]; intros job_sltr job Hlen.
  - destruct job_sltr; [|cbn in Hlen; lia].
    exists []. now rewrite app_nil_r.
  - destruct job_sltr as [|how [|what rest]].
    + exists []. now rewrite app_nil_r.
    + exists []. now rewrite app_nil_r.
    + cbn [push_with_action].
      destruct (IH rest (queue_push2 job (Z.lor how solver_action) what))
        as [pushed [-> Hev]]; [cbn in Hlen; lia|].
      exists ([Z.lor how solver_action; what] ++ pushed).
      unfold queue_push2. rewrite <- app_assoc. split; [reflexivity|].
      exact Hev.
Qed.

(** [sltr2job] appends whole jobs, and nothing when it fails. *)
Lemma sltr2job_appends (L : SelectionLib) (pool : Pool) (sltr : HySelector)
  (job job' : Queue) (solver_action : Z) (rc : Status) :
  sltr2job L pool sltr job solver_action = Some (rc, job') ->
  exists pushed,
    job' = job ++ pushed /\ Nat.even (length pushed) = true /\
    (rc <> Rc0 -> pushed = []).
Proof.
  unfold sltr2job.
  destruct (negb _).
  - intros H. injection H as _ <-. exists []. now rewrite app_nil_r.
  - destruct (and_next _ _) as [[[| |e] job_sltr]|]; try discriminate.
    + intros H. injection H as <- <-.
      destruct (push_with_action_appends solver_action (length job_sltr)
                  job_sltr job (le_n _)) as [pushed [-> Hev]].
      exists pushed. repeat split; [exact Hev | congruence].
    + intros H. injection H as <- <-. exists []. now rewrite app_nil_r.
    + intros H. injection H as <- <-. exists []. now rewrite app_nil_r.
Qed.

Lemma stage_selector_step (L : SelectionLib) (pool : Pool) (goal goal' : HyGoal)
  (action : Z) (sltr : HySelector) (solver_action : Z) (rc : Status) :
  stage_selector L pool goal action sltr solver_action = Some (rc, goal') ->
  exists pushed,
    goal' = stage goal action (staging goal ++ pushed) /\
    Nat.even (length pushed) = true /\ (rc <> Rc0 -> pushed = []).
Proof.
  unfold stage_selector.
  destruct (sltr2job L pool sltr (staging goal) solver_action)
    as [[rc' q]|] eqn:E; [|discriminate].
  intros H. injection H as <- <-.
  destruct (sltr2job_appends _ _ _ _ _ _ _ E) as [pushed [-> [Hev Hrc]]].
  exists pushed. now repeat split.
Qed.

(** What a step of the staging interface may do to a goal. *)
Lemma staging_call_step (L : SelectionLib) (pool : Pool) (c : StagingCall)
  (goal goal' : HyGoal) :
  staging_call L pool c goal = Some goal' ->
  exists pushed bits,
    goal' = mkGoal (staging goal ++ pushed) (protected goal) (solv goal)
                   (trans goal) (removal_of_protected goal)
                   (Z.lor (actions goal) bits) /\
    Nat.even (length pushed) = true.
Proof.
  assert (Sel : forall action sltr solver_action r,
            option_map snd (stage_selector L pool goal action sltr solver_action)
            = Some r ->
            exists pushed bits,
              r = mkGoal (staging goal ++ pushed) (protected goal) (solv goal)
                         (trans goal) (removal_of_protected goal)
                         (Z.lor (actions goal) bits) /\
              Nat.even (length pushed) = true).
  { intros action sltr solver_action r H.
    destruct (stage_selector L pool goal action sltr solver_action)
      as [[rc g]|] eqn:E; [|discriminate].
    injection H as <-.
    destruct (stage_selector_step _ _ _ _ _ _ _ _ E) as [pushed [-> [Hev _]]].
    exists pushed, action. now split. }
  assert (Z0 : forall g : HyGoal, g = mkGoal (staging g ++ []) (protected g)
                 (solv g) (trans g) (removal_of_protected g)
                 (Z.lor (actions g) 0)).
  { intros g. rewrite app_nil_r, Z.lor_0_r. now destruct g. }
  destruct c; cbn [staging_call].
  - intros H. injection H as <-. eexists [_; _], _. split; reflexivity.
  - intros H. injection H as <-. eexists [_; _], _. split; reflexivity.
  - unfold hy_goal_erase, hy_goal_erase_flags.
    destruct (installed pool); [|discriminate].
    cbn [staging stage]. destruct (_ =? _); [|discriminate].
    intros H. injection H as <-.
    eexists [_; _], (Z.lor HIF_ERASE HIF_ERASE).
    split; [|reflexivity]. cbn [snd]. unfold stage, queue_push2.
    cbn [staging protected solv trans removal_of_protected actions].
    f_equal. now rewrite !Z.lor_assoc.
  - unfold hy_goal_erase_flags.
    destruct (installed pool); [|discriminate].
    destruct (_ =? _); [|discriminate].
    intros H. injection H as <-. eexists [_; _], _. split; reflexivity.
  - intros H. injection H as <-. eexists [_; _], _. split; reflexivity.
  - intros H. injection H as <-. eexists [_; _], _. split; reflexivity.
  - intros H. injection H as <-.
    eexists [_; _], (Z.lor HIF_DOWNGRADE HIF_INSTALL).
    split; [|reflexivity]. cbn [snd hy_goal_downgrade_to hy_goal_install].
    unfold stage, queue_push2.
    cbn [staging protected solv trans removal_of_protected actions].
    f_equal. now rewrite !Z.lor_assoc.
  - intros H. injection H as <-. eexists [_; _], _. split; reflexivity.
  - intros H. injection H as <-.
    eexists [_; _], (Z.lor (Z.lor HIF_UPGRADE HIF_UPGRADE) HIF_INSTALL).
    split; [|reflexivity].
    cbn [snd hy_goal_upgrade_to hy_goal_upgrade_to_flags hy_goal_install].
    unfold stage, queue_push2.
    cbn [staging protected solv trans removal_of_protected actions].
    f_equal. now rewrite !Z.lor_assoc.
  - intros H. injection H as <-. unfold hy_goal_upgrade_to_flags.
    destruct (match installed_named with Some _ => _ | None => _ end).
    + exists [], 0. split; [apply Z0 | reflexivity].
    + eexists [_; _], (Z.lor HIF_UPGRADE HIF_INSTALL).
      split; [|reflexivity]. cbn [snd hy_goal_install].
      unfold stage, queue_push2.
      cbn [staging protected solv trans removal_of_protected actions].
      f_equal. now rewrite !Z.lor_assoc.
  - intros H. injection H as <-. eexists [_; _], _. split; reflexivity.
  - unfold hy_goal_install_selector.
    destruct (stage_selector L pool goal HIF_INSTALL sltr SOLVER_INSTALL)
      as [[rc g]|] eqn:E; [|discriminate].
    intros H.
    apply (Sel HIF_INSTALL sltr SOLVER_INSTALL). rewrite E.
    destruct rc; injection H as <-; reflexivity.
  - unfold hy_goal_install_selector_optional.
    destruct (stage_selector L pool goal HIF_INSTALL sltr _)
      as [[rc g]|] eqn:E; [|discriminate].
    intros H.
    apply (Sel HIF_INSTALL sltr (Z.lor SOLVER_INSTALL SOLVER_WEAK)). rewrite E.
    destruct rc; injection H as <-; reflexivity.
  - apply Sel.
  - apply Sel.
  - apply Sel.
  - unfold hy_goal_upgrade_to_selector. destruct (f_evr sltr); apply Sel.
  - apply Sel.
Qed.

Lemma even_half_add (a b : nat) :
  Nat.even a = true -> Nat.even b = true ->
  Z.of_nat (a + b) / 2 = Z.of_nat a / 2 + Z.of_nat b / 2.
Proof.
  intros Ha Hb. apply Nat.even_spec in Ha, Hb.
  destruct Ha as [m ->], Hb as [k ->].
  replace (Z.of_nat (2 * m + 2 * k)) with ((Z.of_nat m + Z.of_nat k) * 2) by lia.
  replace (Z.of_nat (2 * m)) with (Z.of_nat m * 2) by lia.
  replace (Z.of_nat (2 * k)) with (Z.of_nat k * 2) by lia.
  now rewrite !Z.div_mul by lia.
Qed.

(** X23.  Whatever is called on the staging interface, in any order,
    the staged jobs only grow, and by whole (how, what) pairs: earlier jobs
    are neither changed nor dropped, [hy_goal_req_length] grows by the
    number of pairs, an action once recorded stays recorded, and the
    solver, the transaction and the protected map are left alone. *)
Lemma staging_calls_append (L : SelectionLib) (pool : Pool)
  (cs : list StagingCall) :
  forall goal goal',
    staging_calls L pool cs goal = Some goal' ->
    exists pushed,
      staging goal' = staging goal ++ pushed /\
      Nat.even (length pushed) = true /\
      (Nat.even (length (staging goal)) = true ->
       hy_goal_req_length goal'
       = hy_goal_req_length goal + Z.of_nat (length pushed) / 2) /\
      (forall action, hy_goal_has_actions goal action <> 0 ->
                      hy_goal_has_actions goal' action <> 0) /\
      protected goal' = protected goal /\ solv goal' = solv goal /\
      trans goal' = trans goal.
Proof.
  induction cs as [|c cs IH]; intros goal goal' H; cbn [staging_calls] in H.
  - injection H as <-. exists []. rewrite app_nil_r. repeat split.
    + intros _. cbn [length]. change (Z.of_nat 0 / 2) with 0. lia.
    + trivial.
  - destruct (staging_call L pool c goal) as [g1|] eqn:E; [|discriminate].
    destruct (staging_call_step L pool c goal g1 E) as [p1 [bits [-> Hev1]]].
    destruct (IH _ goal' H) as [p2 [Hs [Hev2 [Hlen [Hact [Hp [Hsv Ht]]]]]]].
    cbn [staging protected solv trans] in *.
    exists (p1 ++ p2). rewrite Hs, <- app_assoc. split; [reflexivity|].
    assert (Hev : Nat.even (length (p1 ++ p2)) = true).
    { rewrite length_app, Nat.even_add, Hev1, Hev2. reflexivity. }
    split; [exact Hev|]. split; [|split; [|now repeat split]].
    + intros Hg. unfold hy_goal_req_length. rewrite Hs.
      rewrite <- app_assoc, (length_app (staging goal)).
      now apply even_half_add.
    + intros action Ha. apply Hact. unfold hy_goal_has_actions in *.
      cbn [actions]. rewrite Z.land_lor_distr_l. intros Z.
      apply Z.lor_eq_0_iff in Z. tauto.
Qed.

Lemma staging_calls_append_witness :
  exists pushed,
    staging (mkGoal [Z.lor SOLVER_SOLVABLE SOLVER_INSTALL; 2;
                     Z.lor SOLVER_UPDATE SOLVER_SOLVABLE_ALL; 0]
                    None None None (Some []) (Z.lor HIF_INSTALL HIF_UPGRADE_ALL))
    = staging hy_goal_create ++ pushed /\
    Nat.even (length pushed) = true /\
    (Nat.even (length (staging hy_goal_create)) = true ->
     hy_goal_req_length
       (mkGoal [Z.lor SOLVER_SOLVABLE SOLVER_INSTALL; 2;
                Z.lor SOLVER_UPDATE SOLVER_SOLVABLE_ALL; 0]
               None None None (Some []) (Z.lor HIF_INSTALL HIF_UPGRADE_ALL))
     = hy_goal_req_length hy_goal_create + Z.of_nat (length pushed) / 2) /\
    (forall action,
       hy_goal_has_actions hy_goal_create action <> 0 ->
       hy_goal_has_actions
         (mkGoal [Z.lor SOLVER_SOLVABLE SOLVER_INSTALL; 2;
                  Z.lor SOLVER_UPDATE SOLVER_SOLVABLE_ALL; 0]
                 None None None (Some []) (Z.lor HIF_INSTALL HIF_UPGRADE_ALL))
         action <> 0) /\
    protected (mkGoal [Z.lor SOLVER_SOLVABLE SOLVER_INSTALL; 2;
                       Z.lor SOLVER_UPDATE SOLVER_SOLVABLE_ALL; 0]
                      None None None (Some []) (Z.lor HIF_INSTALL HIF_UPGRADE_ALL))
    = protected hy_goal_create /\
    solv (mkGoal [Z.lor SOLVER_SOLVABLE SOLVER_INSTALL; 2;
                  Z.lor SOLVER_UPDATE SOLVER_SOLVABLE_ALL; 0]
                 None None None (Some []) (Z.lor HIF_INSTALL HIF_UPGRADE_ALL))
    = solv hy_goal_create /\
    trans (mkGoal [Z.lor SOLVER_SOLVABLE SOLVER_INSTALL; 2;
                   Z.lor SOLVER_UPDATE SOLVER_SOLVABLE_ALL; 0]
                  None None None (Some []) (Z.lor HIF_INSTALL HIF_UPGRADE_ALL))
    = trans hy_goal_create.
Proof.
  apply (staging_calls_append ex_lib ex_system
           [CallInstall (hif_package_new 2); CallInstallSelector ex_arch_only;
            CallUpgradeAll]).
  vm_compute. reflexivity.
Defined.

(** X24.  A selector that [hy_goal_install_selector] rejects stages
    nothing, but the install action is recorded all the same: the goal
    answers [hy_goal_has_actions (goal, HIF_INSTALL)] although no install
    job was added. *)
Lemma rejected_selector_marks_action (L : SelectionLib) (pool : Pool)
  (goal goal' : HyGoal) (sltr : HySelector) (e : option (Status * string)) :
  hy_goal_install_selector L pool goal sltr = Some (false, e, goal') ->
  staging goal' = staging goal /\
  hy_goal_has_actions goal' HIF_INSTALL = HIF_INSTALL /\
  exists rc, rc <> Rc0 /\ e = Some (rc, "failed to install selector"%string).
Proof.
  unfold hy_goal_install_selector.
  destruct (stage_selector L pool goal HIF_INSTALL sltr SOLVER_INSTALL)
    as [[rc g]|] eqn:E; [|discriminate].
  destruct (stage_selector_step _ _ _ _ _ _ _ _ E) as [pushed [-> [_ Hrc]]].
  assert (A : forall a, Z.land (Z.lor a HIF_INSTALL) HIF_INSTALL = HIF_INSTALL).
  { intros a. apply Z.bits_inj'. intros n _.
    rewrite Z.land_spec, Z.lor_spec.
    destruct (Z.testbit a n), (Z.testbit HIF_INSTALL n); reflexivity. }
  destruct rc as [| |err]; [discriminate| |]; intros H; injection H as <- <-;
    (rewrite Hrc by discriminate); rewrite app_nil_r;
    (split; [reflexivity|]); (split; [apply A|]);
    eexists; (split; [|reflexivity]); discriminate.
Qed.

Lemma rejected_selector_marks_action_witness :
  staging (stage hy_goal_create HIF_INSTALL []) = staging hy_goal_create /\
  hy_goal_has_actions (stage hy_goal_create HIF_INSTALL []) HIF_INSTALL
  = HIF_INSTALL /\
  exists rc, rc <> Rc0 /\
    Some (RcErr HIF_ERROR_BAD_SELECTOR, "failed to install selector"%string)
    = Some (rc, "failed to install selector"%string).
Proof.
  apply (rejected_selector_marks_action ex_lib ex_system hy_goal_create
           (stage hy_goal_create HIF_INSTALL []) ex_arch_only).
  vm_compute. reflexivity.
Defined.

(** ** The result lists after a run. *)

(** X25.  After a run the result lists are there exactly when the
    solver found a solution: with solver problems the run returns 1 and
    every [hy_goal_list_*] accessor fails; without, every accessor lists
    from the solver's transaction, also when the run returned 1 because a
    protected package would be removed. *)
Lemma lists_follow_the_solver (sat : SatSolver) (sack : HifSack)
  (goal goal' : HyGoal) (user_cb : bool) (flags rc : Z) :
  hy_goal_run_all_flags sat sack goal user_cb flags = Some (rc, goal') ->
  exists s,
    solv goal' = Some s /\
    (solver_problem_count s <> 0 ->
     rc = 1 /\
     forall f1 f2, exists e msg, list_results goal' f1 f2 = Error e msg) /\
    (solver_problem_count s = 0 ->
     forall f1 f2, exists l,
       list_results goal' f1 f2 = Ok (List.map hif_package_new l) /\
       forall p, In p l -> In p (steps (solver_create_transaction s))).
Proof.
  intros Hrun.
  destruct (run_rejects_protected_removal sat sack goal user_cb flags)
    as [rc' [g' [s [prot [Hrun' [Hs [Hp [Hbad Hgood]]]]]]]].
  rewrite Hrun in Hrun'. injection Hrun' as <- <-.
  exists s. split; [exact Hs|]. split.
  - intros Hn. destruct (Hbad Hn) as [-> Ht]. split; [reflexivity|].
    intros f1 f2. unfold list_results. rewrite Ht, Hs.
    destruct (negb _); eauto.
  - intros Hz. destruct (Hgood Hz) as [Ht _].
    intros f1 f2. unfold list_results. rewrite Ht.
    eexists. split; [reflexivity|].
    intros p Hin. apply filter_In in Hin. tauto.
Qed.

Lemma lists_follow_the_solver_witness :
  exists s,
    solv (mkGoal [Z.lor SOLVER_SOLVABLE SOLVER_ERASE; 2;
                  Z.lor SOLVER_SOLVABLE SOLVER_ERASE; 3]
                 (Some 12%N)
                 (Some (snd (solver_solve ex_erase_both
                               (fst (init_solver ex_protecting))
                               [Z.lor SOLVER_SOLVABLE SOLVER_ERASE; 2;
                                Z.lor SOLVER_SOLVABLE SOLVER_ERASE; 3])))
                 (Some (mkTransaction [2; 3]
                          (fun _ _ => SOLVER_TRANSACTION_ERASE) (fun _ => [])))
                 (Some [mkPackage 2 HIF_PACKAGE_INFO_REMOVE HIF_STATE_ACTION_REMOVE;
                        mkPackage 3 HIF_PACKAGE_INFO_REMOVE HIF_STATE_ACTION_REMOVE])
                 HIF_ERASE) = Some s /\
    (solver_problem_count s <> 0 ->
     1 = 1 /\
     forall f1 f2, exists e msg,
       list_results
         (mkGoal [Z.lor SOLVER_SOLVABLE SOLVER_ERASE; 2;
                  Z.lor SOLVER_SOLVABLE SOLVER_ERASE; 3]
                 (Some 12%N)
                 (Some (snd (solver_solve ex_erase_both
                               (fst (init_solver ex_protecting))
                               [Z.lor SOLVER_SOLVABLE SOLVER_ERASE; 2;
                                Z.lor SOLVER_SOLVABLE SOLVER_ERASE; 3])))
                 (Some (mkTransaction [2; 3]
                          (fun _ _ => SOLVER_TRANSACTION_ERASE) (fun _ => [])))
                 (Some [mkPackage 2 HIF_PACKAGE_INFO_REMOVE HIF_STATE_ACTION_REMOVE;
                        mkPackage 3 HIF_PACKAGE_INFO_REMOVE HIF_STATE_ACTION_REMOVE])
                 HIF_ERASE) f1 f2 = Error e msg) /\
    (solver_problem_count s = 0 ->
     forall f1 f2, exists l,
       list_results
         (mkGoal [Z.lor SOLVER_SOLVABLE SOLVER_ERASE; 2;
                  Z.lor SOLVER_SOLVABLE SOLVER_ERASE; 3]
                 (Some 12%N)
                 (Some (snd (solver_solve ex_erase_both
                               (fst (init_solver ex_protecting))
                               [Z.lor SOLVER_SOLVABLE SOLVER_ERASE; 2;
                                Z.lor SOLVER_SOLVABLE SOLVER_ERASE; 3])))
                 (Some (mkTransaction [2; 3]
                          (fun _ _ => SOLVER_TRANSACTION_ERASE) (fun _ => [])))
                 (Some [mkPackage 2 HIF_PACKAGE_INFO_REMOVE HIF_STATE_ACTION_REMOVE;
                        mkPackage 3 HIF_PACKAGE_INFO_REMOVE HIF_STATE_ACTION_REMOVE])
                 HIF_ERASE) f1 f2 = Ok (List.map hif_package_new l) /\
       forall p, In p l -> In p (steps (solver_create_transaction s))).
Proof.
  apply (lists_follow_the_solver ex_erase_both ex_sack ex_protecting _ false 0 1).
  vm_compute. reflexivity.
Defined.

End GoalJobFacts.

(* ===================================================================== *)
(** * Properties of commit and download: what is called, and when *)
(* ===================================================================== *)

Module CommitFacts.
Import Solv Package Goal Transaction TransactionLog.







Section Commit.
Variable env : Env.
Variable fl : Z.















End Commit.

(** The deletions of [delete_items]: the cached files of the list, in
    order, up to the first failure. *)
Lemma delete_items_calls (env : Env) (cachedir : string) (l : list HifPackage) :
  forall priv : Priv,
  exists n : nat,
    calls (phase_priv (delete_items env cachedir priv l))
    = calls priv ++ List.map FileDelete (firstn n (cached_files env cachedir l)) /\
    (forall priv' : Priv,
       delete_items env cachedir priv l = Go priv' ->
       calls priv'
       = calls priv ++ List.map FileDelete (cached_files env cachedir l)).
Proof.
  unfold cached_files.
  induction l as [|pkg l IH]; intros priv; cbn [delete_items List.map List.filter].
  - exists 0%nat. cbn. rewrite app_nil_r. split; [reflexivity|].
    intros priv' H. now injection H as <-.
  - destruct (String.prefix cachedir (package_filename env (pkg_id pkg))) eqn:Hp.
    + set (priv1 := log priv (FileDelete (package_filename env (pkg_id pkg)))).
      destruct (file_delete env _) as [e|].
      { exists 1%nat. split; [reflexivity | discriminate]. }
      destruct (state_done env DoneDeleteItem) as [e|].
      { exists 1%nat. split; [reflexivity | discriminate]. }
      destruct (IH priv1) as [n [H1 H2]]. exists (S n). split.
      * rewrite H1. cbn [priv1 log calls firstn List.map].
        now rewrite <- app_assoc.
      * intros priv' H. rewrite (H2 priv' H). cbn [priv1 log calls List.map].
        now rewrite <- app_assoc.
    + destruct (state_done env DoneDeleteItem) as [e|].
      { exists 0%nat. cbn. rewrite app_nil_r. split; [reflexivity | discriminate]. }
      apply IH.
Qed.

(** X26.  [hif_transaction_delete_packages] deletes nothing but files of
    installed packages whose name starts with the cache directory: in the
    order of the install list, up to the first failure, and all of them when
    it succeeds.  It does nothing for an empty install list, and fails
    before any deletion when no cache directory is configured. *)
Lemma delete_packages_deletes_cached (env : Env) (priv : Priv) :
  (default [] (install priv) = [] ->
   hif_transaction_delete_packages env priv = Go priv) /\
  (default [] (install priv) <> [] -> cache_dir env = None ->
   hif_transaction_delete_packages env priv
   = Stop (HIF_ERROR_FAILED_CONFIG_PARSING,
           "Failed to get value for CacheDir"%string) priv) /\
  (forall cachedir : string,
     cache_dir env = Some cachedir ->
     exists n : nat,
       calls (phase_priv (hif_transaction_delete_packages env priv))
       = calls priv
         ++ List.map FileDelete
              (firstn n (cached_files env cachedir (default [] (install priv)))) /\
       (forall priv' : Priv,
          hif_transaction_delete_packages env priv = Go priv' ->
          calls priv'
          = calls priv
            ++ List.map FileDelete
                 (cached_files env cachedir (default [] (install priv))))).
Proof.
  unfold hif_transaction_delete_packages.
  split; [intros ->; reflexivity|]. split.
  - intros Hne ->. destruct (default [] (install priv)); [contradiction|reflexivity].
  - intros cachedir ->.
    destruct (default [] (install priv)) as [|pkg l] eqn:E.
    + exists 0%nat. cbn. rewrite app_nil_r. split; [reflexivity|].
      intros priv' H. now injection H as <-.
    + apply delete_items_calls.
Qed.

Lemma delete_packages_deletes_cached_witness :
  calls (mkPriv HIF_TRANSACTION_FLAG_NONE
                (Some [hif_package_new 5; hif_package_new 4]) None None
                [hif_package_new 5] None HIF_TRANSACTION_STEP_STARTED
                [FileDelete "/var/cache/kernel-2.rpm"])
  = calls ex_installed_priv
    ++ List.map FileDelete
         (cached_files ex_env_local "/var/cache"
                       (default [] (install ex_installed_priv))).
Proof.
  destruct (proj2 (proj2 (delete_packages_deletes_cached ex_env_local
                            ex_installed_priv)) "/var/cache"%string eq_refl)
    as [n [_ H]].
  apply H. vm_compute. reflexivity.
Defined.



(** ** Downloading. *)
Lemma add_to_repo_keys (repo pkg : Id) (groups : list (Id * list Id)) :
  List.map fst (add_to_repo repo pkg groups)
  = if existsb (Z.eqb repo) (List.map fst groups) then List.map fst groups
    else List.map fst groups ++ [repo].
Proof.
  induction groups as [|[r ps] rest IH]; cbn [add_to_repo List.map fst existsb];
    [reflexivity|].
  rewrite (Z.eqb_sym repo r). destruct (r =? repo); cbn [orb List.map fst];
    [reflexivity|].
  rewrite IH. now destruct (existsb _ _).
Qed.

Lemma add_to_repo_NoDup (repo pkg : Id) (groups : list (Id * list Id)) :
  List.NoDup (List.map fst groups) ->
  List.NoDup (List.map fst (add_to_repo repo pkg groups)).
Proof.
  intros Hnd. rewrite add_to_repo_keys.
  destruct (existsb (Z.eqb repo) (List.map fst groups)) eqn:E; [exact Hnd|].
  apply List.NoDup_app; [exact Hnd | |].
  - constructor; [intros [] | constructor].
  - intros x Hx [E'|[]]. subst x.
    assert (existsb (Z.eqb repo) (List.map fst groups) = true).
    { apply existsb_exists. exists repo. split; [exact Hx | apply Z.eqb_refl]. }
    congruence.
Qed.

Lemma add_to_repo_perm (repo pkg : Id) (groups : list (Id * list Id)) :
  Permutation (concat (List.map snd (add_to_repo repo pkg groups)))
              (concat (List.map snd groups) ++ [pkg]).
Proof.
  induction groups as [|[r ps] rest IH]; cbn [add_to_repo]; [reflexivity|].
  destruct (r =? repo); cbn [List.map snd concat].
  - rewrite <- !app_assoc. apply Permutation_app_head.
    apply Permutation_app_comm.
  - rewrite <- app_assoc. now apply Permutation_app_head.
Qed.

Lemma add_to_repo_owner (own : Id -> Id -> Prop) (repo pkg : Id)
  (groups : list (Id * list Id)) :
  own repo pkg ->
  List.Forall (fun g => List.Forall (own (fst g)) (snd g)) groups ->
  List.Forall (fun g => List.Forall (own (fst g)) (snd g))
              (add_to_repo repo pkg groups).
Proof.
  intros Ho Hall. induction Hall as [|[r ps] rest Hg Hrest IH];
    cbn [add_to_repo].
  - repeat constructor. exact Ho.
  - destruct (Z.eqb_spec r repo) as [->|Hne].
    + constructor; [|exact Hrest]. cbn [fst snd] in *.
      apply Forall_app. split; [exact Hg | now repeat constructor].
    + constructor; assumption.
Qed.

(** The groups built from a list of packages. *)
Lemma map_packages_to_repos_spec (env : Env) (packages : list HifPackage) :
  forall groups,
    List.NoDup (List.map fst groups) ->
    List.Forall (fun g => List.Forall
                            (fun p => package_repo env p = Some (fst g)) (snd g))
                groups ->
    match map_packages_to_repos env packages groups with
    | Error code msg =>
        code = HIF_ERROR_INTERNAL_ERROR /\ msg = "package repo is unset"%string /\
        exists pkg, In pkg packages /\ package_repo env (pkg_id pkg) = None
    | Ok groups' =>
        List.NoDup (List.map fst groups') /\
        List.Forall (fun g => List.Forall
                                (fun p => package_repo env p = Some (fst g))
                                (snd g)) groups' /\
        Permutation (concat (List.map snd groups'))
                    (concat (List.map snd groups) ++ List.map pkg_id packages)
    end.
Proof.
  induction packages as [|pkg rest IH]; intros groups Hnd Hown;
    cbn [map_packages_to_repos].
  - cbn [List.map]. rewrite app_nil_r. now repeat split.
  - destruct (package_repo env (pkg_id pkg)) as [repo|] eqn:R.
    + specialize (IH (add_to_repo repo (pkg_id pkg) groups)
                     (add_to_repo_NoDup _ _ _ Hnd)
                     (add_to_repo_owner
                        (fun r p => package_repo env p = Some r) _ _ _ R Hown)).
      destruct (map_packages_to_repos env rest _) as [groups'|code msg].
      * destruct IH as [H1 [H2 H3]]. repeat split; try assumption.
        apply (Permutation_trans H3). cbn [List.map].
        change (pkg_id pkg :: List.map pkg_id rest)
          with ([pkg_id pkg] ++ List.map pkg_id rest).
        rewrite app_assoc. apply Permutation_app_tail, add_to_repo_perm.
      * destruct IH as [H1 [H2 [p [Hp Hn]]]]. repeat split; try assumption.
        exists p. split; [now right | exact Hn].
    + repeat split. exists pkg. split; [now left | exact R].
Qed.

Lemma download_repos_all (env : Env) (groups : list (Id * list Id)) :
  downloads_succeed env ->
  forall priv,
    download_repos env priv groups
    = Go (mkPriv (Transaction.flags priv) (install priv) (remove priv)
                 (remove_helper priv) (pkgs_to_download priv)
                 (erased_by_package_hash priv) (step priv)
                 (calls priv ++ downloads groups)).
Proof.
  intros [Hd Hs]. induction groups as [|[repo pkgs] rest IH]; intros priv;
    cbn [download_repos downloads List.map].
  - rewrite app_nil_r. now destruct priv.
  - rewrite Hd, Hs, IH. cbn [log Transaction.flags install remove remove_helper
      pkgs_to_download erased_by_package_hash step calls fst snd].
    unfold downloads. now rewrite <- app_assoc.
Qed.

(** X28.  [hif_package_array_download] hands every package to the
    downloader of its own repo exactly once: when the downloads succeed the
    calls added are one per repo, each with packages of that repo only, and
    together they hold the packages given, each as often as it was given.
    A package without repo stops everything before the first download. *)
Lemma array_download_groups_by_repo (env : Env) (priv : Priv)
  (packages : list HifPackage) :
  downloads_succeed env ->
  (forall pkg, In pkg packages -> package_repo env (pkg_id pkg) <> None) ->
  exists groups,
    hif_package_array_download env priv packages
    = Go (mkPriv (Transaction.flags priv) (install priv) (remove priv)
                 (remove_helper priv) (pkgs_to_download priv)
                 (erased_by_package_hash priv) (step priv)
                 (calls priv ++ downloads groups)) /\
    List.NoDup (List.map fst groups) /\
    List.Forall (fun g => List.Forall
                            (fun p => package_repo env p = Some (fst g)) (snd g))
                groups /\
    Permutation (concat (List.map snd groups)) (List.map pkg_id packages).
Proof.
  intros Hok Hrepo. unfold hif_package_array_download.
  pose proof (map_packages_to_repos_spec env packages [] (List.NoDup_nil _)
                (List.Forall_nil _)) as M.
  destruct (map_packages_to_repos env packages []) as [groups|code msg].
  - destruct M as [H1 [H2 H3]]. exists groups.
    split; [now apply download_repos_all|]. now repeat split.
  - destruct M as [_ [_ [pkg [Hin Hn]]]]. now destruct (Hrepo pkg Hin).
Qed.

Lemma array_download_groups_by_repo_witness :
  exists groups,
    hif_package_array_download ex_env ex_priv
      [hif_package_new 4; hif_package_new 5]
    = Go (mkPriv (Transaction.flags ex_priv) (install ex_priv) (remove ex_priv)
                 (remove_helper ex_priv) (pkgs_to_download ex_priv)
                 (erased_by_package_hash ex_priv) (step ex_priv)
                 (calls ex_priv ++ downloads groups)) /\
    List.NoDup (List.map fst groups) /\
    List.Forall (fun g => List.Forall
                            (fun p => package_repo ex_env p = Some (fst g))
                            (snd g)) groups /\
    Permutation (concat (List.map snd groups))
                (List.map pkg_id [hif_package_new 4; hif_package_new 5]).
Proof.
  apply (array_download_groups_by_repo ex_env ex_priv
           [hif_package_new 4; hif_package_new 5]).
  - split; reflexivity.
  - intros pkg _. discriminate.
Defined.

(** X29.  A package whose repo is not set makes
    [hif_package_array_download] fail with "package repo is unset" before
    anything is downloaded, wherever in the list it stands. *)
Lemma array_download_needs_repos (env : Env) (priv : Priv)
  (packages : list HifPackage) (pkg : HifPackage) :
  In pkg packages ->
  package_repo env (pkg_id pkg) = None ->
  hif_package_array_download env priv packages
  = Stop (HIF_ERROR_INTERNAL_ERROR, "package repo is unset"%string) priv.
Proof.
  intros Hin Hn. unfold hif_package_array_download.
  pose proof (map_packages_to_repos_spec env packages [] (List.NoDup_nil _)
                (List.Forall_nil _)) as M.
  destruct (map_packages_to_repos env packages []) as [groups|code msg].
  - exfalso. destruct M as [_ [H2 H3]].
    assert (Hp : In (pkg_id pkg) (concat (List.map snd groups))).
    { apply (Permutation_in _ (Permutation_sym H3)). cbn [concat List.map app].
      now apply in_map. }
    apply in_concat in Hp. destruct Hp as [ps [Hps Hp]].
    apply in_map_iff in Hps. destruct Hps as [[r ps'] [<- Hg]].
    rewrite List.Forall_forall in H2. specialize (H2 _ Hg).
    rewrite List.Forall_forall in H2. specialize (H2 _ Hp).
    cbn [fst] in H2. congruence.
  - destruct M as [-> [-> _]]. reflexivity.
Qed.

Lemma array_download_needs_repos_witness :
  hif_package_array_download ex_env_unset ex_priv
    [hif_package_new 4; hif_package_new 5]
  = Stop (HIF_ERROR_INTERNAL_ERROR, "package repo is unset"%string) ex_priv.
Proof.
  apply (array_download_needs_repos ex_env_unset ex_priv
           [hif_package_new 4; hif_package_new 5] (hif_package_new 5)).
  - right. now left.
  - reflexivity.
Defined.

End CommitFacts.
